(** * Rate limiting dependencies of [core/rate_limiting.py]

    A shallow embedding of the five FastAPI dependencies
    ([token_bucket_dependency], [leaky_bucket_dependency],
    [fixed_window_counter_dependency], [sliding_window_log_dependency],
    [sliding_window_counter_dependency]) together with the part of Redis
    they talk to.

    Every dependency is a program over Redis commands and [time.time()].
    The same program is run in two ways: to completion against a store
    (one request handled alone) and one command at a time under a
    schedule (several requests handled at once).

    Conventions.
    - A Python [float] holding a timestamp is an exact rational ([Qc]);
      binary64 rounding is not modelled, nor the [OverflowError] of an
      infinite product.  [int(x)] on a float truncates toward zero.  The
      model computes what the interpreter computes where the float
      operations are exact; [exact_elapsed] names such inputs, and
      [float_range] inputs whose product stays finite.
    - The Redis client is created with [decode_responses=True], so reads
      return text.  The text of a number is represented by the number
      together with its Python type ([num]).
    - A key's time to live is recorded as set; expiry itself is an action
      of the store's environment ([expire_key]).
    - Integer counters are unbounded (INCR's 64-bit overflow is left out),
      and EXPIRE takes any number of seconds; Redis refuses those whose
      deadline does not fit 64 bits, and [expire_range] names seconds it
      accepts. *)

From Stdlib Require Import ZArith QArith Qcanon Lia Ascii.
From stdpp Require Import base numbers gmap strings pretty list sorting.

Local Open Scope Z_scope.

(** ** Python values and exceptions *)

(** The exceptions these functions can end with.  [HTTPException 429] is
    the denial; the others come from conversions, arithmetic and Redis. *)
Inductive exn : Type :=
| HTTPException (status_code : Z)
| ValueError
| TypeError
| ZeroDivisionError
| ResponseError.

#[global] Instance exn_eq_dec : EqDecision exn.
Proof. solve_decision. Defined.

(** The text Redis returns for a number written by redis-py: [str] of an
    [int] or [repr] of a [float]. *)
Inductive num : Type :=
| NInt (z : Z)
| NFloat (q : Qc).

#[global] Instance num_eq_dec : EqDecision num.
Proof. solve_decision. Defined.

(** [int(x)] for a float [x]: truncation toward zero. *)
Definition int_of_float (q : Qc) : Z := Z.quot (Qnum q) (Zpos (Qden q)).

(** [float(n)] for an int [n]. *)
Definition float_of_int (n : Z) : Qc := Qc_of_Z n.

(** [x // w] for a float [x] and an int [w], then [int(...)]: the floor of
    the quotient.  Only meaningful for [w <> 0]; the caller raises
    [ZeroDivisionError] first. *)
Definition floor_div_float (x : Qc) (w : Z) : Z :=
  Qnum x / (Zpos (Qden x) * w).

(** ** The Redis store *)

Inductive rvalue : Type :=
| RString (n : Z)                 (* a string holding a decimal integer *)
| RHash (h : gmap string num)     (* field -> text of a number *)
| RZSet (z : gmap Qc Qc).         (* member -> score *)

Record entry : Type := Entry { value : rvalue; ttl : option Z }.

Abbreviation store := (gmap string entry).

(** The Redis commands used by the module, and the clock.  The index is
    the type of the reply. *)
Inductive cmd : Type → Type :=
| TimeTime : cmd Qc
| HMGet (key f1 f2 : string) : cmd (option num * option num)
| HMSet (key : string) (mapping : list (string * num)) : cmd unit
| Get (key : string) : cmd (option Z)
| Incr (key : string) : cmd Z
| Expire (key : string) (seconds : Z) : cmd bool
| ZRemRangeByScore (key : string) (lo hi : Qc) : cmd Z
| ZCard (key : string) : cmd Z
| ZAdd (key : string) (member score : Qc) : cmd Z.

(** Programs: a reply-indexed tree of commands ending in a value or an
    exception. *)
Inductive prog (A : Type) : Type :=
| Return (a : A)
| Raise (e : exn)
| Call {X : Type} (c : cmd X) (k : X → prog A).

Arguments Return {A} a.
Arguments Raise {A} e.
Arguments Call {A X} c k.

Fixpoint bind {A B : Type} (p : prog A) (f : A → prog B) : prog B :=
  match p with
  | Return a => f a
  | Raise e => Raise e
  | Call c k => Call c (λ x, bind (k x) f)
  end.

#[global] Instance prog_ret : MRet prog := @Return.
#[global] Instance prog_bind : MBind prog := λ A B f p, bind p f.

Definition call {X : Type} (c : cmd X) : prog X := Call c Return.

(** Outcome of a command or of a whole program. *)
Inductive result (A : Type) : Type :=
| Ok (a : A)
| Exn (e : exn).

Arguments Ok {A} a.
Arguments Exn {A} e.

#[global] Instance result_eq_dec `{EqDecision A} : EqDecision (result A).
Proof. solve_decision. Defined.

(** Scores removed by ZREMRANGEBYSCORE: both bounds are inclusive. *)
Definition in_score_range (lo hi : Qc) (score : Qc) : Prop :=
  (lo ≤ score)%Qc ∧ (score ≤ hi)%Qc.

#[global] Instance in_score_range_dec lo hi score :
  Decision (in_score_range lo hi score).
Proof. unfold in_score_range. apply _. Defined.

Definition zset_remove_range (lo hi : Qc) (z : gmap Qc Qc) : gmap Qc Qc :=
  filter (λ ms, ¬ in_score_range lo hi ms.2) z.

(** One command against the store at clock reading [now]. *)
Definition exec {X : Type} (c : cmd X) (now : Qc) (s : store)
  : store * result X :=
  match c in cmd X return store * result X with
  | TimeTime => (s, Ok now)
  | HMGet key f1 f2 =>
      match s !! key with
      | None => (s, Ok (None, None))
      | Some (Entry (RHash h) _) => (s, Ok (h !! f1, h !! f2))
      | Some _ => (s, Exn ResponseError)
      end
  | HMSet key mapping =>
      match s !! key with
      | None => (<[key := Entry (RHash (list_to_map mapping)) None]> s, Ok tt)
      | Some (Entry (RHash h) t) =>
          (<[key := Entry (RHash (list_to_map mapping ∪ h)) t]> s, Ok tt)
      | Some _ => (s, Exn ResponseError)
      end
  | Get key =>
      match s !! key with
      | None => (s, Ok None)
      | Some (Entry (RString n) _) => (s, Ok (Some n))
      | Some _ => (s, Exn ResponseError)
      end
  | Incr key =>
      match s !! key with
      | None => (<[key := Entry (RString 1) None]> s, Ok 1)
      | Some (Entry (RString n) t) =>
          (<[key := Entry (RString (n + 1)) t]> s, Ok (n + 1))
      | Some _ => (s, Exn ResponseError)
      end
  | Expire key seconds =>
      match s !! key with
      | None => (s, Ok false)
      | Some (Entry v _) =>
          if decide (seconds ≤ 0) then (delete key s, Ok true)
          else (<[key := Entry v (Some seconds)]> s, Ok true)
      end
  | ZRemRangeByScore key lo hi =>
      match s !! key with
      | None => (s, Ok 0)
      | Some (Entry (RZSet z) t) =>
          let z' := zset_remove_range lo hi z in
          let removed := Z.of_nat (size z) - Z.of_nat (size z') in
          if decide (z' = ∅) then (delete key s, Ok removed)
          else (<[key := Entry (RZSet z') t]> s, Ok removed)
      | Some _ => (s, Exn ResponseError)
      end
  | ZCard key =>
      match s !! key with
      | None => (s, Ok 0)
      | Some (Entry (RZSet z) _) => (s, Ok (Z.of_nat (size z)))
      | Some _ => (s, Exn ResponseError)
      end
  | ZAdd key member score =>
      match s !! key with
      | None => (<[key := Entry (RZSet {[member := score]}) None]> s, Ok 1)
      | Some (Entry (RZSet z) t) =>
          (<[key := Entry (RZSet (<[member := score]> z)) t]> s,
           Ok (if z !! member is Some _ then 0 else 1))
      | Some _ => (s, Exn ResponseError)
      end
  end.

(** A whole program, alone, at one clock reading. *)
Fixpoint run {A : Type} (p : prog A) (now : Qc) (s : store)
  : store * result A :=
  match p with
  | Return a => (s, Ok a)
  | Raise e => (s, Exn e)
  | Call c k =>
      match exec c now s with
      | (s', Ok x) => run (k x) now s'
      | (s', Exn e) => (s', Exn e)
      end
  end.

(** ** Python helpers *)

Definition raise {A : Type} (e : exn) : prog A := Raise e.

(** [int(s)] for a text [s]: only the text of an int parses. *)
Definition int_of_str (s : num) : prog Z :=
  match s with
  | NInt z => mret z
  | NFloat _ => raise ValueError
  end.

(** [float(s)] for a reply [s]: [None] is a [TypeError]. *)
Definition float_of_reply (s : option num) : prog Qc :=
  match s with
  | None => raise TypeError
  | Some (NInt z) => mret (float_of_int z)
  | Some (NFloat q) => mret q
  end.

(** ** Token bucket (lines 34-81) *)

Definition token_bucket_dependency
    (user_id : string) (max_tokens refill_rate : Z) : prog unit :=
  let key := "token_bucket:" +:+ user_id in
  '(tokens, last_refill_time) ← call (HMGet key "tokens" "last_refill_time");
  '(tokens, last_refill_time) ←
    match tokens with
    | None =>
        t ← call TimeTime;
        mret (max_tokens, t)
    | Some tokens =>
        tokens ← int_of_str tokens;
        last_refill_time ← float_of_reply last_refill_time;
        mret (tokens, last_refill_time)
    end;
  (* Refill tokens based on elapsed time *)
  now ← call TimeTime;
  let tokens_to_add := ((now - last_refill_time) * float_of_int refill_rate)%Qc in
  let tokens := Z.min max_tokens (tokens + int_of_float tokens_to_add) in
  let last_refill_time := now in
  if decide (tokens ≤ 0) then raise (HTTPException 429) else
  (* Decrement token and store back in Redis *)
  let tokens := tokens - 1 in
  call (HMSet key [("tokens", NInt tokens);
                   ("last_refill_time", NFloat last_refill_time)]);;
  mret tt.

(** ** Leaky bucket (lines 84-130) *)

(** [float(s)] for a text [s] that is present. *)
Definition float_of_str (s : num) : Qc :=
  match s with
  | NInt z => float_of_int z
  | NFloat q => q
  end.

(** The replies are texts of numbers, hence never the empty string: a
    reply is falsy exactly when it is [None]. *)
Definition leaky_bucket_dependency
    (user_id : string) (capacity : Z) (leak_rate : Qc) : prog unit :=
  let key := "leaky_bucket:" +:+ user_id in
  '(requests, last_check) ← call (HMGet key "requests" "last_check");
  requests ← match requests with
             | Some requests => int_of_str requests
             | None => mret 0
             end;
  last_check ← match last_check with
               | Some last_check => mret (float_of_str last_check)
               | None => call TimeTime
               end;
  (* Calculate leaked tokens *)
  now ← call TimeTime;
  let leaked := ((now - last_check) * leak_rate)%Qc in
  let requests := Z.max 0 (requests - int_of_float leaked) in
  let last_check := now in
  if decide (requests >= capacity) then raise (HTTPException 429) else
  (* Add a request and save the updated state *)
  let requests := requests + 1 in
  call (HMSet key [("requests", NInt requests);
                   ("last_check", NFloat last_check)]);;
  mret tt.

(** ** Fixed window counter (lines 133-173) *)

Definition fixed_window_key (user_id : string) (window_id : Z) : string :=
  "fixed_window:" +:+ user_id +:+ ":" +:+ pretty window_id.

Definition fixed_window_counter_dependency
    (user_id : string) (max_requests window_seconds : Z) : prog unit :=
  t ← call TimeTime;
  if decide (window_seconds = 0) then raise ZeroDivisionError else
  let key := fixed_window_key user_id (floor_div_float t window_seconds) in
  requests ← call (Get key);
  if match requests with
     | Some requests => bool_decide (requests >= max_requests)
     | None => false
     end
  then raise (HTTPException 429) else
  (* Increment request count with expiration *)
  call (Incr key);;
  call (Expire key window_seconds);;
  mret tt.

(** ** Sliding window log (lines 176-220) *)

Definition sliding_window_log_dependency
    (user_id : string) (max_requests window_seconds : Z) : prog unit :=
  let key := "sliding_window_log:" +:+ user_id in
  now ← call TimeTime;
  (* Remove expired requests *)
  call (ZRemRangeByScore key 0%Qc (now - float_of_int window_seconds)%Qc);;
  (* Check request count *)
  request_count ← call (ZCard key);
  if decide (request_count >= max_requests) then raise (HTTPException 429) else
  (* Add new request timestamp *)
  call (ZAdd key now now);;
  mret tt.

(** ** Sliding window counter (lines 223-277) *)

(** [range(start, stop, step)] for [step <> 0]. *)
Definition range_len (start stop step : Z) : Z :=
  if decide (0 < step) then Z.max 0 ((stop - start + step - 1) / step)
  else if decide (step < 0) then Z.max 0 ((start - stop - step - 1) / (- step))
  else 0.

Definition py_range (start stop step : Z) : list Z :=
  (λ i, start + i * step) <$> seqZ 0 (range_len start stop step).

(** [sum(...)] over ints. *)
Definition py_sum (l : list Z) : Z := foldr Z.add 0 l.

Definition sliding_window_counter_key (user_id : string) (sub_window_id : Z)
  : string :=
  "sliding_window_counter:" +:+ user_id +:+ ":" +:+ pretty sub_window_id.

Definition sliding_window_counter_dependency
    (user_id : string) (max_requests window_seconds sub_window_seconds : Z)
  : prog unit :=
  t ← call TimeTime;
  let now := int_of_float t in
  if decide (sub_window_seconds = 0) then raise ZeroDivisionError else
  let key_pattern :=
    sliding_window_counter_key user_id (now `div` sub_window_seconds) in
  let window_start := now - window_seconds in
  (* Aggregate counts within the sliding window *)
  counts ← mapM (λ timestamp,
                   r ← call (Get (sliding_window_counter_key user_id
                                    (timestamp `div` sub_window_seconds)));
                   mret (default 0 r))
                (py_range window_start now sub_window_seconds);
  let total_requests := py_sum counts in
  if decide (total_requests >= max_requests)
  then raise (HTTPException 429) else
  (* Increment the request count in the current sub-window *)
  call (Incr key_pattern);;
  call (Expire key_pattern window_seconds);;
  mret tt.

(** ** Requests one after another *)

(** The same dependency called once per clock reading in [times], each
    call running to completion before the next starts. *)
Fixpoint serve (p : prog unit) (times : list Qc) (s : store)
  : store * list (result unit) :=
  match times with
  | [] => (s, [])
  | now :: times =>
      let r := run p now s in
      let rs := serve p times r.1 in
      (rs.1, r.2 :: rs.2)
  end.

(** What a caller sees: the dependency returned, or raised the 429. *)
Definition allowed : result unit := Ok tt.
Definition denied : result unit := Exn (HTTPException 429).

(** ** Requests at once *)

(** One command of a request in flight. *)
Definition step {A : Type} (p : prog A) (now : Qc) (s : store)
  : prog A * store :=
  match p with
  | Call c k =>
      match exec c now s with
      | (s', Ok x) => (k x, s')
      | (s', Exn e) => (Raise e, s')
      end
  | _ => (p, s)
  end.

(** Requests in flight take turns as the schedule names them; every turn
    is one command, which Redis executes atomically. *)
Fixpoint interleave (schedule : list nat) (now : Qc)
    (threads : list (prog unit)) (s : store) : list (prog unit) * store :=
  match schedule with
  | [] => (threads, s)
  | i :: schedule =>
      match threads !! i with
      | Some p =>
          let ps := step p now s in
          interleave schedule now (<[i := ps.1]> threads) ps.2
      | None => interleave schedule now threads s
      end
  end.

Definition finished_allowed (p : prog unit) : bool :=
  match p with
  | Return _ => true
  | _ => false
  end.

Definition admitted (threads : list (prog unit)) : nat :=
  length (filter (λ p, finished_allowed p = true) threads).

(** ** What each limiter keeps for an identity *)

Definition token_bucket_state (user_id : string) (s : store)
  : option (Z * Qc) :=
  match s !! ("token_bucket:" +:+ user_id) with
  | Some (Entry (RHash h) _) =>
      match h !! "tokens", h !! "last_refill_time" with
      | Some (NInt tokens), Some last => Some (tokens, float_of_str last)
      | _, _ => None
      end
  | _ => None
  end.

Definition leaky_bucket_state (user_id : string) (s : store)
  : option (Z * Qc) :=
  match s !! ("leaky_bucket:" +:+ user_id) with
  | Some (Entry (RHash h) _) =>
      match h !! "requests", h !! "last_check" with
      | Some (NInt requests), Some last => Some (requests, float_of_str last)
      | _, _ => None
      end
  | _ => None
  end.

(** The counter text under a key, with its time to live. *)
Definition counter_at (key : string) (s : store) : option (Z * option Z) :=
  match s !! key with
  | Some (Entry (RString n) t) => Some (n, t)
  | _ => None
  end.

(** The log of an identity: member -> score; empty when the key is absent. *)
Definition log_of (user_id : string) (s : store) : gmap Qc Qc :=
  match s !! ("sliding_window_log:" +:+ user_id) with
  | Some (Entry (RZSet z) _) => z
  | _ => ∅
  end.

(** The two fields [hmset] writes for a bucket. *)
Definition token_fields (tokens : Z) (last_refill_time : Qc)
  : list (string * num) :=
  [("tokens", NInt tokens); ("last_refill_time", NFloat last_refill_time)].

Definition leaky_fields (requests : Z) (last_check : Qc)
  : list (string * num) :=
  [("requests", NInt requests); ("last_check", NFloat last_check)].

(** Tokens credited by a call at [now] to a bucket last written at
    [last].  The product is taken over the rationals; it is the product
    Python computes where [exact_elapsed] holds. *)
Definition tokens_to_add (refill_rate : Z) (last now : Qc) : Z :=
  int_of_float ((now - last) * float_of_int refill_rate)%Qc.

(** Requests drained by a call at [now] from a bucket last written at
    [last], with the same reading of the product. *)
Definition leaked (leak_rate : Qc) (last now : Qc) : Z :=
  int_of_float ((now - last) * leak_rate)%Qc.

(** A bucket key is usable when it is absent or holds both fields as the
    dependency writes them. *)
Definition token_bucket_wf (user_id : string) (s : store) : Prop :=
  s !! ("token_bucket:" +:+ user_id) = None ∨
  is_Some (token_bucket_state user_id s).

Definition leaky_bucket_wf (user_id : string) (s : store) : Prop :=
  s !! ("leaky_bucket:" +:+ user_id) = None ∨
  is_Some (leaky_bucket_state user_id s).

(** ** The buckets as transition systems on the stored pair

    These summarise one call by what it does to the pair an identity
    keeps; [serve_token_bucket] and [serve_leaky_bucket] show that the
    dependencies run against Redis follow them. *)

Definition token_bucket_next (max_tokens refill_rate : Z)
    (st : option (Z * Qc)) (now : Qc) : option (Z * Qc) * result unit :=
  let tokens :=
    match st with
    | None => max_tokens
    | Some (tokens, last) =>
        Z.min max_tokens (tokens + tokens_to_add refill_rate last now)
    end in
  if decide (tokens ≤ 0) then (st, denied)
  else (Some (tokens - 1, now), allowed).

Definition leaky_bucket_next (capacity : Z) (leak_rate : Qc)
    (st : option (Z * Qc)) (now : Qc) : option (Z * Qc) * result unit :=
  let level :=
    match st with
    | None => 0
    | Some (requests, last) => Z.max 0 (requests - leaked leak_rate last now)
    end in
  if decide (level >= capacity) then (st, denied)
  else (Some (level + 1, now), allowed).

Fixpoint trace {S : Type} (next : S → Qc → S * result unit)
    (st : S) (times : list Qc) : S * list (result unit) :=
  match times with
  | [] => (st, [])
  | now :: times =>
      let r := next st now in
      let rs := trace next r.1 times in
      (rs.1, r.2 :: rs.2)
  end.

(** The count a read of [key] contributes to a sum: [int(get(key) or 0)]. *)
Definition counter_value (key : string) (s : store) : Z :=
  match counter_at key s with
  | Some (n, _) => n
  | None => 0
  end.

(** ** All five limiters under one configuration *)

Inductive algorithm : Type :=
| TokenBucket
| LeakyBucket
| FixedWindowCounter
| SlidingWindowLog
| SlidingWindowCounter.

(** The parameters each dependency is called with. *)
Record policy : Type := Policy {
  tb_max_tokens : Z;
  tb_refill_rate : Z;
  lb_capacity : Z;
  lb_leak_rate : Qc;
  fw_max_requests : Z;
  fw_window_seconds : Z;
  sl_max_requests : Z;
  sl_window_seconds : Z;
  sc_max_requests : Z;
  sc_window_seconds : Z;
  sc_sub_window_seconds : Z
}.

Definition dependency (a : algorithm) (p : policy) (user_id : string)
  : prog unit :=
  match a with
  | TokenBucket =>
      token_bucket_dependency user_id (tb_max_tokens p) (tb_refill_rate p)
  | LeakyBucket =>
      leaky_bucket_dependency user_id (lb_capacity p) (lb_leak_rate p)
  | FixedWindowCounter =>
      fixed_window_counter_dependency
        user_id (fw_max_requests p) (fw_window_seconds p)
  | SlidingWindowLog =>
      sliding_window_log_dependency
        user_id (sl_max_requests p) (sl_window_seconds p)
  | SlidingWindowCounter =>
      sliding_window_counter_dependency
        user_id (sc_max_requests p) (sc_window_seconds p)
        (sc_sub_window_seconds p)
  end.

(** What happens to a store: a request is served, or Redis drops a key
    whose time to live was set.  When a key is dropped is left open, so
    the histories cover every timing of expiry. *)
Inductive event : Type :=
| Request (a : algorithm) (user_id : string) (now : Qc)
| KeyExpired (key : string).

Definition expire_key (key : string) (s : store) : store :=
  match s !! key with
  | Some (Entry _ (Some _)) => delete key s
  | _ => s
  end.

Fixpoint replay (p : policy) (history : list event) (s : store) : store :=
  match history with
  | [] => s
  | Request a user_id now :: history =>
      replay p history (run (dependency a p user_id) now s).1
  | KeyExpired key :: history => replay p history (expire_key key s)
  end.

(** ** Shapes of programs *)

(** Commands that leave the store as it is. *)
Definition reads {X : Type} (c : cmd X) : bool :=
  match c with
  | TimeTime | HMGet _ _ _ | Get _ | ZCard _ => true
  | _ => false
  end.

(** The program only reads. *)
Fixpoint read_only {A : Type} (p : prog A) : Prop :=
  match p with
  | Call c k => reads c = true ∧ ∀ x, read_only (k x)
  | _ => True
  end.

(** No path of the program raises the 429. *)
Fixpoint never_denies {A : Type} (p : prog A) : Prop :=
  match p with
  | Return _ => True
  | Raise e => e ≠ HTTPException 429
  | Call c k => ∀ x, never_denies (k x)
  end.

(** Every 429 of the program is raised before its first write. *)
Fixpoint denies_before_writing {A : Type} (p : prog A) : Prop :=
  match p with
  | Return _ => True
  | Raise _ => True
  | Call c k =>
      if reads c then ∀ x, denies_before_writing (k x)
      else ∀ x, never_denies (k x)
  end.

(** The program never adds to a sorted set. *)
Definition is_zadd {X : Type} (c : cmd X) : bool :=
  match c with
  | ZAdd _ _ _ => true
  | _ => false
  end.

Fixpoint no_zadd {A : Type} (p : prog A) : Prop :=
  match p with
  | Call c k => is_zadd c = false ∧ ∀ x, no_zadd (k x)
  | _ => True
  end.

(** Every sorted set in the store is non-empty and holds at most [n]
    members. *)
Definition logs_bounded (n : Z) (s : store) : Prop :=
  ∀ key z t, s !! key = Some (Entry (RZSet z) t) →
             z ≠ ∅ ∧ Z.of_nat (size z) ≤ n.

(** The log key of an identity is absent or holds a sorted set. *)
Definition log_wf (user_id : string) (s : store) : Prop :=
  match s !! ("sliding_window_log:" +:+ user_id) with
  | None | Some (Entry (RZSet _) _) => True
  | _ => False
  end.

(** ** Further shapes of programs *)

(** Seconds that EXPIRE accepts whatever the date: Redis keeps the
    deadline in milliseconds since the epoch as a signed 64-bit
    integer. *)
Definition expire_range (seconds : Z) : Prop := - 2 ^ 52 ≤ seconds ≤ 2 ^ 52.

(** Commands that cannot raise: the clock, and EXPIRE with seconds in
    that range. *)
Definition never_fails {X : Type} (c : cmd X) : bool :=
  match c with
  | TimeTime => true
  | Expire _ seconds => bool_decide (expire_range seconds)
  | _ => false
  end.

(** The program has no [raise] and issues only commands that cannot
    raise. *)
Fixpoint completes {A : Type} (p : prog A) : Prop :=
  match p with
  | Return _ => True
  | Raise _ => False
  | Call c k => never_fails c = true ∧ ∀ x, completes (k x)
  end.

(** Whatever the program raises, it raises before its first write took
    effect: up to the first write it only reads, and once that write went
    through nothing after it can raise. *)
Fixpoint fails_before_writing {A : Type} (p : prog A) : Prop :=
  match p with
  | Return _ => True
  | Raise _ => True
  | Call c k =>
      if reads c then ∀ x, fails_before_writing (k x)
      else ∀ x, completes (k x)
  end.

(** The key a command addresses. *)
Definition target {X : Type} (c : cmd X) : option string :=
  match c with
  | TimeTime => None
  | HMGet key _ _ | HMSet key _ | Get key | Incr key | Expire key _
  | ZRemRangeByScore key _ _ | ZCard key | ZAdd key _ _ => Some key
  end.

(** Every command of the program addresses a key in [K]. *)
Fixpoint touches_only {A : Type} (K : string → Prop) (p : prog A) : Prop :=
  match p with
  | Call c k =>
      (∀ key, target c = Some key → K key) ∧ ∀ x, touches_only K (k x)
  | _ => True
  end.

(** The keys a limiter builds for an identity. *)
Definition own_keys (a : algorithm) (user_id : string) (key : string)
  : Prop :=
  match a with
  | TokenBucket => key = "token_bucket:" +:+ user_id
  | LeakyBucket => key = "leaky_bucket:" +:+ user_id
  | FixedWindowCounter => ∃ wid, key = fixed_window_key user_id wid
  | SlidingWindowLog => key = "sliding_window_log:" +:+ user_id
  | SlidingWindowCounter =>
      ∃ sid, key = sliding_window_counter_key user_id sid
  end.

Fixpoint colon_free (s : string) : Prop :=
  match s with
  | EmptyString => True
  | String c s => c ≠ ":"%char ∧ colon_free s
  end.

(** The program never sets a time to live. *)
Definition is_expire {X : Type} (c : cmd X) : bool :=
  match c with
  | Expire _ _ => true
  | _ => false
  end.

Fixpoint no_expire {A : Type} (p : prog A) : Prop :=
  match p with
  | Call c k => is_expire c = false ∧ ∀ x, no_expire (k x)
  | _ => True
  end.

(** Only counters carry a time to live. *)
Definition ttl_only_on_counters (s : store) : Prop :=
  ∀ key v t, s !! key = Some (Entry v (Some t)) → ∃ n, v = RString n.

(** How many of a run of calls were let through. *)
Definition admitted_count (rs : list (result unit)) : Z :=
  Z.of_nat (length (filter (λ r, r = allowed) rs)).


(** Every EXPIRE of the program addresses the key of an INCR issued
    before it ([known]), with no other EXPIRE in between. *)
Fixpoint expire_guarded {A : Type} (known : option string) (p : prog A)
  : Prop :=
  match p with
  | Call c k =>
      match c in cmd X return (X → prog A) → Prop with
      | Expire key _ =>
          λ k, known = Some key ∧ ∀ x, expire_guarded None (k x)
      | Incr key => λ k, ∀ x, expire_guarded (Some key) (k x)
      | _ => λ k, ∀ x, expire_guarded known (k x)
      end k
  | _ => True
  end.

(** The timestamps of the calls of a run that were let through. *)
Definition admitted_times (times : list Qc) (rs : list (result unit))
  : list Qc :=
  (filter (λ tr, tr.2 = allowed) (zip times rs)).*1.

(** The key holds a counter. *)
Definition holds_counter (key : string) (s : store) : Prop :=
  ∃ n t, s !! key = Some (Entry (RString n) t).


(** ** Where the model computes what the interpreter computes *)

(** The finite values of a Python [float]: the binary64 numbers
    [m * 2^e] with [|m| < 2^53] and [-1074 <= e <= 971]. *)
Definition binary64 (q : Qc) : Prop :=
  ∃ m e : Z, Z.abs m < 2 ^ 53 ∧ -1074 ≤ e ≤ 971 ∧
             q = Q2Qc (inject_Z m * Qpower 2 e).

(** An IEEE operation whose exact result is a binary64 number returns
    that number.  [exact_elapsed] asks this of the subtraction and of the
    product in [(now - last) * rate], on binary64 operands: the rational
    product of the model is then the product Python computes. *)
Definition exact_elapsed (rate last now : Qc) : Prop :=
  binary64 rate ∧ binary64 last ∧ binary64 now ∧
  binary64 (now - last)%Qc ∧ binary64 ((now - last) * rate)%Qc.

(** The same of every two call times of a run. *)
Definition exact_run (rate : Qc) (times : list Qc) : Prop :=
  ∀ last now, last ∈ times → now ∈ times → exact_elapsed rate last now.

(** Magnitudes up to [2^1023]: a rate in this range converts to a float,
    and a product whose exact value is in this range stays finite under
    binary64 rounding, so that [int(...)] does not raise
    [OverflowError]. *)
Definition float_range (q : Qc) : Prop :=
  (- float_of_int (2 ^ 1023) ≤ q ≤ float_of_int (2 ^ 1023))%Qc.

Definition finite_run (rate : Qc) (times : list Qc) : Prop :=
  float_range rate ∧
  ∀ last now, last ∈ times → now ∈ times →
              float_range ((now - last) * rate)%Qc.

(** The seconds a limiter passes to EXPIRE, if it calls it. *)
Definition expire_seconds (a : algorithm) (p : policy) : option Z :=
  match a with
  | FixedWindowCounter => Some (fw_window_seconds p)
  | SlidingWindowCounter => Some (sc_window_seconds p)
  | _ => None
  end.

(** ** Requests in flight at different clock readings *)

(** As [interleave], every turn with its own reading of the clock. *)
Fixpoint interleave_at (schedule : list (nat * Qc))
    (threads : list (prog unit)) (s : store) : list (prog unit) * store :=
  match schedule with
  | [] => (threads, s)
  | (i, now) :: schedule =>
      match threads !! i with
      | Some p =>
          let ps := step p now s in
          interleave_at schedule (<[i := ps.1]> threads) ps.2
      | None => interleave_at schedule threads s
      end
  end.

(** The log of an identity is not empty and holds at most [n] members. *)
Definition log_bounded (user_id : string) (n : Z) (s : store) : Prop :=
  ∀ z t, s !! ("sliding_window_log:" +:+ user_id) = Some (Entry (RZSet z) t) →
         z ≠ ∅ ∧ Z.of_nat (size z) ≤ n.
(** ** Running programs: basic facts *)

Section run_facts.
Context {A B : Type}.
Implicit Types (now : Qc) (s : store).

Lemma run_bind (p : prog A) (f : A → prog B) now s :
  run (p ≫= f) now s =
  match run p now s with
  | (s', Ok a) => run (f a) now s'
  | (s', Exn e) => (s', Exn e)
  end.
Proof.
  revert s. induction p as [a|e|X c k IH]; intros s; cbn; try done.
  destruct (exec c now s) as [s' [x|e]]; [apply IH | done].
Qed.

Lemma run_call (c : cmd A) now s : run (call c) now s = exec c now s.
Proof. cbn. by destruct (exec c now s) as [s' [x|e]]. Qed.

Lemma run_call_bind (c : cmd A) (f : A → prog B) now s :
  run (call c ≫= f) now s =
  match exec c now s with
  | (s', Ok a) => run (f a) now s'
  | (s', Exn e) => (s', Exn e)
  end.
Proof. by rewrite run_bind, run_call. Qed.

(** Taking one step first does not change where a program ends. *)
Lemma run_step (p : prog A) now s :
  run (step p now s).1 now (step p now s).2 = run p now s.
Proof.
  destruct p as [a|e|X c k]; cbn; try done.
  by destruct (exec c now s) as [s' [x|e]].
Qed.
End run_facts.

Lemma run_ret {A : Type} (a : A) now s : run (mret a) now s = (s, Ok a).
Proof. done. Qed.

Lemma run_raise {A : Type} (e : exn) now s :
  run (raise e : prog A) now s = (s, Exn e).
Proof. done. Qed.

Lemma serve_app p times1 times2 s :
  serve p (times1 ++ times2) s =
  ((serve p times2 (serve p times1 s).1).1,
   (serve p times1 s).2 ++ (serve p times2 (serve p times1 s).1).2).
Proof.
  revert s. induction times1 as [|now times1 IH]; intros s; cbn.
  - by destruct (serve p times2 s).
  - by rewrite IH.
Qed.

(** ** Arithmetic of timestamps *)

Section timestamps.
Local Open Scope Qc_scope.

Lemma Qc_le_num (x y : Qc) :
  x ≤ y ↔ (Qnum x * Zpos (Qden y) ≤ Qnum y * Zpos (Qden x))%Z.
Proof. done. Qed.

Lemma Qc_lt_num (x y : Qc) :
  x < y ↔ (Qnum x * Zpos (Qden y) < Qnum y * Zpos (Qden x))%Z.
Proof. done. Qed.

Lemma Qc_nonneg_num (q : Qc) : 0 ≤ q ↔ (0 ≤ Qnum q)%Z.
Proof.
  rewrite Qc_le_num. change (this 0) with (0 # 1)%Q. cbn. lia.
Qed.

Lemma Qc_nonpos_num (q : Qc) : q ≤ 0 ↔ (Qnum q ≤ 0)%Z.
Proof.
  rewrite Qc_le_num. change (this 0) with (0 # 1)%Q. cbn. lia.
Qed.

Lemma Qc_lt_1_num (q : Qc) : q < 1 ↔ (Qnum q < Zpos (Qden q))%Z.
Proof.
  rewrite Qc_lt_num. change (this 1) with (1 # 1)%Q. cbn. lia.
Qed.

Lemma Qc_ge_1_num (q : Qc) : 1 ≤ q ↔ (Zpos (Qden q) ≤ Qnum q)%Z.
Proof.
  rewrite Qc_le_num. change (this 1) with (1 # 1)%Q. cbn. lia.
Qed.

Lemma int_of_float_0 : int_of_float 0 = 0%Z.
Proof. done. Qed.

Lemma int_of_float_nonneg (q : Qc) : 0 ≤ q → (0 ≤ int_of_float q)%Z.
Proof.
  rewrite Qc_nonneg_num. intros Hq. unfold int_of_float.
  apply Z.quot_pos; lia.
Qed.

Lemma int_of_float_nonpos (q : Qc) : q ≤ 0 → (int_of_float q ≤ 0)%Z.
Proof.
  rewrite Qc_nonpos_num. intros Hq. unfold int_of_float.
  assert (0 ≤ - Qnum q)%Z as Hn by lia.
  pose proof (Z.quot_pos (- Qnum q) (Zpos (Qden q)) Hn) as Hpos.
  rewrite Z.quot_opp_l in Hpos by lia. lia.
Qed.

(** Less than one whole unit truncates to nothing. *)
Lemma int_of_float_small (q : Qc) : 0 ≤ q → q < 1 → int_of_float q = 0%Z.
Proof.
  rewrite Qc_nonneg_num, Qc_lt_1_num. intros H0 H1. unfold int_of_float.
  apply Z.quot_small. lia.
Qed.

Lemma int_of_float_ge_1 (q : Qc) : 1 ≤ q → (1 ≤ int_of_float q)%Z.
Proof.
  rewrite Qc_ge_1_num. intros H1. unfold int_of_float.
  apply Z.quot_le_lower_bound; lia.
Qed.

Lemma int_of_float_lt_1 (q : Qc) : q < 1 → (int_of_float q ≤ 0)%Z.
Proof.
  intros H1. destruct (decide (0 ≤ q)) as [H0|H0].
  - by rewrite int_of_float_small.
  - apply int_of_float_nonpos, Qclt_le_weak. by apply Qclt_nge.
Qed.

Lemma int_of_float_of_int (n : Z) : int_of_float (float_of_int n) = n.
Proof. unfold int_of_float, float_of_int. cbn. apply Z.quot_1_r. Qed.

Lemma float_of_int_pos (n : Z) : (0 < n)%Z → 0 < float_of_int n.
Proof.
  rewrite Qc_lt_num. change (this 0) with (0 # 1)%Q. cbn. lia.
Qed.

Lemma float_of_int_nonneg (n : Z) : (0 ≤ n)%Z → 0 ≤ float_of_int n.
Proof. rewrite Qc_nonneg_num. cbn. lia. Qed.

Lemma Qc_sub_nonneg (x y : Qc) : x ≤ y ↔ 0 ≤ y - x.
Proof.
  rewrite (Qcplus_le_mono_r x y (- x)).
  by replace (x + - x) with 0 by ring.
Qed.


Lemma Qc_mul_nonneg (x y : Qc) : 0 ≤ x → 0 ≤ y → 0 ≤ x * y.
Proof.
  intros Hx Hy. replace 0 with (0 * y) by ring.
  by apply Qcmult_le_compat_r.
Qed.


(** No time elapsed: nothing is refilled and nothing leaks. *)
Lemma no_time_no_change (now rate : Qc) :
  int_of_float ((now - now) * rate) = 0%Z.
Proof. by replace ((now - now) * rate) with 0 by ring. Qed.
End timestamps.

(** ** Binary64 values and finite products *)

Lemma binary64_whole (n : Z) : Z.abs n < 2 ^ 53 → binary64 (float_of_int n).
Proof.
  intros Hn. exists n, 0. split_and!; [done|lia|lia|].
  apply Qc_is_canon. cbn [float_of_int Qc_of_Z this Q2Qc].
  rewrite Qred_correct. cbn [Qpower]. by rewrite Qmult_1_r.
Qed.

Lemma exact_elapsed_whole (rate last now : Z) :
  Z.abs rate < 2 ^ 53 → Z.abs last < 2 ^ 53 → Z.abs now < 2 ^ 53 →
  Z.abs (now - last) < 2 ^ 53 → Z.abs ((now - last) * rate) < 2 ^ 53 →
  exact_elapsed (float_of_int rate) (float_of_int last) (float_of_int now).
Proof.
  intros Hrate Hlast Hnow Hsub Hmul. unfold exact_elapsed, float_of_int.
  rewrite <-Z2Qc_inj_sub, <-Z2Qc_inj_mul.
  split_and!; by apply binary64_whole.
Qed.

(** Whole seconds and a whole rate, each at most [2^26]. *)
Lemma exact_run_whole (rate : Z) (times : list Z) :
  0 ≤ rate ≤ 2 ^ 26 → Forall (λ n, 0 ≤ n ≤ 2 ^ 26) times →
  exact_run (float_of_int rate) (float_of_int <$> times).
Proof.
  intros Hrate Htimes last now
    (l & -> & Hl)%list_elem_of_fmap (n & -> & Hn)%list_elem_of_fmap.
  rewrite Forall_forall in Htimes.
  pose proof (Htimes _ Hl). pose proof (Htimes _ Hn).
  apply exact_elapsed_whole; nia.
Qed.

Lemma float_range_whole (n : Z) :
  Z.abs n ≤ 2 ^ 1023 → float_range (float_of_int n).
Proof.
  intros Hn. unfold float_range, float_of_int.
  rewrite <-Z2Qc_inj_opp, <-!Z2Qc_inj_le. lia.
Qed.

Lemma finite_run_whole (rate : Z) (times : list Z) :
  0 ≤ rate ≤ 2 ^ 26 → Forall (λ n, 0 ≤ n ≤ 2 ^ 26) times →
  finite_run (float_of_int rate) (float_of_int <$> times).
Proof.
  intros Hrate Htimes.
  assert (2 ^ 53 ≤ 2 ^ 1023) as Hpow by (apply Z.pow_le_mono_r; lia).
  split; [apply float_range_whole; lia|].
  intros last now
    (l & -> & Hl)%list_elem_of_fmap (n & -> & Hn)%list_elem_of_fmap.
  rewrite Forall_forall in Htimes.
  pose proof (Htimes _ Hl). pose proof (Htimes _ Hn).
  unfold float_of_int. rewrite <-Z2Qc_inj_sub, <-Z2Qc_inj_mul.
  apply float_range_whole. nia.
Qed.

(** ** Writing a bucket's hash *)

Lemma exec_hmset_absent key mapping now s :
  s !! key = None →
  exec (HMSet key mapping) now s =
  (<[key := Entry (RHash (list_to_map mapping)) None]> s, Ok tt).
Proof. intros Hs. cbn. by rewrite Hs. Qed.

Lemma exec_hmset_hash key mapping now s h t :
  s !! key = Some (Entry (RHash h) t) →
  exec (HMSet key mapping) now s =
  (<[key := Entry (RHash (list_to_map mapping ∪ h)) t]> s, Ok tt).
Proof. intros Hs. cbn. by rewrite Hs. Qed.

Lemma token_fields_lookup tokens last (h : gmap string num) :
  (list_to_map (token_fields tokens last) ∪ h) !! "tokens" = Some (NInt tokens) ∧
  (list_to_map (token_fields tokens last) ∪ h) !! "last_refill_time"
    = Some (NFloat last).
Proof. split; by apply lookup_union_Some_l. Qed.

Lemma leaky_fields_lookup requests last (h : gmap string num) :
  (list_to_map (leaky_fields requests last) ∪ h) !! "requests"
    = Some (NInt requests) ∧
  (list_to_map (leaky_fields requests last) ∪ h) !! "last_check"
    = Some (NFloat last).
Proof. split; by apply lookup_union_Some_l. Qed.

(** ** Token bucket: one call in closed form *)

Section token_bucket.
Variables (user_id : string) (max_tokens refill_rate : Z).
Let key := "token_bucket:" +:+ user_id.
Let dep := token_bucket_dependency user_id max_tokens refill_rate.

(** No state yet: the bucket starts full at the time of the call. *)
Lemma token_bucket_run_absent now s :
  s !! key = None →
  run dep now s =
  if decide (max_tokens ≤ 0) then (s, denied)
  else (<[key := Entry (RHash (list_to_map
                                 (token_fields (max_tokens - 1) now))) None]> s,
        allowed).
Proof.
  intros Hs. unfold dep, token_bucket_dependency.
  rewrite run_call_bind. cbn [exec]. fold key. rewrite Hs.
  rewrite run_bind, run_call_bind. cbn [exec]. rewrite run_ret.
  rewrite run_call_bind. cbn [exec].
  rewrite no_time_no_change, Z.add_0_r, Z.min_id.
  destruct (decide (max_tokens ≤ 0)); [done|].
  rewrite run_call_bind. cbn [exec]. by rewrite Hs.
Qed.

(** Existing state: refill by the truncated product, then consume. *)
Lemma token_bucket_run_present now s h t tokens last :
  s !! key = Some (Entry (RHash h) t) →
  h !! "tokens" = Some (NInt tokens) →
  h !! "last_refill_time" = Some last →
  run dep now s =
  let tokens' :=
    Z.min max_tokens
          (tokens + tokens_to_add refill_rate (float_of_str last) now) in
  if decide (tokens' ≤ 0) then (s, denied)
  else (<[key := Entry (RHash (list_to_map (token_fields (tokens' - 1) now)
                               ∪ h)) t]> s,
        allowed).
Proof.
  intros Hs Htok Hlast. unfold dep, token_bucket_dependency.
  rewrite run_call_bind. cbn [exec]. fold key. rewrite Hs, Htok, Hlast.
  rewrite run_bind. cbn [int_of_str]. rewrite run_bind, run_ret.
  assert (float_of_reply (Some last) = mret (float_of_str last)) as ->
    by by destruct last.
  rewrite run_bind, !run_ret.
  rewrite run_call_bind. cbn [exec]. cbn zeta. unfold tokens_to_add.
  destruct (decide (_ ≤ 0)); [done|].
  rewrite run_call_bind. cbn [exec]. by rewrite Hs.
Qed.

Lemma token_bucket_state_absent s :
  s !! key = None → token_bucket_state user_id s = None.
Proof. intros Hs. unfold token_bucket_state. fold key. by rewrite Hs. Qed.

Lemma token_bucket_state_written tokens last m t s :
  token_bucket_state user_id
    (<[key := Entry (RHash (list_to_map (token_fields tokens last) ∪ m)) t]> s)
  = Some (tokens, last).
Proof.
  unfold token_bucket_state. fold key. rewrite lookup_insert_eq.
  by destruct (token_fields_lookup tokens last m) as [-> ->].
Qed.

Lemma token_bucket_state_created tokens last t s :
  token_bucket_state user_id
    (<[key := Entry (RHash (list_to_map (token_fields tokens last))) t]> s)
  = Some (tokens, last).
Proof.
  rewrite <-(right_id_L ∅ (∪) (list_to_map (token_fields tokens last))).
  apply token_bucket_state_written.
Qed.
End token_bucket.

(** One token-bucket call, in terms of the stored pair. *)
Lemma token_bucket_call user_id max_tokens refill_rate now s :
  token_bucket_wf user_id s →
  let r := run (token_bucket_dependency user_id max_tokens refill_rate) now s in
  let tokens :=
    match token_bucket_state user_id s with
    | None => max_tokens
    | Some (tokens, last) =>
        Z.min max_tokens (tokens + tokens_to_add refill_rate last now)
    end in
  (tokens ≤ 0 → r = (s, denied)) ∧
  (0 < tokens →
     r.2 = allowed ∧
     token_bucket_state user_id r.1 = Some (tokens - 1, now)).
Proof.
  intros [Habs|[[tokens last] Hst]].
  - rewrite (token_bucket_state_absent _ _ Habs). cbn zeta.
    rewrite (token_bucket_run_absent _ _ _ _ _ Habs).
    destruct (decide (max_tokens ≤ 0)); split; intros; try lia; try done.
    split; [done|]. cbn [fst]. apply token_bucket_state_created.
  - rewrite Hst. cbn zeta. unfold token_bucket_state in Hst.
    destruct (s !! _) as [[[n|h|z] t]|] eqn:Hs; try done.
    destruct (h !! "tokens") as [[tok|]|] eqn:Htok; try done.
    destruct (h !! "last_refill_time") as [l|] eqn:Hl; try done.
    injection Hst as -> <-.
    rewrite (token_bucket_run_present _ _ _ _ _ _ _ _ _ Hs Htok Hl). cbn zeta.
    destruct (decide (_ ≤ 0)); split; intros; try lia; try done.
    split; [done|]. cbn [fst]. apply token_bucket_state_written.
Qed.

Lemma token_bucket_call_wf user_id max_tokens refill_rate now s :
  token_bucket_wf user_id s →
  token_bucket_wf user_id
    (run (token_bucket_dependency user_id max_tokens refill_rate) now s).1.
Proof.
  intros Hwf.
  destruct (token_bucket_call user_id max_tokens refill_rate now s Hwf)
    as [Hden Hall].
  cbn zeta in Hden, Hall.
  destruct (decide (match token_bucket_state user_id s with
                    | None => max_tokens
                    | Some (tokens, last) =>
                        Z.min max_tokens
                              (tokens + tokens_to_add refill_rate last now)
                    end ≤ 0)) as [Hle|Hgt].
  - by rewrite (Hden Hle).
  - right. destruct Hall as [_ ->]; [lia|done].
Qed.

(** ** Leaky bucket: one call in closed form *)

Section leaky_bucket.
Variables (user_id : string) (capacity : Z) (leak_rate : Qc).
Let key := "leaky_bucket:" +:+ user_id.
Let dep := leaky_bucket_dependency user_id capacity leak_rate.

(** No state yet: the bucket starts empty at the time of the call. *)
Lemma leaky_bucket_run_absent now s :
  s !! key = None →
  run dep now s =
  if decide (0 >= capacity) then (s, denied)
  else (<[key := Entry (RHash (list_to_map (leaky_fields 1 now))) None]> s,
        allowed).
Proof.
  intros Hs. unfold dep, leaky_bucket_dependency.
  rewrite run_call_bind. cbn [exec]. fold key. rewrite Hs.
  rewrite run_bind, run_ret, run_bind, run_call. cbn [exec].
  rewrite run_call_bind. cbn [exec].
  rewrite no_time_no_change, Z.sub_0_r, Z.max_id.
  destruct (decide (0 >= capacity)); [done|].
  rewrite run_call_bind. cbn [exec]. by rewrite Hs.
Qed.

(** Existing state: drain by the truncated product, then add one. *)
Lemma leaky_bucket_run_present now s h t requests last :
  s !! key = Some (Entry (RHash h) t) →
  h !! "requests" = Some (NInt requests) →
  h !! "last_check" = Some last →
  run dep now s =
  let level :=
    Z.max 0 (requests - leaked leak_rate (float_of_str last) now) in
  if decide (level >= capacity) then (s, denied)
  else (<[key := Entry (RHash (list_to_map (leaky_fields (level + 1) now)
                               ∪ h)) t]> s,
        allowed).
Proof.
  intros Hs Hreq Hlast. unfold dep, leaky_bucket_dependency.
  rewrite run_call_bind. cbn [exec]. fold key. rewrite Hs, Hreq, Hlast.
  rewrite run_bind. cbn [int_of_str]. rewrite run_ret, run_bind, run_ret.
  rewrite run_call_bind. cbn [exec]. cbn zeta. unfold leaked.
  destruct (decide (_ >= capacity)); [done|].
  rewrite run_call_bind. cbn [exec]. by rewrite Hs.
Qed.

Lemma leaky_bucket_state_absent s :
  s !! key = None → leaky_bucket_state user_id s = None.
Proof. intros Hs. unfold leaky_bucket_state. fold key. by rewrite Hs. Qed.

Lemma leaky_bucket_state_written requests last m t s :
  leaky_bucket_state user_id
    (<[key := Entry (RHash (list_to_map (leaky_fields requests last) ∪ m)) t]> s)
  = Some (requests, last).
Proof.
  unfold leaky_bucket_state. fold key. rewrite lookup_insert_eq.
  by destruct (leaky_fields_lookup requests last m) as [-> ->].
Qed.

Lemma leaky_bucket_state_created requests last t s :
  leaky_bucket_state user_id
    (<[key := Entry (RHash (list_to_map (leaky_fields requests last))) t]> s)
  = Some (requests, last).
Proof.
  rewrite <-(right_id_L ∅ (∪) (list_to_map (leaky_fields requests last))).
  apply leaky_bucket_state_written.
Qed.
End leaky_bucket.

(** One leaky-bucket call, in terms of the stored pair. *)
Lemma leaky_bucket_call user_id capacity leak_rate now s :
  leaky_bucket_wf user_id s →
  let r := run (leaky_bucket_dependency user_id capacity leak_rate) now s in
  let level :=
    match leaky_bucket_state user_id s with
    | None => 0
    | Some (requests, last) =>
        Z.max 0 (requests - leaked leak_rate last now)
    end in
  (level >= capacity → r = (s, denied)) ∧
  (level < capacity →
     r.2 = allowed ∧
     leaky_bucket_state user_id r.1 = Some (level + 1, now)).
Proof.
  intros [Habs|[[requests last] Hst]].
  - rewrite (leaky_bucket_state_absent _ _ Habs). cbn zeta.
    rewrite (leaky_bucket_run_absent _ _ _ _ _ Habs).
    destruct (decide (0 >= capacity)); split; intros; try lia; try done.
    split; [done|]. cbn [fst]. apply leaky_bucket_state_created.
  - rewrite Hst. cbn zeta. unfold leaky_bucket_state in Hst.
    destruct (s !! _) as [[[n|h|z] t]|] eqn:Hs; try done.
    destruct (h !! "requests") as [[req|]|] eqn:Hreq; try done.
    destruct (h !! "last_check") as [l|] eqn:Hl; try done.
    injection Hst as -> <-.
    rewrite (leaky_bucket_run_present _ _ _ _ _ _ _ _ _ Hs Hreq Hl). cbn zeta.
    destruct (decide (_ >= capacity)); split; intros; try lia; try done.
    split; [done|]. cbn [fst]. apply leaky_bucket_state_written.
Qed.

Lemma leaky_bucket_call_wf user_id capacity leak_rate now s :
  leaky_bucket_wf user_id s →
  leaky_bucket_wf user_id
    (run (leaky_bucket_dependency user_id capacity leak_rate) now s).1.
Proof.
  intros Hwf.
  destruct (leaky_bucket_call user_id capacity leak_rate now s Hwf)
    as [Hden Hall].
  cbn zeta in Hden, Hall.
  destruct (decide (match leaky_bucket_state user_id s with
                    | None => 0
                    | Some (requests, last) =>
                        Z.max 0 (requests - leaked leak_rate last now)
                    end >= capacity)) as [Hge|Hlt].
  - by rewrite (Hden Hge).
  - right. destruct Hall as [_ ->]; [lia|done].
Qed.

(** ** The dependencies follow the transition systems *)

Lemma run_token_bucket user_id max_tokens refill_rate now s :
  token_bucket_wf user_id s →
  let r := run (token_bucket_dependency user_id max_tokens refill_rate) now s in
  let a := token_bucket_next max_tokens refill_rate
             (token_bucket_state user_id s) now in
  r.2 = a.2 ∧ token_bucket_state user_id r.1 = a.1 ∧
  (a.2 = denied → r.1 = s).
Proof.
  intros Hwf. cbn zeta.
  destruct (token_bucket_call user_id max_tokens refill_rate now s Hwf)
    as [Hden Hall].
  cbn zeta in Hden, Hall. unfold token_bucket_next.
  destruct (decide (_ ≤ 0)) as [Hle|Hgt].
  - by rewrite (Hden Hle).
  - destruct Hall as [-> ->]; [lia|]. by split_and!.
Qed.

Lemma serve_token_bucket user_id max_tokens refill_rate times s :
  token_bucket_wf user_id s →
  let r := serve (token_bucket_dependency user_id max_tokens refill_rate)
             times s in
  let a := trace (token_bucket_next max_tokens refill_rate)
             (token_bucket_state user_id s) times in
  r.2 = a.2 ∧ token_bucket_state user_id r.1 = a.1 ∧
  token_bucket_wf user_id r.1.
Proof.
  revert s. induction times as [|now times IH]; intros s Hwf; [done|].
  cbn [serve trace fst snd]. cbn zeta.
  destruct (run_token_bucket user_id max_tokens refill_rate now s Hwf)
    as (Hres & Hst & _). cbn zeta in Hres, Hst.
  pose proof (token_bucket_call_wf user_id max_tokens refill_rate now s Hwf)
    as Hwf'.
  destruct (IH _ Hwf') as (IHres & IHst & IHwf). cbn zeta in IHres, IHst.
  rewrite Hst in IHres, IHst. by rewrite Hres, IHres, IHst.
Qed.

Lemma run_leaky_bucket user_id capacity leak_rate now s :
  leaky_bucket_wf user_id s →
  let r := run (leaky_bucket_dependency user_id capacity leak_rate) now s in
  let a := leaky_bucket_next capacity leak_rate
             (leaky_bucket_state user_id s) now in
  r.2 = a.2 ∧ leaky_bucket_state user_id r.1 = a.1 ∧
  (a.2 = denied → r.1 = s).
Proof.
  intros Hwf. cbn zeta.
  destruct (leaky_bucket_call user_id capacity leak_rate now s Hwf)
    as [Hden Hall].
  cbn zeta in Hden, Hall. unfold leaky_bucket_next.
  destruct (decide (_ >= capacity)) as [Hge|Hlt].
  - by rewrite (Hden Hge).
  - destruct Hall as [-> ->]; [lia|]. by split_and!.
Qed.

Lemma serve_leaky_bucket user_id capacity leak_rate times s :
  leaky_bucket_wf user_id s →
  let r := serve (leaky_bucket_dependency user_id capacity leak_rate)
             times s in
  let a := trace (leaky_bucket_next capacity leak_rate)
             (leaky_bucket_state user_id s) times in
  r.2 = a.2 ∧ leaky_bucket_state user_id r.1 = a.1 ∧
  leaky_bucket_wf user_id r.1.
Proof.
  revert s. induction times as [|now times IH]; intros s Hwf; [done|].
  cbn [serve trace fst snd]. cbn zeta.
  destruct (run_leaky_bucket user_id capacity leak_rate now s Hwf)
    as (Hres & Hst & _). cbn zeta in Hres, Hst.
  pose proof (leaky_bucket_call_wf user_id capacity leak_rate now s Hwf)
    as Hwf'.
  destruct (IH _ Hwf') as (IHres & IHst & IHwf). cbn zeta in IHres, IHst.
  rewrite Hst in IHres, IHst. by rewrite Hres, IHres, IHst.
Qed.

(** ** Leaky bucket ceiling *)



(** ** Token bucket boundedness *)

Lemma tokens_to_add_nonneg refill_rate last now :
  0 ≤ refill_rate → (last ≤ now)%Qc → 0 ≤ tokens_to_add refill_rate last now.
Proof.
  intros Hrate Hlast. apply int_of_float_nonneg, Qc_mul_nonneg.
  - by apply (proj1 (Qc_sub_nonneg last now)).
  - by apply float_of_int_nonneg.
Qed.

Lemma token_bucket_next_ok max_tokens refill_rate bound st now :
  (now ≤ bound)%Qc →
  (∀ t l, st = Some (t, l) → 0 ≤ t ≤ max_tokens ∧ (l ≤ bound)%Qc) →
  ∀ t l, (token_bucket_next max_tokens refill_rate st now).1 = Some (t, l) →
         0 ≤ t ≤ max_tokens ∧ (l ≤ bound)%Qc.
Proof.
  intros Hnow Hst t l. unfold token_bucket_next.
  destruct (decide (_ ≤ 0)) as [Hle|Hgt]; cbn [fst]; [by apply Hst|].
  intros [= <- <-]. split; [|done].
  destruct st as [[t0 l0]|]; lia.
Qed.

Lemma trace_token_bucket_ok max_tokens refill_rate bound times st :
  Forall (λ t, (t ≤ bound)%Qc) times →
  (∀ t l, st = Some (t, l) → 0 ≤ t ≤ max_tokens ∧ (l ≤ bound)%Qc) →
  ∀ t l, (trace (token_bucket_next max_tokens refill_rate) st times).1
         = Some (t, l) →
         0 ≤ t ≤ max_tokens ∧ (l ≤ bound)%Qc.
Proof.
  intros Htimes. revert st.
  induction Htimes as [|now times Hnow _ IH]; intros st Hst; [done|].
  cbn [trace fst]. apply IH. by apply token_bucket_next_ok.
Qed.

Lemma sorted_before_last (times : list Qc) (now : Qc) :
  Sorted Qcle (times ++ [now]) → Forall (λ t, (t ≤ now)%Qc) times.
Proof.
  intros Hsorted. apply Sorted_StronglySorted in Hsorted; [|apply _].
  apply Forall_forall. intros t Ht.
  eapply StronglySorted_app_1_elem_of; [done..|]. by apply list_elem_of_singleton.
Qed.

(** C3.  In every sequence of token-bucket calls for one identity with
    [max_tokens > 0], [refill_rate > 0] and non-decreasing call times,
    starting with no state for the identity, the stored token count lies
    in [0, max_tokens] after every call, and a call never raises it above
    the previous count plus the refill term (so it does not increase when
    nothing is refilled). *)
Theorem token_bucket_bounded user_id max_tokens refill_rate times now s0 :
  0 < max_tokens → 0 < refill_rate → Sorted Qcle (times ++ [now]) →
  s0 !! ("token_bucket:" +:+ user_id) = None →
  let dep := token_bucket_dependency user_id max_tokens refill_rate in
  let s := (serve dep times s0).1 in
  let s' := (run dep now s).1 in
  ∀ tokens' last',
    token_bucket_state user_id s' = Some (tokens', last') →
    0 ≤ tokens' ≤ max_tokens ∧
    match token_bucket_state user_id s with
    | None => tokens' = max_tokens - 1
    | Some (tokens, last) =>
        let refill := tokens_to_add refill_rate last now in
        0 ≤ refill ∧
        (tokens' = tokens ∨ tokens' = Z.min max_tokens (tokens + refill) - 1) ∧
        tokens' ≤ tokens + refill
    end.
Proof.
  intros Hmax Hrate Hsorted Hs0 dep s s' tokens' last' Hst'.
  assert (token_bucket_wf user_id s0) as Hwf0 by by left.
  destruct (serve_token_bucket user_id max_tokens refill_rate times s0 Hwf0)
    as (_ & Hst & Hwf). cbn zeta in Hst. fold dep s in Hst, Hwf.
  rewrite (token_bucket_state_absent _ _ Hs0) in Hst.
  destruct (run_token_bucket user_id max_tokens refill_rate now s Hwf)
    as (_ & Hnext & _). cbn zeta in Hnext. fold dep s' in Hnext.
  rewrite Hst' in Hnext. symmetry in Hnext.
  pose proof (trace_token_bucket_ok max_tokens refill_rate now times None
                (sorted_before_last _ _ Hsorted)) as Hok.
  rewrite <-Hst in Hok.
  assert (∀ t l, token_bucket_state user_id s = Some (t, l) →
                 0 ≤ t ≤ max_tokens ∧ (l ≤ now)%Qc) as Hs by (apply Hok; done).
  clear Hok Hst. unfold token_bucket_next in Hnext.
  destruct (token_bucket_state user_id s) as [[tokens last]|].
  - destruct (Hs tokens last eq_refl) as [Hbound Hlast].
    assert (0 ≤ tokens_to_add refill_rate last now) as Hadd
      by (apply tokens_to_add_nonneg; [lia|done]).
    destruct (decide (_ ≤ 0)); cbn [fst] in Hnext.
    + injection Hnext as -> ->. cbn zeta. lia.
    + injection Hnext as <- <-. cbn zeta. lia.
  - destruct (decide (_ ≤ 0)); cbn [fst] in Hnext; [done|].
    injection Hnext as <- <-. lia.
Qed.

Lemma token_bucket_bounded_witness :
  let dep := token_bucket_dependency "u" 2 1 in
  let s := (serve dep (float_of_int <$> [0; 0; 0]) ∅).1 in
  token_bucket_state "u" (run dep (float_of_int 1) s).1
  = Some (0, float_of_int 1) ∧
  0 ≤ 0 ≤ 2.
Proof.
  intros dep s.
  assert (token_bucket_state "u" (run dep (float_of_int 1) s).1
          = Some (0, float_of_int 1)) as Hst by (vm_compute; reflexivity).
  split; [exact Hst|].
  refine (proj1 (token_bucket_bounded "u" 2 1 (float_of_int <$> [0; 0; 0])
                   (float_of_int 1) ∅ _ _ _ _ 0 (float_of_int 1) Hst)).
  - lia.
  - lia.
  - repeat constructor; vm_compute; discriminate.
  - reflexivity.
Defined.

(** ** Truncation of negative amounts *)






(** ** Clock regression *)




(** ** Refill truncation *)

(** C9, as the code has it.  Take a call that reads existing state at
    or after the stored time, and whose subtraction and product are exact
    in binary64, so that the product the call computes is the real
    product.  The call credits exactly
    [int((now - last_refill_time) * refill_rate)] tokens before
    consuming.  Only an allowed call stores [now] as [last_refill_time];
    a denied call writes nothing.  The credit is zero exactly when the
    product is below one, so allowed calls that close together only
    consume.  An exhausted bucket is denied exactly while the time since
    its last allowed call, times the rate, is below one, and allowed
    once that product reaches one. *)
Theorem token_bucket_refill_truncated
    user_id max_tokens refill_rate now s tokens last :
  0 < max_tokens → 0 < refill_rate →
  token_bucket_state user_id s = Some (tokens, last) →
  (last ≤ now)%Qc →
  exact_elapsed (float_of_int refill_rate) last now →
  let added := int_of_float ((now - last) * float_of_int refill_rate)%Qc in
  let r := run (token_bucket_dependency user_id max_tokens refill_rate) now s in
  (0 < Z.min max_tokens (tokens + added) →
     r.2 = allowed ∧
     token_bucket_state user_id r.1
     = Some (Z.min max_tokens (tokens + added) - 1, now)) ∧
  (Z.min max_tokens (tokens + added) ≤ 0 → r = (s, denied)) ∧
  (added = 0 ↔ ((now - last) * float_of_int refill_rate < 1)%Qc) ∧
  (tokens = 0 →
     (r.2 = denied ↔ ((now - last) * float_of_int refill_rate < 1)%Qc)).
Proof.
  intros Hmax Hrate Hst Hlast _. cbn zeta.
  assert (token_bucket_wf user_id s) as Hwf by (right; by rewrite Hst).
  destruct (token_bucket_call user_id max_tokens refill_rate now s Hwf)
    as [Hden Hall].
  cbn zeta in Hden, Hall. rewrite Hst in Hden, Hall.
  unfold tokens_to_add in Hden, Hall.
  assert (0 ≤ (now - last) * float_of_int refill_rate)%Qc as Hprod.
  { apply Qc_mul_nonneg; [by apply (proj1 (Qc_sub_nonneg last now))|].
    apply float_of_int_nonneg. lia. }
  split_and!; [done|done| |].
  - split.
    + intros Hzero. apply Qclt_nge. intros Hge.
      apply int_of_float_ge_1 in Hge. lia.
    + intros Hlt. by apply int_of_float_small.
  - intros ->. split.
    + intros Hd. apply Qclt_nge. intros Hge.
      apply int_of_float_ge_1 in Hge.
      destruct Hall as [Hal _]; [lia|]. by rewrite Hal in Hd.
    + intros Hlt. rewrite Hden; [done|].
      rewrite (int_of_float_small _ Hprod Hlt). lia.
Qed.

(** A concrete run: capacity one, one token per second, calls at
    [0], [3/4] and [3/2], all of them binary64 values.  Every gap is
    below one second, the first call empties the bucket, and the third
    call is allowed. *)
Lemma token_bucket_polling_counterexample :
  let tb := token_bucket_dependency "u" 1 1 in
  let t1 := Q2Qc 0 in
  let t2 := Q2Qc (3 # 4) in
  let t3 := Q2Qc (3 # 2) in
  ((t2 - t1) * float_of_int 1 < 1)%Qc ∧
  ((t3 - t2) * float_of_int 1 < 1)%Qc ∧
  token_bucket_state "u" (run tb t1 ∅).1 = Some (0, t1) ∧
  (serve tb [t1; t2; t3] ∅).2 = [allowed; denied; allowed].
Proof. vm_compute. by split_and!. Qed.

Lemma token_bucket_refill_truncated_witness :
  let tb := token_bucket_dependency "u" 1 1 in
  let s := (run tb (Q2Qc 0) ∅).1 in
  (run tb (Q2Qc (3 # 4)) s).2 = denied ∧
  (run tb (Q2Qc (3 # 2)) s).2 ≠ denied.
Proof.
  intros tb s.
  assert (∀ m e q, Z.abs m < 2 ^ 53 → -1074 ≤ e ≤ 971 →
                   q = Q2Qc (inject_Z m * Qpower 2 e) → binary64 q)
    as Hdyadic by (intros m e q ???; by exists m, e).
  split.
  - refine (proj2 (proj2 (proj2 (proj2
      (token_bucket_refill_truncated "u" 1 1 (Q2Qc (3 # 4)) s 0 (Q2Qc 0)
         _ _ _ _ _))) eq_refl) _).
    + lia.
    + lia.
    + vm_compute. reflexivity.
    + vm_compute. discriminate.
    + unfold exact_elapsed. split_and!.
      * apply (Hdyadic 1 0); [done|lia|by apply Qc_is_canon].
      * apply (Hdyadic 0 0); [done|lia|by apply Qc_is_canon].
      * apply (Hdyadic 3 (-2)); [done|lia|by apply Qc_is_canon].
      * apply (Hdyadic 3 (-2)); [done|lia|by apply Qc_is_canon].
      * apply (Hdyadic 3 (-2)); [done|lia|by apply Qc_is_canon].
    + vm_compute. reflexivity.
  - intros Hd.
    refine (_ (proj1 (proj2 (proj2 (proj2
      (token_bucket_refill_truncated "u" 1 1 (Q2Qc (3 # 2)) s 0 (Q2Qc 0)
         _ _ _ _ _))) eq_refl) Hd)).
    + vm_compute. discriminate.
    + lia.
    + lia.
    + vm_compute. reflexivity.
    + vm_compute. discriminate.
    + unfold exact_elapsed. split_and!.
      * apply (Hdyadic 1 0); [done|lia|by apply Qc_is_canon].
      * apply (Hdyadic 0 0); [done|lia|by apply Qc_is_canon].
      * apply (Hdyadic 3 (-1)); [done|lia|by apply Qc_is_canon].
      * apply (Hdyadic 3 (-1)); [done|lia|by apply Qc_is_canon].
      * apply (Hdyadic 3 (-1)); [done|lia|by apply Qc_is_canon].
Defined.

(** ** Keys that embed a window index *)

Lemma fixed_window_key_inj user_id : Inj (=) (=) (fixed_window_key user_id).
Proof.
  intros a b Hab. unfold fixed_window_key in Hab.
  by repeat (apply String.app_inj in Hab); apply (inj pretty).
Qed.

Lemma sliding_window_counter_key_inj user_id :
  Inj (=) (=) (sliding_window_counter_key user_id).
Proof.
  intros a b Hab. unfold sliding_window_counter_key in Hab.
  by repeat (apply String.app_inj in Hab); apply (inj pretty).
Qed.

(** ** Counters: INCR followed by EXPIRE *)

Lemma exec_incr_expire key seconds now s n :
  0 < seconds →
  s !! key = None ∧ n = 0 ∨ (∃ t, s !! key = Some (Entry (RString n) t)) →
  run (call (Incr key);; call (Expire key seconds);; mret tt) now s =
  (<[key := Entry (RString (n + 1)) (Some seconds)]> s, allowed).
Proof.
  intros Hsec Hs. rewrite run_call_bind. cbn [exec].
  destruct Hs as [[-> ->]|[t ->]]; rewrite run_call_bind; cbn [exec];
    rewrite lookup_insert_eq, decide_False by lia;
    by rewrite run_ret, insert_insert_eq.
Qed.

(** ** Fixed window counter: one call in closed form *)

Section fixed_window.
Variables (user_id : string) (max_requests window_seconds : Z).
Hypothesis window_pos : 0 < window_seconds.
Let dep := fixed_window_counter_dependency user_id max_requests window_seconds.
Let key now := fixed_window_key user_id (floor_div_float now window_seconds).

Lemma fixed_window_run_fresh now s :
  s !! key now = None →
  run dep now s =
  (<[key now := Entry (RString 1) (Some window_seconds)]> s, allowed).
Proof.
  intros Hs. unfold dep, fixed_window_counter_dependency.
  rewrite run_call_bind. cbn [exec]. rewrite decide_False by lia.
  rewrite run_call_bind. cbn [exec]. fold (key now). rewrite Hs.
  by apply (exec_incr_expire _ _ _ _ 0); [|left].
Qed.

Lemma fixed_window_run_counting now s n t :
  s !! key now = Some (Entry (RString n) t) →
  run dep now s =
  if decide (n >= max_requests) then (s, denied)
  else (<[key now := Entry (RString (n + 1)) (Some window_seconds)]> s,
        allowed).
Proof.
  intros Hs. unfold dep, fixed_window_counter_dependency.
  rewrite run_call_bind. cbn [exec]. rewrite decide_False by lia.
  rewrite run_call_bind. cbn [exec]. fold (key now). rewrite Hs.
  destruct (decide (n >= max_requests)) as [Hge|Hlt].
  - by rewrite bool_decide_eq_true_2.
  - rewrite bool_decide_eq_false_2 by done.
    apply exec_incr_expire; [done|]. right. by exists t.
Qed.

(** Calls that fall in one window, starting from a count of [n]. *)
Lemma serve_fixed_window_fill wid times s n :
  Forall (λ now, floor_div_float now window_seconds = wid) times →
  s !! fixed_window_key user_id wid = None ∧ n = 0 ∨
    (∃ t, s !! fixed_window_key user_id wid = Some (Entry (RString n) t)) →
  n + Z.of_nat (length times) ≤ max_requests →
  let r := serve dep times s in
  r.2 = replicate (length times) allowed ∧
  (times ≠ [] →
   r.1 = <[fixed_window_key user_id wid :=
             Entry (RString (n + Z.of_nat (length times)))
                   (Some window_seconds)]> s).
Proof.
  intros Htimes. revert s n.
  induction Htimes as [|now times Hnow _ IH]; intros s n Hs Hn; [done|].
  cbn [serve length replicate fst snd]. cbn zeta.
  assert (run dep now s =
          (<[fixed_window_key user_id wid :=
               Entry (RString (n + 1)) (Some window_seconds)]> s, allowed))
    as ->.
  { destruct Hs as [[Hs ->]|[t Hs]].
    - rewrite <-Hnow in Hs |- *. by apply fixed_window_run_fresh.
    - rewrite <-Hnow in Hs |- *.
      rewrite (fixed_window_run_counting _ _ _ _ Hs).
      rewrite decide_False; [done|]. cbn [length] in Hn. lia. }
  cbn [fst snd].
  destruct (IH (<[fixed_window_key user_id wid :=
                    Entry (RString (n + 1)) (Some window_seconds)]> s)
               (n + 1)) as [IHres IHst].
  { right. eexists. apply lookup_insert_eq. }
  { cbn [length] in Hn. lia. }
  cbn zeta in IHres, IHst. rewrite IHres. split; [done|]. intros _.
  destruct times as [|now' times']; [cbn; by rewrite Z.add_1_r|].
  rewrite IHst by done. rewrite insert_insert_eq.
  do 3 f_equal. cbn [length]. lia.
Qed.
End fixed_window.

(** ** Fixed window boundary burst *)

(** C6.  With [max_requests = 3] and [window_seconds = 60], from empty
    state, three calls just before a window boundary and three just after
    it are all allowed.  In general [max_requests] calls in one window
    followed by [max_requests] calls in the next are all allowed, because
    the next window has its own key, absent until first used; each window
    then holds [max_requests] and denies further calls. *)
Theorem fixed_window_boundary_burst user_id :
  (∀ s,
     (∀ wid, s !! fixed_window_key user_id wid = None) →
     (serve (fixed_window_counter_dependency user_id 3 60)
            [Q2Qc (599 # 10); Q2Qc (599 # 10); Q2Qc (599 # 10);
             Q2Qc 60; Q2Qc 60; Q2Qc 60] s).2
     = replicate 6 allowed) ∧
  (∀ max_requests window_seconds wid before after s,
     0 < max_requests → 0 < window_seconds →
     s !! fixed_window_key user_id (wid - 1) = None →
     s !! fixed_window_key user_id wid = None →
     length before = Z.to_nat max_requests →
     length after = Z.to_nat max_requests →
     Forall (λ now, floor_div_float now window_seconds = wid - 1) before →
     Forall (λ now, floor_div_float now window_seconds = wid) after →
     let dep :=
       fixed_window_counter_dependency user_id max_requests window_seconds in
     let r := serve dep (before ++ after) s in
     r.2 = replicate (2 * Z.to_nat max_requests) allowed ∧
     counter_at (fixed_window_key user_id (wid - 1)) r.1
     = Some (max_requests, Some window_seconds) ∧
     counter_at (fixed_window_key user_id wid) r.1
     = Some (max_requests, Some window_seconds) ∧
     (∀ now, floor_div_float now window_seconds = wid →
             run dep now r.1 = (r.1, denied))).
Proof.
  assert (∀ max_requests window_seconds wid before after s,
     0 < max_requests → 0 < window_seconds →
     s !! fixed_window_key user_id (wid - 1) = None →
     s !! fixed_window_key user_id wid = None →
     length before = Z.to_nat max_requests →
     length after = Z.to_nat max_requests →
     Forall (λ now, floor_div_float now window_seconds = wid - 1) before →
     Forall (λ now, floor_div_float now window_seconds = wid) after →
     let dep :=
       fixed_window_counter_dependency user_id max_requests window_seconds in
     let r := serve dep (before ++ after) s in
     r.2 = replicate (2 * Z.to_nat max_requests) allowed ∧
     counter_at (fixed_window_key user_id (wid - 1)) r.1
     = Some (max_requests, Some window_seconds) ∧
     counter_at (fixed_window_key user_id wid) r.1
     = Some (max_requests, Some window_seconds) ∧
     (∀ now, floor_div_float now window_seconds = wid →
             run dep now r.1 = (r.1, denied))) as Hgeneral.
  { intros max_requests window_seconds wid before after s Hmax Hwin
           Hprev Hcur Hlb Hla Hbefore Hafter dep r.
    assert (wid - 1 ≠ wid) as Hne by lia.
    assert (fixed_window_key user_id (wid - 1) ≠ fixed_window_key user_id wid)
      as Hkey by (intros Heq; by apply (inj _) in Heq).
    assert (before ≠ [] ∧ after ≠ []) as [Hb Ha].
    { split; intros ->; cbn in *; lia. }
    subst r. rewrite serve_app. cbn [fst snd].
    destruct (serve_fixed_window_fill user_id max_requests window_seconds
                Hwin (wid - 1) before s 0 Hbefore) as [Hres1 Hst1];
      [by left|lia|].
    fold dep in Hres1, Hst1. cbn zeta in Hres1, Hst1.
    specialize (Hst1 Hb). rewrite Hres1, Hst1.
    destruct (serve_fixed_window_fill user_id max_requests window_seconds
                Hwin wid after
                (<[fixed_window_key user_id (wid - 1) :=
                     Entry (RString (0 + Z.of_nat (length before)))
                           (Some window_seconds)]> s) 0 Hafter)
      as [Hres2 Hst2]; [left; by rewrite lookup_insert_ne|lia|].
    fold dep in Hres2, Hst2. cbn zeta in Hres2, Hst2.
    specialize (Hst2 Ha). rewrite Hres2, Hst2.
    replace (0 + Z.of_nat (length before)) with max_requests by lia.
    replace (0 + Z.of_nat (length after)) with max_requests by lia.
    split_and!.
    - rewrite Hlb, Hla, <-replicate_add. f_equal. lia.
    - unfold counter_at.
      by rewrite lookup_insert_ne, lookup_insert_eq by done.
    - unfold counter_at. by rewrite lookup_insert_eq.
    - intros now Hnow. unfold dep.
      rewrite (fixed_window_run_counting user_id max_requests window_seconds
                 Hwin now _ max_requests (Some window_seconds)).
      + rewrite decide_True; [done|lia].
      + rewrite Hnow. apply lookup_insert_eq. }
  split; [|exact Hgeneral].
  intros s Hs.
  refine (proj1 (Hgeneral 3 60 1
                   [Q2Qc (599 # 10); Q2Qc (599 # 10); Q2Qc (599 # 10)]
                   [Q2Qc 60; Q2Qc 60; Q2Qc 60] s _ _ _ _ _ _ _ _));
    try done; try lia; repeat constructor.
Qed.

Lemma fixed_window_boundary_burst_witness :
  (serve (fixed_window_counter_dependency "u" 3 60)
         [Q2Qc (599 # 10); Q2Qc (599 # 10); Q2Qc (599 # 10);
          Q2Qc 60; Q2Qc 60; Q2Qc 60] ∅).2
  = replicate 6 allowed.
Proof.
  apply (proj1 (fixed_window_boundary_burst "u")).
  intros wid. reflexivity.
Defined.

(** ** Sliding window counter: one call in closed form *)

Lemma range_elem start stop step ts :
  ts ∈ py_range start stop step →
  ∃ i, 0 ≤ i < range_len start stop step ∧ ts = start + i * step.
Proof.
  unfold py_range. intros (i & -> & Hi)%list_elem_of_fmap.
  apply elem_of_seqZ in Hi. exists i. split; [lia|done].
Qed.

(** With [sub_window_seconds] dividing [window_seconds], the timestamps
    visited are [now - window_seconds], ..., [now - sub_window_seconds];
    their sub-window ids end one short of the current id. *)
Lemma range_sub_windows now sub k ts :
  0 < sub → 0 ≤ k →
  ts ∈ py_range (now - k * sub) now sub →
  now `div` sub - k ≤ ts `div` sub < now `div` sub.
Proof.
  intros Hsub Hk (i & Hi & ->)%range_elem.
  unfold range_len in Hi. rewrite decide_True in Hi by done.
  replace (now - (now - k * sub) + sub - 1) with (k * sub + (sub - 1))
    in Hi by lia.
  rewrite Z.div_add_l, (Z.div_small (sub - 1) sub) in Hi by lia.
  replace (now - k * sub + i * sub) with (now + (i - k) * sub) by lia.
  rewrite Z.div_add by lia. lia.
Qed.

Lemma range_sub_windows_length now sub k :
  0 < sub → 0 ≤ k → range_len (now - k * sub) now sub = k.
Proof.
  intros Hsub Hk. unfold range_len. rewrite decide_True by done.
  replace (now - (now - k * sub) + sub - 1) with (k * sub + (sub - 1)) by lia.
  rewrite Z.div_add_l, (Z.div_small (sub - 1) sub) by lia. lia.
Qed.

Lemma run_get_counts (keyf : Z → string) (l : list Z) now s :
  Forall (λ ts, s !! keyf ts = None ∨
                ∃ n t, s !! keyf ts = Some (Entry (RString n) t)) l →
  run (mapM (λ ts, r ← call (Get (keyf ts)); mret (default 0 r)) l) now s
  = (s, Ok ((λ ts, counter_value (keyf ts) s) <$> l)).
Proof.
  induction 1 as [|ts l Hts _ IH]; [done|].
  cbn [mapM]. rewrite run_bind, run_call_bind, fmap_cons. cbn [exec].
  assert (∀ r, s !! keyf ts = r →
               counter_value (keyf ts) s
               = match r with
                 | Some (Entry (RString n) _) => n
                 | _ => 0
                 end) as Hvalue.
  { intros r <-. unfold counter_value, counter_at.
    by destruct (s !! keyf ts) as [[[]]|]. }
  destruct Hts as [Hts|(n & t & Hts)]; rewrite (Hvalue _ Hts), Hts;
    by rewrite run_ret, run_bind, IH.
Qed.

Section sliding_window_counter.
Variables (user_id : string).
Variables (max_requests window_seconds sub_window_seconds : Z).
Hypothesis sub_window_nonzero : sub_window_seconds ≠ 0.
Let dep :=
  sliding_window_counter_dependency
    user_id max_requests window_seconds sub_window_seconds.
Let key (ts : Z) :=
  sliding_window_counter_key user_id (ts `div` sub_window_seconds).

Lemma sliding_window_counter_run t s :
  let now := int_of_float t in
  let visited := py_range (now - window_seconds) now sub_window_seconds in
  Forall (λ ts, s !! key ts = None ∨
                ∃ n tl, s !! key ts = Some (Entry (RString n) tl)) visited →
  run dep t s =
  if decide (py_sum ((λ ts, counter_value (key ts) s) <$> visited)
             >= max_requests)
  then (s, denied)
  else run (call (Incr (key now));;
            call (Expire (key now) window_seconds);; mret tt) t s.
Proof.
  intros now visited Hvisited. unfold dep, sliding_window_counter_dependency.
  rewrite run_call_bind. cbn [exec]. rewrite decide_False by done.
  rewrite run_bind. fold now visited.
  pose proof (run_get_counts key visited t s Hvisited) as Hcounts.
  unfold key in Hcounts |- *. rewrite Hcounts.
  by destruct (decide (_ >= max_requests)).
Qed.
End sliding_window_counter.

Lemma py_sum_zeros (l : list Z) : Forall (λ n, n = 0) l → py_sum l = 0.
Proof.
  unfold py_sum. induction 1 as [|n l -> _ IH]; [done|]. cbn. by rewrite IH.
Qed.

(** Calls at one instant, with no counter stored for any other
    sub-window: each is allowed whatever the current counter holds. *)
Lemma serve_sliding_window_counter_burst
    user_id max_requests window_seconds sub_window_seconds t n s c :
  let cur := int_of_float t `div` sub_window_seconds in
  0 < max_requests → 0 < sub_window_seconds → 0 < window_seconds →
  (sub_window_seconds | window_seconds) →
  (∀ id, id ≠ cur → s !! sliding_window_counter_key user_id id = None) →
  s !! sliding_window_counter_key user_id cur = None ∧ c = 0 ∨
    (∃ tl, s !! sliding_window_counter_key user_id cur
           = Some (Entry (RString c) tl)) →
  let r := serve (sliding_window_counter_dependency
                    user_id max_requests window_seconds sub_window_seconds)
                 (replicate n t) s in
  r.2 = replicate n allowed ∧
  (n ≠ 0%nat →
   r.1 = <[sliding_window_counter_key user_id cur :=
             Entry (RString (c + Z.of_nat n)) (Some window_seconds)]> s).
Proof.
  intros cur Hmax Hsub Hwin [k Hk]. revert s c.
  assert (0 ≤ k) as Hk0 by nia.
  induction n as [|n IH]; intros s c Hothers Hcur; [done|].
  cbn [replicate serve fst snd]. cbn zeta.
  assert (run (sliding_window_counter_dependency
                 user_id max_requests window_seconds sub_window_seconds) t s
          = (<[sliding_window_counter_key user_id cur :=
                 Entry (RString (c + 1)) (Some window_seconds)]> s, allowed))
    as ->.
  { assert (∀ ts,
      ts ∈ py_range (int_of_float t - window_seconds) (int_of_float t)
             sub_window_seconds →
      s !! sliding_window_counter_key user_id (ts `div` sub_window_seconds)
      = None) as Hvisited.
    { intros ts Hts. apply Hothers. rewrite Hk in Hts.
      apply range_sub_windows in Hts; [|done..]. unfold cur. lia. }
    rewrite sliding_window_counter_run by
      (try lia; apply Forall_forall; intros ts Hts; left; by apply Hvisited).
    rewrite py_sum_zeros, decide_False by
      (try lia; apply Forall_fmap, Forall_forall; intros ts Hts;
       unfold counter_value, counter_at; cbn; by rewrite Hvisited).
    by apply exec_incr_expire. }
  cbn [fst snd].
  destruct (IH (<[sliding_window_counter_key user_id cur :=
                    Entry (RString (c + 1)) (Some window_seconds)]> s)
               (c + 1)) as [IHres IHst].
  { intros id Hid. rewrite lookup_insert_ne; [by apply Hothers|].
    intros Heq. by apply (inj _) in Heq. }
  { right. eexists. apply lookup_insert_eq. }
  cbn zeta in IHres, IHst. rewrite IHres. split; [done|]. intros _.
  destruct n as [|n]; [cbn; by rewrite Z.add_1_r|].
  rewrite IHst by done. rewrite insert_insert_eq. do 3 f_equal. lia.
Qed.

(** ** The current sub-window is not counted *)

(** C1, evaluated on the code.  The decision sums the counters of the
    sub-window ids [now // s - window_seconds / s] up to [now // s - 1]:
    the current id [now // s], the one that is incremented, is never
    read.  So from a state with no counters for an identity, any number
    of calls at one instant are allowed, the current counter rising past
    [max_requests]. *)
Theorem sliding_window_counter_skips_current
    user_id max_requests window_seconds sub_window_seconds t n s :
  0 < max_requests → 0 < sub_window_seconds → 0 < window_seconds →
  (sub_window_seconds | window_seconds) →
  (∀ id, s !! sliding_window_counter_key user_id id = None) →
  let dep := sliding_window_counter_dependency
               user_id max_requests window_seconds sub_window_seconds in
  let now := int_of_float t in
  let current := sliding_window_counter_key
                   user_id (now `div` sub_window_seconds) in
  let r := serve dep (replicate n t) s in
  (∀ ts, ts ∈ py_range (now - window_seconds) now sub_window_seconds →
         ts `div` sub_window_seconds < now `div` sub_window_seconds) ∧
  r.2 = replicate n allowed ∧
  (n ≠ 0%nat → counter_at current r.1 = Some (Z.of_nat n, Some window_seconds)).
Proof.
  intros Hmax Hsub Hwin Hdiv Hs dep now current r. split_and!.
  - destruct Hdiv as [k Hk]. intros ts Hts. rewrite Hk in Hts.
    apply range_sub_windows in Hts; [lia|done|nia].
  - by apply (serve_sliding_window_counter_burst _ _ _ _ _ _ _ 0);
      [..|left].
  - intros Hn.
    destruct (serve_sliding_window_counter_burst
                user_id max_requests window_seconds sub_window_seconds
                t n s 0) as [_ Hst]; [done..|by left|].
    cbn zeta in Hst. fold dep r in Hst. rewrite (Hst Hn).
    unfold counter_at, current, now. by rewrite lookup_insert_eq.
Qed.

(** A concrete run: [max_requests = 1], a 60 second window in 10
    second sub-windows, two calls at [t = 5]. *)
Lemma sliding_window_counter_skips_current_witness :
  let dep := sliding_window_counter_dependency "u" 1 60 10 in
  let r := serve dep (replicate 2 (float_of_int 5)) ∅ in
  r.2 = [allowed; allowed] ∧
  counter_at (sliding_window_counter_key "u" 0) r.1 = Some (2, Some 60).
Proof.
  intros dep r.
  destruct (sliding_window_counter_skips_current
              "u" 1 60 10 (float_of_int 5) 2 ∅) as (_ & Hres & Hst).
  - lia.
  - lia.
  - lia.
  - exists 6. reflexivity.
  - intros id. reflexivity.
  - split; [exact Hres|]. apply Hst. lia.
Defined.

(** ** Denials before the first write *)

Lemma exec_reads {X : Type} (c : cmd X) now s :
  reads c = true → (exec c now s).1 = s.
Proof.
  destruct c; try done; intros _; cbn;
    by destruct (s !! key) as [[[] ?]|].
Qed.

Lemma exec_not_denied {X : Type} (c : cmd X) now s e :
  (exec c now s).2 = Exn e → e = ResponseError.
Proof.
  destruct c; cbn; repeat case_match; cbn; congruence.
Qed.

Lemma never_denies_run {A : Type} (p : prog A) now s e :
  never_denies p → (run p now s).2 = Exn e → e ≠ HTTPException 429.
Proof.
  revert s. induction p as [a|e'|X c k IH]; intros s Hp; cbn.
  - done.
  - by intros [= <-].
  - destruct (exec c now s) as [s' [x|e']] eqn:Hc.
    + by apply IH.
    + cbn. intros [= <-].
      by rewrite (exec_not_denied c now s e') by by rewrite Hc.
Qed.

Lemma denies_before_writing_run {A : Type} (p : prog A) now s :
  denies_before_writing p →
  (run p now s).2 = Exn (HTTPException 429) → (run p now s).1 = s.
Proof.
  revert s. induction p as [a|e|X c k IH]; intros s Hp; cbn; try done.
  cbn in Hp. destruct (reads c) eqn:Hreads.
  - pose proof (exec_reads c now s Hreads) as Hs.
    destruct (exec c now s) as [s' [x|e]]; cbn in Hs; subst s'; [|done].
    by apply IH.
  - destruct (exec c now s) as [s' [x|e]] eqn:Hc.
    + intros Hd. by destruct (never_denies_run (k x) now s' _ (Hp x) Hd).
    + cbn. intros [= ->].
      by pose proof (exec_not_denied c now s _ ltac:(by rewrite Hc)).
Qed.

Lemma read_only_bind {A B : Type} (p : prog A) (f : A → prog B) :
  read_only p → (∀ a, read_only (f a)) → read_only (p ≫= f).
Proof.
  intros Hp Hf. induction p as [a|e|X c k IH]; cbn; [apply Hf|done|].
  destruct Hp as [Hc Hk]. split; [done|]. intros x. by apply IH.
Qed.

Lemma denies_before_writing_bind {A B : Type} (p : prog A) (f : A → prog B) :
  read_only p → (∀ a, denies_before_writing (f a)) →
  denies_before_writing (p ≫= f).
Proof.
  intros Hp Hf. induction p as [a|e|X c k IH]; cbn; [apply Hf|done|].
  destruct Hp as [-> Hk]. intros x. by apply IH.
Qed.

Lemma no_zadd_bind {A B : Type} (p : prog A) (f : A → prog B) :
  no_zadd p → (∀ a, no_zadd (f a)) → no_zadd (p ≫= f).
Proof.
  intros Hp Hf. induction p as [a|e|X c k IH]; cbn; [apply Hf|done|].
  destruct Hp as [Hc Hk]. split; [done|]. intros x. by apply IH.
Qed.

Lemma read_only_no_zadd {A : Type} (p : prog A) : read_only p → no_zadd p.
Proof.
  induction p as [a|e|X c k IH]; cbn; try done.
  intros [Hc Hk]. split; [by destruct c|]. intros x. by apply IH.
Qed.

Lemma read_only_get_counts (keyf : Z → string) (l : list Z) :
  read_only (mapM (λ ts, r ← call (Get (keyf ts)); mret (default 0 r)) l).
Proof.
  induction l as [|ts l IH]; [done|]. cbn [mapM].
  apply read_only_bind; [done|]. intros a.
  apply read_only_bind; [done|]. by intros k.
Qed.

(** Walks a program whose branches are all visible. *)
Ltac walk_prog :=
  repeat first
    [ progress cbv beta iota zeta delta
        [denies_before_writing never_denies no_zadd read_only reads is_zadd
         bind mbind prog_bind call mret prog_ret raise
         int_of_str float_of_reply]
    | case_decide
    | case_match
    | split
    | intro
    | done ].

Lemma token_bucket_denies_before_writing user_id max_tokens refill_rate :
  denies_before_writing
    (token_bucket_dependency user_id max_tokens refill_rate).
Proof. unfold token_bucket_dependency. walk_prog. Qed.

Lemma leaky_bucket_denies_before_writing user_id capacity leak_rate :
  denies_before_writing (leaky_bucket_dependency user_id capacity leak_rate).
Proof. unfold leaky_bucket_dependency. walk_prog. Qed.

Lemma fixed_window_denies_before_writing
    user_id max_requests window_seconds :
  denies_before_writing
    (fixed_window_counter_dependency user_id max_requests window_seconds).
Proof. unfold fixed_window_counter_dependency. walk_prog. Qed.

Lemma sliding_window_counter_denies_before_writing
    user_id max_requests window_seconds sub_window_seconds :
  denies_before_writing
    (sliding_window_counter_dependency
       user_id max_requests window_seconds sub_window_seconds).
Proof.
  unfold sliding_window_counter_dependency.
  apply denies_before_writing_bind; [done|].
  intros t. cbv beta zeta. case_decide; [done|].
  apply denies_before_writing_bind; [apply read_only_get_counts|].
  intros counts. walk_prog.
Qed.

Lemma token_bucket_no_zadd user_id max_tokens refill_rate :
  no_zadd (token_bucket_dependency user_id max_tokens refill_rate).
Proof. unfold token_bucket_dependency. walk_prog. Qed.

Lemma leaky_bucket_no_zadd user_id capacity leak_rate :
  no_zadd (leaky_bucket_dependency user_id capacity leak_rate).
Proof. unfold leaky_bucket_dependency. walk_prog. Qed.

Lemma fixed_window_no_zadd user_id max_requests window_seconds :
  no_zadd (fixed_window_counter_dependency user_id max_requests window_seconds).
Proof. unfold fixed_window_counter_dependency. walk_prog. Qed.

Lemma sliding_window_counter_no_zadd
    user_id max_requests window_seconds sub_window_seconds :
  no_zadd (sliding_window_counter_dependency
             user_id max_requests window_seconds sub_window_seconds).
Proof.
  unfold sliding_window_counter_dependency.
  apply no_zadd_bind; [done|].
  intros t. cbv beta zeta. case_decide; [done|].
  apply no_zadd_bind; [apply read_only_no_zadd, read_only_get_counts|].
  intros counts. walk_prog.
Qed.

(** ** Sliding window log: one call in closed form *)

Lemma zset_remove_range_lookup lo hi (z : gmap Qc Qc) member score :
  zset_remove_range lo hi z !! member = Some score ↔
  z !! member = Some score ∧ ¬ in_score_range lo hi score.
Proof. unfold zset_remove_range. by rewrite map_lookup_filter_Some. Qed.

Lemma zset_remove_range_subseteq lo hi (z : gmap Qc Qc) :
  zset_remove_range lo hi z ⊆ z.
Proof. apply map_filter_subseteq. Qed.

Lemma zset_remove_range_size lo hi (z : gmap Qc Qc) :
  (size (zset_remove_range lo hi z) ≤ size z)%nat.
Proof. apply map_subseteq_size, zset_remove_range_subseteq. Qed.

Lemma zset_remove_range_empty lo hi : zset_remove_range lo hi ∅ = ∅.
Proof. apply map_filter_empty. Qed.

Section sliding_window_log.
Variables (user_id : string) (max_requests window_seconds : Z).
Let key := "sliding_window_log:" +:+ user_id.
Let dep := sliding_window_log_dependency user_id max_requests window_seconds.
Let kept now z :=
  zset_remove_range 0%Qc (now - float_of_int window_seconds)%Qc z.

Lemma sliding_window_log_run_absent now s :
  s !! key = None →
  run dep now s =
  if decide (0 >= max_requests) then (s, denied)
  else (<[key := Entry (RZSet {[now := now]}) None]> s, allowed).
Proof.
  intros Hs. unfold dep, sliding_window_log_dependency.
  rewrite run_call_bind. cbn [exec].
  rewrite run_call_bind. cbn [exec]. fold key. rewrite Hs.
  rewrite run_call_bind. cbn [exec]. rewrite Hs.
  destruct (decide (0 >= max_requests)); [done|].
  rewrite run_call_bind. cbn [exec]. by rewrite Hs.
Qed.

Lemma sliding_window_log_run_present now s z t :
  s !! key = Some (Entry (RZSet z) t) →
  run dep now s =
  if decide (kept now z = ∅) then
    if decide (0 >= max_requests) then (delete key s, denied)
    else (<[key := Entry (RZSet {[now := now]}) None]> s, allowed)
  else
    if decide (Z.of_nat (size (kept now z)) >= max_requests)
    then (<[key := Entry (RZSet (kept now z)) t]> s, denied)
    else (<[key := Entry (RZSet (<[now := now]> (kept now z))) t]> s, allowed).
Proof.
  intros Hs. unfold dep, sliding_window_log_dependency.
  rewrite run_call_bind. cbn [exec].
  rewrite run_call_bind. cbn [exec]. fold key. rewrite Hs.
  fold (kept now z). destruct (decide (kept now z = ∅)) as [Hempty|Hkept].
  - rewrite run_call_bind. cbn [exec]. rewrite lookup_delete_eq.
    destruct (decide (0 >= max_requests)); [done|].
    rewrite run_call_bind. cbn [exec].
    by rewrite lookup_delete_eq, insert_delete_eq.
  - rewrite run_call_bind. cbn [exec]. rewrite lookup_insert_eq.
    destruct (decide (_ >= max_requests)); [done|].
    rewrite run_call_bind. cbn [exec].
    by rewrite lookup_insert_eq, insert_insert_eq.
Qed.

Lemma sliding_window_log_run_wrong_type now s v t :
  s !! key = Some (Entry v t) → (∀ z, v ≠ RZSet z) →
  run dep now s = (s, Exn ResponseError).
Proof.
  intros Hs Hv. unfold dep, sliding_window_log_dependency.
  rewrite run_call_bind. cbn [exec].
  rewrite run_call_bind. cbn [exec]. fold key. rewrite Hs.
  destruct v as [n|h|z]; try done. by destruct (Hv z).
Qed.

(** One call, in terms of the log. *)
Lemma sliding_window_log_call now s :
  log_wf user_id s →
  let r := run dep now s in
  let remaining := kept now (log_of user_id s) in
  (Z.of_nat (size remaining) >= max_requests →
     r.2 = denied ∧ log_of user_id r.1 = remaining) ∧
  (Z.of_nat (size remaining) < max_requests →
     r.2 = allowed ∧ log_of user_id r.1 = <[now := now]> remaining) ∧
  log_wf user_id r.1.
Proof.
  unfold log_wf, log_of. fold key.
  destruct (s !! key) as [[[n|h|z] t]|] eqn:Hs; try done; intros _; cbn zeta.
  - rewrite (sliding_window_log_run_present _ _ _ _ Hs).
    destruct (decide (kept now z = ∅)) as [Hempty|Hkept].
    + rewrite Hempty, map_size_empty.
      destruct (decide (0 >= max_requests)); cbn [fst snd];
        rewrite ?lookup_delete_eq, ?lookup_insert_eq;
        split_and!; intros; try lia; done.
    + destruct (decide (_ >= max_requests)); cbn [fst snd];
        rewrite lookup_insert_eq; split_and!; intros; try lia; done.
  - rewrite (sliding_window_log_run_absent _ _ Hs).
    unfold kept. rewrite zset_remove_range_empty, map_size_empty.
    destruct (decide (0 >= max_requests)); cbn [fst snd];
      rewrite ?Hs, ?lookup_insert_eq; split_and!; intros; try lia; done.
Qed.

(** A denial leaves the store alone when the log already respects the
    limit. *)
Lemma sliding_window_log_denied_unchanged now s :
  logs_bounded max_requests s →
  (run dep now s).2 = denied → (run dep now s).1 = s.
Proof.
  intros Hbounded.
  destruct (s !! key) as [[v t]|] eqn:Hs.
  - destruct v as [n|h|z];
      [by rewrite (sliding_window_log_run_wrong_type _ _ _ _ Hs)..|].
    destruct (Hbounded _ _ _ Hs) as [Hne Hsize].
    rewrite (sliding_window_log_run_present _ _ _ _ Hs).
    assert (size z ≠ 0%nat) as Hz by by apply map_size_non_empty_iff.
    destruct (decide (kept now z = ∅)) as [Hempty|Hkept].
    { destruct (decide (0 >= max_requests)); [lia|done]. }
    destruct (decide (_ >= max_requests)) as [Hge|]; [|done].
    intros _. cbn [fst].
    assert (kept now z = z) as ->.
    { apply map_subseteq_size_eq; [apply zset_remove_range_subseteq|lia]. }
    by apply insert_id.
  - rewrite (sliding_window_log_run_absent _ _ Hs).
    by destruct (decide (0 >= max_requests)).
Qed.

(** An allowed call keeps the log within the limit. *)
Lemma sliding_window_log_logs_bounded now s :
  logs_bounded max_requests s → logs_bounded max_requests (run dep now s).1.
Proof.
  intros Hbounded.
  assert (∀ z' t',
    z' ≠ ∅ → Z.of_nat (size z') ≤ max_requests →
    logs_bounded max_requests (<[key := Entry (RZSet z') t']> s)) as Hinsert.
  { intros z' t' Hne Hsize k z0 t0.
    destruct (decide (k = key)) as [->|Hk].
    - rewrite lookup_insert_eq. by intros [= <- <-].
    - rewrite lookup_insert_ne by done. apply Hbounded. }
  assert (∀ m sc z', size (<[m := sc]> z' : gmap Qc Qc) ≤ S (size z'))%nat
    as Hgrow.
  { intros m sc z'. rewrite map_size_insert. destruct (z' !! m); cbn; lia. }
  destruct (s !! key) as [[v t]|] eqn:Hs.
  - destruct v as [n|h|z];
      [by rewrite (sliding_window_log_run_wrong_type _ _ _ _ Hs)..|].
    destruct (Hbounded _ _ _ Hs) as [Hne Hsize].
    rewrite (sliding_window_log_run_present _ _ _ _ Hs).
    pose proof (zset_remove_range_size
                  0%Qc (now - float_of_int window_seconds)%Qc z) as Hle.
    fold (kept now z) in Hle.
    destruct (decide (kept now z = ∅)) as [Hempty|Hkept].
    + destruct (decide (0 >= max_requests)); cbn [fst].
      * intros k z0 t0. destruct (decide (k = key)) as [->|Hk].
        -- by rewrite lookup_delete_eq.
        -- rewrite lookup_delete_ne by done. apply Hbounded.
      * apply Hinsert; [apply insert_non_empty|].
        rewrite map_size_singleton. lia.
    + destruct (decide (_ >= max_requests)); cbn [fst].
      * apply Hinsert; [done|lia].
      * apply Hinsert; [apply insert_non_empty|].
        specialize (Hgrow now now (kept now z)). lia.
  - rewrite (sliding_window_log_run_absent _ _ Hs).
    destruct (decide (0 >= max_requests)); cbn [fst]; [done|].
    apply Hinsert; [apply insert_non_empty|]. rewrite map_size_singleton. lia.
Qed.
End sliding_window_log.

(** ** Logs stay within the limit along every history *)

Lemma logs_bounded_insert_other n key v t s :
  (∀ z, v ≠ RZSet z) →
  logs_bounded n s → logs_bounded n (<[key := Entry v t]> s).
Proof.
  intros Hv Hs k z t'. destruct (decide (key = k)) as [->|Hk].
  - rewrite lookup_insert_eq. intros [= -> _]. by destruct (Hv z).
  - rewrite lookup_insert_ne by done. apply Hs.
Qed.

Lemma logs_bounded_insert_same n key z t t' s :
  s !! key = Some (Entry (RZSet z) t) →
  logs_bounded n s → logs_bounded n (<[key := Entry (RZSet z) t']> s).
Proof.
  intros Hz Hs k z0 t0. destruct (decide (key = k)) as [->|Hk].
  - rewrite lookup_insert_eq. intros [= <- _]. by apply (Hs _ _ _ Hz).
  - rewrite lookup_insert_ne by done. apply Hs.
Qed.

Lemma logs_bounded_delete n key s :
  logs_bounded n s → logs_bounded n (delete key s).
Proof.
  intros Hs k z t. destruct (decide (key = k)) as [->|Hk].
  - by rewrite lookup_delete_eq.
  - rewrite lookup_delete_ne by done. apply Hs.
Qed.

Lemma exec_logs_bounded {X : Type} (c : cmd X) n now s :
  is_zadd c = false →
  logs_bounded n s → logs_bounded n (exec c now s).1.
Proof.
  intros Hc Hs. destruct c; try done; cbn;
    destruct (s !! key) as [[[m|h|z] t]|] eqn:Hkey; cbn [fst]; try done;
    try (by apply logs_bounded_insert_other);
    try (case_decide; cbn [fst];
         first [ by apply logs_bounded_delete
               | by apply logs_bounded_insert_other
               | by eapply logs_bounded_insert_same ]).
  destruct (Hs _ _ _ Hkey) as [Hne Hsize].
  pose proof (zset_remove_range_size lo hi z) as Hle.
  case_decide; cbn [fst]; [by apply logs_bounded_delete|].
  intros k z0 t0. destruct (decide (key = k)) as [->|Hk].
  - rewrite lookup_insert_eq. intros [= <- _]. split; [done|lia].
  - rewrite lookup_insert_ne by done. apply Hs.
Qed.

Lemma no_zadd_logs_bounded {A : Type} (p : prog A) n now s :
  no_zadd p → logs_bounded n s → logs_bounded n (run p now s).1.
Proof.
  revert s. induction p as [a|e|X c k IH]; intros s Hp Hs; cbn; try done.
  destruct Hp as [Hc Hk].
  pose proof (exec_logs_bounded c n now s Hc Hs) as Hs'.
  destruct (exec c now s) as [s' [x|e]]; [by apply IH|done].
Qed.

Lemma dependency_logs_bounded a p user_id now s :
  logs_bounded (sl_max_requests p) s →
  logs_bounded (sl_max_requests p) (run (dependency a p user_id) now s).1.
Proof.
  destruct a; cbn [dependency].
  - apply no_zadd_logs_bounded, token_bucket_no_zadd.
  - apply no_zadd_logs_bounded, leaky_bucket_no_zadd.
  - apply no_zadd_logs_bounded, fixed_window_no_zadd.
  - apply sliding_window_log_logs_bounded.
  - apply no_zadd_logs_bounded, sliding_window_counter_no_zadd.
Qed.

Lemma replay_logs_bounded p history s :
  logs_bounded (sl_max_requests p) s →
  logs_bounded (sl_max_requests p) (replay p history s).
Proof.
  revert s. induction history as [|[a user_id now|key] history IH];
    intros s Hs; cbn [replay]; [done|..]; apply IH.
  - by apply dependency_logs_bounded.
  - unfold expire_key. destruct (s !! key) as [[v [t|]]|]; try done.
    by apply logs_bounded_delete.
Qed.

(** ** Denied calls and the store *)

Lemma zset_remove_range_idemp lo hi (z : gmap Qc Qc) :
  zset_remove_range lo hi (zset_remove_range lo hi z)
  = zset_remove_range lo hi z.
Proof.
  apply map_eq. intros m. apply option_eq. intros sc.
  rewrite !zset_remove_range_lookup. tauto.
Qed.

(** What a denied call of the sliding window log does, on any store. *)
Lemma sliding_window_log_denied user_id max_requests window_seconds now s :
  let dep :=
    sliding_window_log_dependency user_id max_requests window_seconds in
  let r := run dep now s in
  r.2 = denied →
  (∀ key, key ≠ "sliding_window_log:" +:+ user_id → r.1 !! key = s !! key) ∧
  log_of user_id r.1 ⊆ log_of user_id s ∧
  (log_bounded user_id max_requests s → r.1 = s) ∧
  run dep now r.1 = (r.1, denied).
Proof.
  intros dep r. subst dep r. unfold log_bounded, log_of.
  destruct (s !! ("sliding_window_log:" +:+ user_id)) as [[v t]|] eqn:Hs.
  - destruct v as [n|h|z];
      [by rewrite (sliding_window_log_run_wrong_type
                     user_id max_requests window_seconds now s _ t Hs)..|].
    rewrite (sliding_window_log_run_present
               user_id max_requests window_seconds now s z t Hs).
    pose proof (zset_remove_range_subseteq
                  0%Qc (now - float_of_int window_seconds)%Qc z) as Hsub.
    pose proof (zset_remove_range_size
                  0%Qc (now - float_of_int window_seconds)%Qc z) as Hsize.
    destruct (decide (zset_remove_range _ _ z = ∅)) as [Hempty|Hkept].
    + destruct (decide (0 >= max_requests)) as [Hmax|]; [|done].
      intros _. cbn [fst snd]. split_and!.
      * intros key Hkey. by rewrite lookup_delete_ne.
      * rewrite lookup_delete_eq. apply map_empty_subseteq.
      * intros Hb. destruct (Hb z t eq_refl) as [Hne Hz].
        apply map_size_non_empty_iff in Hne. lia.
      * rewrite sliding_window_log_run_absent by apply lookup_delete_eq.
        by rewrite decide_True.
    + destruct (decide (_ >= max_requests)) as [Hge|]; [|done].
      intros _. cbn [fst snd]. split_and!.
      * intros key Hkey. by rewrite lookup_insert_ne.
      * by rewrite lookup_insert_eq.
      * intros Hb. destruct (Hb z t eq_refl) as [Hne Hz].
        assert (zset_remove_range 0%Qc
                  (now - float_of_int window_seconds)%Qc z = z) as ->
          by (apply map_subseteq_size_eq; [done|lia]).
        by apply insert_id.
      * rewrite (sliding_window_log_run_present
                   user_id max_requests window_seconds now _ _ t
                   (lookup_insert_eq _ _ _)).
        rewrite zset_remove_range_idemp.
        rewrite decide_False, decide_True by done.
        by rewrite insert_insert_eq.
  - rewrite sliding_window_log_run_absent by done.
    destruct (decide (0 >= max_requests)); [|done]. intros _. cbn [fst snd].
    split_and!; [done|by rewrite Hs|done|].
    rewrite sliding_window_log_run_absent by done. by rewrite decide_True.
Qed.

(** C2, as the code has it.  The token bucket, the leaky bucket, the
    fixed window counter and the sliding window counter raise the 429
    before their first write: on every store and for every parameter a
    denied call leaves the store exactly as it was.  The sliding window
    log purges before it checks: a denied call touches no key but the
    log, adds nothing to the log and can only remove entries from it; it
    leaves the store as it was when the log holds at most [max_requests]
    entries, and the same call made again at once is denied and changes
    nothing more.  Under one configuration, with requests served one
    after another and keys expiring at any moment, every log stays
    within [max_requests], so there a denied call of any of the five
    limiters leaves the store as it was and the same call made again at
    once is denied again. *)
Theorem denied_call_leaves_store :
  (∀ a p user_id now s,
     a ≠ SlidingWindowLog →
     (run (dependency a p user_id) now s).2 = denied →
     run (dependency a p user_id) now s = (s, denied)) ∧
  (∀ user_id max_requests window_seconds now s,
     let dep :=
       sliding_window_log_dependency user_id max_requests window_seconds in
     let r := run dep now s in
     r.2 = denied →
     (∀ key, key ≠ "sliding_window_log:" +:+ user_id →
             r.1 !! key = s !! key) ∧
     log_of user_id r.1 ⊆ log_of user_id s ∧
     (log_bounded user_id max_requests s → r.1 = s) ∧
     run dep now r.1 = (r.1, denied)) ∧
  (∀ p history a user_id now,
     let s := replay p history ∅ in
     let r := run (dependency a p user_id) now s in
     r.2 = denied →
     r.1 = s ∧ run (dependency a p user_id) now r.1 = (s, denied)).
Proof.
  assert (∀ a p user_id now s,
            a ≠ SlidingWindowLog →
            (run (dependency a p user_id) now s).2 = denied →
            run (dependency a p user_id) now s = (s, denied)) as Hfour.
  { intros a p user_id now s Ha Hdenied.
    assert ((run (dependency a p user_id) now s).1 = s) as Hsame.
    { destruct a; cbn [dependency] in *; [..|done|].
      - by apply denies_before_writing_run;
           [apply token_bucket_denies_before_writing|].
      - by apply denies_before_writing_run;
           [apply leaky_bucket_denies_before_writing|].
      - by apply denies_before_writing_run;
           [apply fixed_window_denies_before_writing|].
      - by apply denies_before_writing_run;
           [apply sliding_window_counter_denies_before_writing|]. }
    destruct (run (dependency a p user_id) now s) as [s' res].
    cbn in Hdenied, Hsame. by subst. }
  split_and!; [done|apply sliding_window_log_denied|].
  intros p history a user_id now s r Hdenied.
  assert (a = SlidingWindowLog ∨ a ≠ SlidingWindowLog) as [->|Ha]
    by (destruct a; (by left) || (by right)).
  - assert (log_bounded user_id (sl_max_requests p) s) as Hbounded.
    { intros z t Hz.
      by apply (replay_logs_bounded p history ∅) in Hz. }
    destruct (sliding_window_log_denied user_id (sl_max_requests p)
                (sl_window_seconds p) now s Hdenied)
      as (_ & _ & Hsame & Hagain).
    specialize (Hsame Hbounded). cbn [dependency]. subst r.
    cbn [dependency] in *. rewrite Hsame in Hagain |- *. by rewrite Hagain.
  - subst r. rewrite (Hfour a p user_id now s Ha Hdenied). cbn [fst].
    by rewrite (Hfour a p user_id now s Ha Hdenied).
Qed.

(** Two requests of one identity in flight under one configuration
    ([max_requests] one, [window_seconds] ten): each purges and counts
    before the other adds, both are allowed, and the log holds two
    entries.  A later call is denied, and its purge drops the older
    entry. *)
Lemma denied_call_purges_counterexample :
  let dep := sliding_window_log_dependency "u" 1 10 in
  let flight :=
    interleave_at [(0, Q2Qc 1); (1, Q2Qc 2); (0, Q2Qc 1); (1, Q2Qc 2);
                   (0, Q2Qc 1); (1, Q2Qc 2); (0, Q2Qc 1); (1, Q2Qc 2)]%nat
                  [dep; dep] ∅ in
  let s := flight.2 in
  let r := run dep (Q2Qc (23 # 2)) s in
  flight.1 = [Return tt; Return tt] ∧
  size (log_of "u" s) = 2%nat ∧
  r.2 = denied ∧
  size (log_of "u" r.1) = 1%nat ∧
  r.1 ≠ s.
Proof.
  intros dep flight s r.
  assert (size (log_of "u" s) = 2%nat) as Hs by (vm_compute; reflexivity).
  assert (size (log_of "u" r.1) = 1%nat) as Hr by (vm_compute; reflexivity).
  split_and!; [vm_compute; reflexivity|done|vm_compute; reflexivity|done|].
  intros Heq. rewrite Heq in Hr. congruence.
Qed.

Lemma denied_call_leaves_store_witness :
  let p := Policy 10 1 10 1%Qc 10 60 2 10 10 60 10 in
  let history := [Request SlidingWindowLog "u" (Q2Qc 1);
                  Request TokenBucket "u" (Q2Qc 1);
                  Request SlidingWindowLog "u" (Q2Qc 2);
                  KeyExpired "fixed_window:u:0"] in
  let s := replay p history ∅ in
  (run (dependency SlidingWindowLog p "u") (Q2Qc 3) s).1 = s.
Proof.
  intros p history s.
  refine (proj1 (proj2 (proj2 denied_call_leaves_store)
                   p history SlidingWindowLog "u" (Q2Qc 3) _)).
  vm_compute. reflexivity.
Defined.

(** The invariant matters for the log: on a store whose log holds more
    than this call's [max_requests], a denied call does purge. *)
Lemma sliding_window_log_denied_purges_unbounded :
  let s := (serve (sliding_window_log_dependency "u" 3 60)
                  [Q2Qc 1; Q2Qc 2; Q2Qc 3] ∅).1 in
  let r := run (sliding_window_log_dependency "u" 1 1) (Q2Qc 3) s in
  r.2 = denied ∧ size (log_of "u" s) = 3%nat ∧ size (log_of "u" r.1) = 1%nat.
Proof. vm_compute. by split_and!. Qed.

(** ** The purge of the sliding window log *)

Lemma Qc_sub_pos_lt (x w : Qc) : (0 < w)%Qc → (x - w < x)%Qc.
Proof.
  intros Hw. apply Qclt_minus_iff.
  by replace (x + - (x - w))%Qc with w by ring.
Qed.

(** C4, as the code has it.  The purge before counting removes exactly
    the entries whose score lies in [0, now - window_seconds], both ends
    included: an entry at exactly [now - window_seconds] is removed and
    not counted.  The call is denied exactly when [max_requests] or more
    entries remain; otherwise [now] is added.  When the stored timestamps
    lie in [0, now] and the window is positive, every timestamp left
    after the call lies in the half-open interval
    (now - window_seconds, now]. *)
Theorem sliding_window_log_purge
    user_id max_requests window_seconds now s :
  log_wf user_id s →
  let z := log_of user_id s in
  let bound := (now - float_of_int window_seconds)%Qc in
  let remaining := zset_remove_range 0%Qc bound z in
  let r := run (sliding_window_log_dependency
                  user_id max_requests window_seconds) now s in
  (∀ member score,
     remaining !! member = Some score ↔
     z !! member = Some score ∧ ¬ (0 ≤ score ∧ score ≤ bound)%Qc) ∧
  (r.2 = denied ↔ Z.of_nat (size remaining) >= max_requests) ∧
  (r.2 = denied → log_of user_id r.1 = remaining) ∧
  (r.2 ≠ denied →
     r.2 = allowed ∧ log_of user_id r.1 = <[now := now]> remaining) ∧
  (0 < window_seconds →
   (∀ member score, z !! member = Some score → (0 ≤ score ∧ score ≤ now)%Qc) →
   ∀ member score,
     log_of user_id r.1 !! member = Some score →
     (bound < score ∧ score ≤ now)%Qc).
Proof.
  intros Hwf z bound remaining r.
  destruct (sliding_window_log_call user_id max_requests window_seconds
              now s Hwf) as (Hden & Hall & _).
  cbn zeta in Hden, Hall. fold z bound remaining r in Hden, Hall.
  assert (r.2 = denied ↔ Z.of_nat (size remaining) >= max_requests) as Hiff.
  { split; [|by intros [? _]%Hden].
    intros Hd. destruct (decide (Z.of_nat (size remaining) >= max_requests))
      as [|Hlt]; [done|].
    destruct Hall as [Hal _]; [lia|]. by rewrite Hal in Hd. }
  assert (r.2 ≠ denied →
          r.2 = allowed ∧ log_of user_id r.1 = <[now := now]> remaining)
    as Hallowed.
  { intros Hnd. apply Hall.
    destruct (decide (Z.of_nat (size remaining) >= max_requests)) as [Hge|];
      [|lia].
    by apply Hiff in Hge. }
  split_and!; [apply zset_remove_range_lookup|done| |done|].
  - intros Hd. by apply Hden, Hiff.
  - intros Hwin Hz member score Hlog.
    assert (remaining !! member = Some score →
            (bound < score ∧ score ≤ now)%Qc) as Hrem.
    { intros [Hin Hout]%zset_remove_range_lookup.
      destruct (Hz _ _ Hin) as [H0 Hnow]. split; [|done].
      apply Qclt_nge. intros Hle. apply Hout. by split. }
    destruct (decide (r.2 = denied)) as [Hd|Hnd].
    + apply Hrem. by rewrite <-(proj2 (Hden (proj1 Hiff Hd))).
    + destruct (Hallowed Hnd) as [_ Hlog']. rewrite Hlog' in Hlog.
      destruct (decide (now = member)) as [<-|Hne].
      * rewrite lookup_insert_eq in Hlog. injection Hlog as <-.
        split; [|done]. by apply Qc_sub_pos_lt, float_of_int_pos.
      * rewrite lookup_insert_ne in Hlog by done. by apply Hrem.
Qed.

(** A concrete run: one entry at [t = 100], a ten second window, a call
    at [t = 110] with [max_requests = 1].  The entry sits exactly at
    [now - window_seconds]; it is purged and the call is allowed. *)
Lemma sliding_window_log_boundary_counterexample :
  let dep := sliding_window_log_dependency "u" 1 10 in
  let s := (run dep (Q2Qc 100) ∅).1 in
  let r := run dep (Q2Qc 110) s in
  log_of "u" s !! Q2Qc 100 = Some (Q2Qc 100) ∧
  Q2Qc 100 = (Q2Qc 110 - float_of_int 10)%Qc ∧
  log_of "u" r.1 !! Q2Qc 100 = None ∧
  r.2 = allowed.
Proof.
  split_and!; [by vm_compute|by apply Qc_is_canon|by vm_compute..].
Qed.

Lemma sliding_window_log_purge_witness :
  let dep := sliding_window_log_dependency "u" 1 10 in
  let s := (run dep (Q2Qc 0) ∅).1 in
  log_of "u" (run dep (Q2Qc 10) s).1 = {[Q2Qc 10 := Q2Qc 10]} ∧
  (Q2Qc 10 - float_of_int 10 < Q2Qc 10 ∧ Q2Qc 10 ≤ Q2Qc 10)%Qc.
Proof.
  intros dep s.
  assert (log_of "u" (run dep (Q2Qc 10) s).1 = {[Q2Qc 10 := Q2Qc 10]})
    as Hlog by (vm_compute; reflexivity).
  split; [exact Hlog|].
  refine (proj2 (proj2 (proj2 (proj2
    (sliding_window_log_purge "u" 1 10 (Q2Qc 10) s _)))) _ _
    (Q2Qc 10) (Q2Qc 10) _).
  - vm_compute. exact I.
  - lia.
  - intros member score Hz.
    assert (log_of "u" s = {[Q2Qc 0 := Q2Qc 0]}) as Hs
      by (vm_compute; reflexivity).
    rewrite Hs in Hz. apply lookup_singleton_Some in Hz as [_ <-].
    vm_compute. split; discriminate.
  - fold dep. rewrite Hlog. apply lookup_singleton_eq.
Defined.

(** ** Simultaneous admissions in the sliding window log *)

Lemma zset_add_again now lo hi (z : gmap Qc Qc) :
  <[now := now]>
    (zset_remove_range lo hi (<[now := now]> (zset_remove_range lo hi z)))
  = <[now := now]> (zset_remove_range lo hi z).
Proof.
  apply map_eq. intros member. destruct (decide (now = member)) as [<-|Hne].
  - by rewrite !lookup_insert_eq.
  - rewrite !lookup_insert_ne by done. apply option_eq. intros score.
    rewrite !zset_remove_range_lookup, lookup_insert_ne by done.
    rewrite zset_remove_range_lookup. tauto.
Qed.

Lemma zset_add_singleton now lo hi :
  <[now := now]> (zset_remove_range lo hi {[now := now]})
  = ({[now := now]} : gmap Qc Qc).
Proof.
  apply map_eq. intros member. destruct (decide (now = member)) as [<-|Hne].
  - by rewrite lookup_insert_eq, lookup_singleton_eq.
  - rewrite lookup_insert_ne, lookup_singleton_ne by done.
    apply option_eq. intros score.
    rewrite zset_remove_range_lookup, lookup_singleton_ne by done.
    split; [by intros [? _]|done].
Qed.

Lemma serve_sliding_window_log_same_instant
    user_id max_requests window_seconds now n s :
  2 ≤ max_requests → log_wf user_id s →
  log_of user_id s = ∅ ∨ log_of user_id s = {[now := now]} →
  let r := serve (sliding_window_log_dependency
                    user_id max_requests window_seconds)
                 (replicate n now) s in
  r.2 = replicate n allowed ∧
  (n ≠ 0%nat → log_of user_id r.1 = {[now := now]}).
Proof.
  intros Hmax. revert s. induction n as [|n IH]; intros s Hwf Hlog; [done|].
  cbn [replicate serve fst snd]. cbn zeta.
  destruct (sliding_window_log_call user_id max_requests window_seconds
              now s Hwf) as (_ & Hall & Hwf').
  cbn zeta in Hall.
  set (remaining := zset_remove_range 0%Qc
                      (now - float_of_int window_seconds)%Qc
                      (log_of user_id s)) in *.
  assert (size remaining ≤ 1)%nat as Hsize.
  { pose proof (zset_remove_range_size
                  0%Qc (now - float_of_int window_seconds)%Qc
                  (log_of user_id s)) as Hle. fold remaining in Hle.
    destruct Hlog as [Hlog|Hlog]; rewrite Hlog in Hle;
      rewrite ?map_size_empty, ?map_size_singleton in Hle; lia. }
  destruct Hall as [Hres Hlog']; [lia|].
  assert (<[now := now]> remaining = ({[now := now]} : gmap Qc Qc)) as Hone.
  { subst remaining. destruct Hlog as [-> | ->].
    - by rewrite zset_remove_range_empty, insert_empty.
    - apply zset_add_singleton. }
  rewrite Hone in Hlog'.
  destruct (IH _ Hwf') as [IHres IHlog]; [by right|].
  cbn zeta in IHres, IHlog. rewrite Hres, IHres. split; [done|]. intros _.
  destruct n as [|n]; [done|]. by apply IHlog.
Qed.

(** C10.  The member added by an allowed call is the timestamp itself.
    Two allowed calls at the same timestamp leave the log as the first
    one left it, with a single entry for that timestamp; so with
    [max_requests >= 2] any number of calls at one instant are allowed
    from an empty log, which then holds one entry. *)
Theorem sliding_window_log_same_timestamp user_id max_requests window_seconds :
  (∀ now s,
     log_wf user_id s →
     let dep := sliding_window_log_dependency
                  user_id max_requests window_seconds in
     let r1 := run dep now s in
     let r2 := run dep now r1.1 in
     r1.2 = allowed → r2.2 = allowed →
     log_of user_id r1.1 !! now = Some now ∧
     log_of user_id r2.1 = log_of user_id r1.1) ∧
  (∀ now n s,
     2 ≤ max_requests →
     s !! ("sliding_window_log:" +:+ user_id) = None →
     let r := serve (sliding_window_log_dependency
                       user_id max_requests window_seconds)
                    (replicate n now) s in
     r.2 = replicate n allowed ∧
     (n ≠ 0%nat → log_of user_id r.1 = {[now := now]})).
Proof.
  split.
  - intros now s Hwf dep r1 r2 Hr1 Hr2.
    destruct (sliding_window_log_call user_id max_requests window_seconds
                now s Hwf) as (Hden1 & Hall1 & Hwf1).
    destruct (sliding_window_log_call user_id max_requests window_seconds
                now r1.1 Hwf1) as (Hden2 & Hall2 & _).
    cbn zeta in Hden1, Hall1, Hden2, Hall2. fold dep r1 in Hden1, Hall1.
    fold dep r1 r2 in Hden2, Hall2.
    destruct Hall1 as [_ Hlog1].
    { destruct (decide (Z.of_nat (size (zset_remove_range 0%Qc
                  (now - float_of_int window_seconds)%Qc
                  (log_of user_id s))) >= max_requests)) as [Hge|]; [|lia].
      destruct (Hden1 Hge) as [Hd _]. by rewrite Hd in Hr1. }
    destruct Hall2 as [_ Hlog2].
    { destruct (decide (Z.of_nat (size (zset_remove_range 0%Qc
                  (now - float_of_int window_seconds)%Qc
                  (log_of user_id r1.1))) >= max_requests)) as [Hge|]; [|lia].
      destruct (Hden2 Hge) as [Hd _]. by rewrite Hd in Hr2. }
    rewrite Hlog2, Hlog1. split; [apply lookup_insert_eq|].
    apply zset_add_again.
  - intros now n s Hmax Hs.
    apply serve_sliding_window_log_same_instant; [done|..].
    + unfold log_wf. by rewrite Hs.
    + left. unfold log_of. by rewrite Hs.
Qed.

Lemma sliding_window_log_same_timestamp_witness :
  let r := serve (sliding_window_log_dependency "u" 2 60)
                 (replicate 5 (Q2Qc 7)) ∅ in
  r.2 = replicate 5 allowed ∧ log_of "u" r.1 = {[Q2Qc 7 := Q2Qc 7]}.
Proof.
  intros r.
  destruct (proj2 (sliding_window_log_same_timestamp "u" 2 60)
                  (Q2Qc 7) 5%nat ∅) as [Hres Hlog].
  - lia.
  - reflexivity.
  - split; [exact Hres|]. apply Hlog. lia.
Defined.

(** ** Requests for one identity: in turn, and interleaved *)

Lemma trace_app {S : Type} (next : S → Qc → S * result unit) st times1 times2 :
  trace next st (times1 ++ times2) =
  ((trace next (trace next st times1).1 times2).1,
   (trace next st times1).2 ++ (trace next (trace next st times1).1 times2).2).
Proof.
  revert st. induction times1 as [|now times1 IH]; intros st; cbn.
  - by destruct (trace next st times2).
  - by rewrite IH.
Qed.

Lemma token_bucket_next_same_instant max_tokens refill_rate tokens now :
  tokens ≤ max_tokens →
  token_bucket_next max_tokens refill_rate (Some (tokens, now)) now =
  if decide (tokens ≤ 0) then (Some (tokens, now), denied)
  else (Some (tokens - 1, now), allowed).
Proof.
  intros Hle. unfold token_bucket_next, tokens_to_add.
  by rewrite no_time_no_change, Z.add_0_r, Z.min_r by done.
Qed.

Lemma trace_token_bucket_drain max_tokens refill_rate now (n : nat) tokens :
  Z.of_nat n ≤ tokens ≤ max_tokens →
  trace (token_bucket_next max_tokens refill_rate)
        (Some (tokens, now)) (replicate n now)
  = (Some (tokens - Z.of_nat n, now), replicate n allowed).
Proof.
  revert tokens. induction n as [|n IH]; intros tokens Hn.
  - cbn. by rewrite Z.sub_0_r.
  - cbn [replicate trace].
    rewrite token_bucket_next_same_instant, decide_False by lia.
    cbn [fst snd]. rewrite IH by lia.
    by replace (tokens - 1 - Z.of_nat n) with (tokens - Z.of_nat (S n)) by lia.
Qed.

Lemma trace_token_bucket_empty max_tokens refill_rate now (n : nat) :
  0 ≤ max_tokens →
  trace (token_bucket_next max_tokens refill_rate)
        (Some (0, now)) (replicate n now)
  = (Some (0, now), replicate n denied).
Proof.
  intros Hmax. induction n as [|n IH]; [done|].
  cbn [replicate trace].
  rewrite token_bucket_next_same_instant, decide_True by lia.
  cbn [fst snd]. by rewrite IH.
Qed.

Lemma count_allowed (n m : nat) :
  length (filter (λ x, x = allowed) (replicate n allowed ++ replicate m denied))
  = n.
Proof.
  induction n as [|n IH]; cbn [replicate app].
  - induction m as [|m IH]; [done|]. cbn [replicate].
    by rewrite filter_cons_False.
  - rewrite filter_cons_True by done. cbn [length]. by rewrite IH.
Qed.

(** A request in flight alone, given turns enough, ends where [run] says. *)
Lemma interleave_alone (p : prog unit) now s :
  ∃ n, interleave (replicate n 0%nat) now [p] s =
       ([match (run p now s).2 with
         | Ok a => Return a
         | Exn e => Raise e
         end], (run p now s).1).
Proof.
  revert s. induction p as [a|e|X c k IH]; intros s.
  - by exists 0%nat.
  - by exists 0%nat.
  - destruct (exec c now s) as [s' [x|e]] eqn:Hc.
    + destruct (IH x s') as [n Hn]. exists (S n).
      cbn [replicate interleave lookup list_lookup step run].
      rewrite Hc. cbn [fst snd]. exact Hn.
    + exists 1%nat.
      cbn [replicate interleave lookup list_lookup step run].
      by rewrite Hc.
Qed.

(** C8, as the code has it.  Each Redis command is atomic, but a
    dependency issues its read and its write as separate commands with
    nothing holding them together.  When the calls for an identity run
    one after another, [2 * half] token-bucket calls at one instant
    against a capacity of [half] admit exactly [half]. *)
Theorem token_bucket_serial_admissions user_id (half : nat) refill_rate now s :
  (0 < half)%nat →
  s !! ("token_bucket:" +:+ user_id) = None →
  let dep := token_bucket_dependency user_id (Z.of_nat half) refill_rate in
  let r := serve dep (replicate (2 * half) now) s in
  r.2 = replicate half allowed ++ replicate half denied ∧
  length (filter (λ x, x = allowed) r.2) = half.
Proof.
  intros Hhalf Hs dep r.
  assert (r.2 = replicate half allowed ++ replicate half denied) as Hres.
  { subst r dep.
    destruct (serve_token_bucket user_id (Z.of_nat half) refill_rate
                (replicate (2 * half) now) s) as (-> & _); [by left|].
    rewrite (token_bucket_state_absent _ _ Hs).
    destruct half as [|n]; [lia|].
    replace (2 * S n)%nat with (S n + S n)%nat by lia.
    rewrite replicate_add, trace_app. cbn [snd].
    assert (trace (token_bucket_next (Z.of_nat (S n)) refill_rate) None
                  (replicate (S n) now)
            = (Some (0, now), replicate (S n) allowed)) as ->.
    { assert (token_bucket_next (Z.of_nat (S n)) refill_rate None now
              = (Some (Z.of_nat (S n) - 1, now), allowed)) as Hfirst.
      { unfold token_bucket_next. by rewrite decide_False by lia. }
      cbn [replicate trace]. rewrite Hfirst. cbn [fst snd].
      rewrite trace_token_bucket_drain by lia. cbn [fst snd].
      by replace (Z.of_nat (S n) - 1 - Z.of_nat n) with 0 by lia. }
    cbn [fst snd]. by rewrite trace_token_bucket_empty by lia. }
  split; [done|]. rewrite Hres. apply count_allowed.
Qed.

(** A concrete run: two calls for one identity in flight at once
    against a capacity of one, taking turns command by command.  Both
    read before either writes, and both are admitted. *)
Lemma token_bucket_interleaved_counterexample :
  let dep := token_bucket_dependency "u" 1 1 in
  let schedule := [0; 1; 0; 1; 0; 1; 0; 1]%nat in
  let r := interleave schedule (Q2Qc 0) [dep; dep] ∅ in
  admitted r.1 = 2%nat ∧
  token_bucket_state "u" r.2 = Some (0, Q2Qc 0).
Proof. vm_compute. by split. Qed.

Lemma token_bucket_serial_admissions_witness :
  let dep := token_bucket_dependency "u" 1 1 in
  (serve dep (replicate 2 (Q2Qc 0)) ∅).2 = [allowed; denied].
Proof.
  intros dep.
  refine (proj1 (token_bucket_serial_admissions "u" 1 1 (Q2Qc 0) ∅ _ _)).
  - lia.
  - reflexivity.
Defined.

(** * Further properties of the dependencies *)

(** ** A call that raises has written nothing *)

Lemma exec_exn_unchanged {X : Type} (c : cmd X) now s e :
  (exec c now s).2 = Exn e → (exec c now s).1 = s.
Proof.
  destruct c; cbn; repeat case_match; cbn; congruence.
Qed.

Lemma completes_run {A : Type} (p : prog A) now s :
  completes p → ∃ a, (run p now s).2 = Ok a.
Proof.
  revert s. induction p as [a|e|X c k IH]; intros s Hp; cbn.
  - by exists a.
  - done.
  - destruct Hp as [Hc Hk].
    destruct c; try done; cbn; [by apply IH|].
    destruct (s !! key) as [[v t]|]; [case_decide|]; by apply IH.
Qed.

Lemma fails_before_writing_run {A : Type} (p : prog A) now s e :
  fails_before_writing p →
  (run p now s).2 = Exn e → (run p now s).1 = s.
Proof.
  revert s. induction p as [a|e'|X c k IH]; intros s Hp; cbn; try done.
  cbn in Hp. destruct (reads c) eqn:Hreads.
  - pose proof (exec_reads c now s Hreads) as Hs.
    destruct (exec c now s) as [s' [x|e']]; cbn in Hs; subst s'; [|done].
    by apply IH.
  - pose proof (exec_exn_unchanged c now s) as Hs.
    destruct (exec c now s) as [s' [x|e']]; cbn in Hs.
    + intros He. destruct (completes_run (k x) now s' (Hp x)) as [a Ha].
      by rewrite Ha in He.
    + intros _. by eapply Hs.
Qed.

Lemma fails_before_writing_bind {A B : Type} (p : prog A) (f : A → prog B) :
  read_only p → (∀ a, fails_before_writing (f a)) →
  fails_before_writing (p ≫= f).
Proof.
  intros Hp Hf. induction p as [a|e|X c k IH]; cbn; [apply Hf|done|].
  destruct Hp as [-> Hk]. intros x. by apply IH.
Qed.

Ltac walk_failures :=
  repeat first
    [ progress cbv beta iota zeta delta
        [fails_before_writing completes never_fails read_only reads
         bind mbind prog_bind call mret prog_ret raise
         int_of_str float_of_reply]
    | case_decide
    | case_match
    | split
    | intro
    | done ].

Lemma token_bucket_fails_before_writing user_id max_tokens refill_rate :
  fails_before_writing
    (token_bucket_dependency user_id max_tokens refill_rate).
Proof. unfold token_bucket_dependency. walk_failures. Qed.

Lemma leaky_bucket_fails_before_writing user_id capacity leak_rate :
  fails_before_writing (leaky_bucket_dependency user_id capacity leak_rate).
Proof. unfold leaky_bucket_dependency. walk_failures. Qed.

Lemma fixed_window_fails_before_writing user_id max_requests window_seconds :
  expire_range window_seconds →
  fails_before_writing
    (fixed_window_counter_dependency user_id max_requests window_seconds).
Proof.
  intros Hrange. apply (bool_decide_eq_true_2 _) in Hrange.
  unfold fixed_window_counter_dependency. walk_failures.
Qed.

Lemma sliding_window_counter_fails_before_writing
    user_id max_requests window_seconds sub_window_seconds :
  expire_range window_seconds →
  fails_before_writing
    (sliding_window_counter_dependency
       user_id max_requests window_seconds sub_window_seconds).
Proof.
  intros Hrange.
  unfold sliding_window_counter_dependency.
  apply fails_before_writing_bind; [done|].
  intros t. cbv beta zeta. case_decide; [done|].
  apply fails_before_writing_bind; [apply read_only_get_counts|].
  intros counts. apply (bool_decide_eq_true_2 _) in Hrange. walk_failures.
Qed.

Lemma result_unit_cases (r : result unit) : r = allowed ∨ ∃ e, r = Exn e.
Proof. destruct r as [[]|e]; [by left|right; by exists e]. Qed.

(** X1.  Take any store, and parameters whose [window_seconds] EXPIRE
    accepts (magnitude at most 2^52).  A call of the token bucket, the
    leaky bucket, the fixed window counter or the sliding window counter
    that does not return "Allowed" (the 429, a conversion error, a
    division by zero or a Redis error) leaves the store exactly as it
    was.  The sliding window log does so for every exception other than
    the 429. *)
Theorem failed_call_writes_nothing a p user_id now s :
  (∀ seconds, expire_seconds a p = Some seconds → expire_range seconds) →
  let r := run (dependency a p user_id) now s in
  r.2 ≠ allowed →
  (a ≠ SlidingWindowLog → r.1 = s) ∧
  (r.2 ≠ denied → r.1 = s).
Proof.
  intros Hrange r Hr.
  destruct (result_unit_cases r.2) as [Hal|[e He]]; [done|].
  assert (r.1 = s ∨ a = SlidingWindowLog) as [Hsame | ->].
  { subst r. destruct a; cbn [dependency] in *; [left..|by right|left].
    - eapply fails_before_writing_run;
        [apply token_bucket_fails_before_writing|done].
    - eapply fails_before_writing_run;
        [apply leaky_bucket_fails_before_writing|done].
    - eapply fails_before_writing_run;
        [by apply fixed_window_fails_before_writing, Hrange|done].
    - eapply fails_before_writing_run;
        [by apply sliding_window_counter_fails_before_writing, Hrange|done]. }
  { done. }
  split; [done|].
  intros Hnd. subst r. cbn [dependency] in *.
  destruct (s !! ("sliding_window_log:" +:+ user_id))
    as [[[n|h|z] t]|] eqn:Hs.
  - by rewrite (sliding_window_log_run_wrong_type _ _ _ _ _ _ _ Hs).
  - by rewrite (sliding_window_log_run_wrong_type _ _ _ _ _ _ _ Hs).
  - rewrite (sliding_window_log_run_present _ _ _ _ _ _ _ Hs) in Hnd, He.
    repeat case_decide; cbn in Hnd, He; done.
  - rewrite (sliding_window_log_run_absent _ _ _ _ _ Hs) in Hnd, He |- *.
    repeat case_decide; cbn in Hnd, He; done.
Qed.

Lemma failed_call_writes_nothing_witness :
  let p := Policy 10 1 10 1%Qc 2 60 2 10 10 60 10 in
  let s : store :=
    {["fixed_window:u:0" := Entry (RString 3) (Some 60)]} in
  (run (dependency FixedWindowCounter p "u") (Q2Qc 5) s).2 = denied ∧
  (run (dependency FixedWindowCounter p "u") (Q2Qc 5) s).1 = s.
Proof.
  intros p s. split; [vm_compute; reflexivity|].
  refine (proj1 (failed_call_writes_nothing
                   FixedWindowCounter p "u" (Q2Qc 5) s _ _) _).
  - intros seconds [= <-]. unfold expire_range. cbn. lia.
  - vm_compute. discriminate.
  - discriminate.
Defined.

(** ** Limiters and identities do not interfere *)

Lemma exec_frame {X : Type} (c : cmd X) now s key :
  target c ≠ Some key → (exec c now s).1 !! key = s !! key.
Proof.
  destruct c; cbn; try done; intros Hkey;
    repeat case_match; cbn;
    rewrite ?lookup_insert_ne, ?lookup_delete_ne by congruence; done.
Qed.

Lemma touches_only_run {A : Type} (K : string → Prop) (p : prog A) now s key :
  touches_only K p → ¬ K key → (run p now s).1 !! key = s !! key.
Proof.
  revert s. induction p as [a|e|X c k IH]; intros s Hp Hkey; cbn; try done.
  destruct Hp as [Hc Hk].
  assert ((exec c now s).1 !! key = s !! key) as Hframe.
  { apply exec_frame. intros Ht. by apply Hkey, Hc. }
  destruct (exec c now s) as [s' [x|e]]; cbn in Hframe; [|done].
  by rewrite IH.
Qed.

Lemma touches_only_bind {A B : Type} K (p : prog A) (f : A → prog B) :
  touches_only K p → (∀ a, touches_only K (f a)) → touches_only K (p ≫= f).
Proof.
  intros Hp Hf. induction p as [a|e|X c k IH]; cbn; [apply Hf|done|].
  destruct Hp as [Hc Hk]. split; [done|]. intros x. by apply IH.
Qed.

Ltac walk_keys :=
  repeat first
    [ progress cbv beta iota zeta delta
        [touches_only target bind mbind prog_bind call mret prog_ret raise
         int_of_str float_of_reply own_keys]
    | case_decide
    | case_match
    | split
    | intro
    | progress simplify_eq
    | done
    | by eexists ].

Lemma token_bucket_touches_only user_id max_tokens refill_rate :
  touches_only (own_keys TokenBucket user_id)
    (token_bucket_dependency user_id max_tokens refill_rate).
Proof. unfold token_bucket_dependency. walk_keys. Qed.

Lemma leaky_bucket_touches_only user_id capacity leak_rate :
  touches_only (own_keys LeakyBucket user_id)
    (leaky_bucket_dependency user_id capacity leak_rate).
Proof. unfold leaky_bucket_dependency. walk_keys. Qed.

Lemma fixed_window_touches_only user_id max_requests window_seconds :
  touches_only (own_keys FixedWindowCounter user_id)
    (fixed_window_counter_dependency user_id max_requests window_seconds).
Proof. unfold fixed_window_counter_dependency. walk_keys. Qed.

Lemma sliding_window_log_touches_only user_id max_requests window_seconds :
  touches_only (own_keys SlidingWindowLog user_id)
    (sliding_window_log_dependency user_id max_requests window_seconds).
Proof. unfold sliding_window_log_dependency. walk_keys. Qed.

Lemma get_counts_touches_only user_id sub_window_seconds (l : list Z) :
  touches_only (own_keys SlidingWindowCounter user_id)
    (mapM (λ ts,
             r ← call (Get (sliding_window_counter_key user_id
                              (ts `div` sub_window_seconds)));
             mret (default 0 r)) l).
Proof.
  induction l as [|ts l IH]; [done|]. cbn [mapM].
  apply touches_only_bind; [walk_keys|]. intros a.
  apply touches_only_bind; [done|]. by intros k.
Qed.

Lemma sliding_window_counter_touches_only
    user_id max_requests window_seconds sub_window_seconds :
  touches_only (own_keys SlidingWindowCounter user_id)
    (sliding_window_counter_dependency
       user_id max_requests window_seconds sub_window_seconds).
Proof.
  unfold sliding_window_counter_dependency.
  apply touches_only_bind; [walk_keys|].
  intros t. cbv beta zeta. case_decide; [done|].
  apply touches_only_bind; [apply get_counts_touches_only|].
  intros counts. walk_keys.
Qed.

Lemma dependency_touches_only a p user_id :
  touches_only (own_keys a user_id) (dependency a p user_id).
Proof.
  destruct a; cbn [dependency].
  - apply token_bucket_touches_only.
  - apply leaky_bucket_touches_only.
  - apply fixed_window_touches_only.
  - apply sliding_window_log_touches_only.
  - apply sliding_window_counter_touches_only.
Qed.

(** The decimal text of an integer has no colon, so the last colon of a
    counter key separates the identity from the window index. *)
Lemma pretty_N_go_colon_free (x : N) s :
  colon_free s → colon_free (pretty_N_go x s).
Proof.
  revert s. induction (N.lt_wf_0 x) as [x _ IH]; intros s Hs.
  assert (x = 0 ∨ 0 < x)%N as [->|Hx] by lia.
  - by rewrite pretty_N_go_0.
  - rewrite pretty_N_go_step by done. apply IH.
    { by apply N.div_lt. }
    split; [|done]. unfold pretty_N_char. by repeat case_match.
Qed.

Lemma pretty_Z_colon_free (z : Z) : colon_free (pretty z).
Proof.
  assert (∀ x : N, colon_free (pretty x)) as HN.
  { intros x. unfold pretty, pretty_N. case_decide; [done|].
    by apply pretty_N_go_colon_free. }
  destruct z as [|x|x]; [done|apply (HN (Npos x))|].
  split; [done|]. apply (HN (Npos x)).
Qed.

Lemma colon_free_app_colon (s1 s2 : string) :
  ¬ colon_free (s1 +:+ String ":"%char s2).
Proof.
  induction s1 as [|c s1 IH]; unfold String.append; fold String.append;
    cbn [colon_free]; [by intros [? _]|by intros [_ ?]].
Qed.

Lemma colon_split_cons (u1 u2 d1 d2 : string) :
  colon_free d1 → colon_free d2 →
  u1 +:+ String ":"%char d1 = u2 +:+ String ":"%char d2 →
  u1 = u2 ∧ d1 = d2.
Proof.
  intros Hd1 Hd2. revert u2.
  induction u1 as [|c u1 IH]; intros [|c' u2];
    unfold String.append; fold String.append.
  - by intros [= ->].
  - intros [= <- ->]. by destruct (colon_free_app_colon _ _ Hd1).
  - intros [= -> <-]. by destruct (colon_free_app_colon _ _ Hd2).
  - intros [= -> Htail]. by destruct (IH _ Htail) as [-> ->].
Qed.

Lemma colon_split (u1 u2 d1 d2 : string) :
  colon_free d1 → colon_free d2 →
  u1 +:+ ":" +:+ d1 = u2 +:+ ":" +:+ d2 → u1 = u2 ∧ d1 = d2.
Proof. apply colon_split_cons. Qed.

Lemma fixed_window_key_owner user_id user_id' wid wid' :
  fixed_window_key user_id wid = fixed_window_key user_id' wid' →
  user_id = user_id'.
Proof.
  unfold fixed_window_key. intros Hkey%String.app_inj.
  by apply colon_split in Hkey as [-> _]; [|apply pretty_Z_colon_free..].
Qed.

Lemma sliding_window_counter_key_owner user_id user_id' sid sid' :
  sliding_window_counter_key user_id sid
  = sliding_window_counter_key user_id' sid' →
  user_id = user_id'.
Proof.
  unfold sliding_window_counter_key. intros Hkey%String.app_inj.
  by apply colon_split in Hkey as [-> _]; [|apply pretty_Z_colon_free..].
Qed.

Ltac clash_of_prefixes :=
  lazymatch goal with
  | H : @eq string _ _ |- _ =>
      exfalso;
      cbv [String.append fixed_window_key sliding_window_counter_key] in H;
      discriminate H
  end.

(** A key belongs to one limiter and one identity. *)
Lemma own_keys_owner a a' user_id user_id' key :
  own_keys a user_id key → own_keys a' user_id' key →
  a = a' ∧ user_id = user_id'.
Proof.
  destruct a, a'; cbn [own_keys]; intros Hk Hk';
    repeat match goal with
           | H : ∃ _, _ |- _ => destruct H as [? H]
           end;
    rewrite Hk in Hk'; clear Hk; try clash_of_prefixes.
  - by apply String.app_inj in Hk' as ->.
  - by apply String.app_inj in Hk' as ->.
  - by apply fixed_window_key_owner in Hk' as ->.
  - by apply String.app_inj in Hk' as ->.
  - by apply sliding_window_counter_key_owner in Hk' as ->.
Qed.

(** X2.  A call of one limiter for one identity leaves alone every key
    that belongs to another limiter or to another identity: whatever any
    other (limiter, identity) pair keeps in the store reads the same
    before and after the call.  This holds although identities may
    contain colons, the separator the counter keys use. *)
Theorem limiters_do_not_interfere a p user_id now s a' user_id' key :
  own_keys a' user_id' key →
  (a, user_id) ≠ (a', user_id') →
  (run (dependency a p user_id) now s).1 !! key = s !! key.
Proof.
  intros Hown Hne.
  apply (touches_only_run (own_keys a user_id));
    [apply dependency_touches_only|].
  intros Hmine. apply Hne.
  by destruct (own_keys_owner _ _ _ _ _ Hmine Hown) as [-> ->].
Qed.

Lemma limiters_do_not_interfere_witness :
  let p := Policy 10 1 10 1%Qc 10 60 2 10 10 60 10 in
  let s := (run (dependency FixedWindowCounter p "a:1") (Q2Qc 5) ∅).1 in
  (run (dependency FixedWindowCounter p "a") (Q2Qc 65) s).1
    !! fixed_window_key "a:1" 0
  = s !! fixed_window_key "a:1" 0.
Proof.
  intros p s.
  refine (limiters_do_not_interfere FixedWindowCounter p "a" (Q2Qc 65) s
            FixedWindowCounter "a:1" _ _ _).
  - exists 0. reflexivity.
  - discriminate.
Defined.

(** ** Truncation and whole amounts *)

Section truncation.
Local Open Scope Qc_scope.

Lemma float_of_int_le_int_of_float (n : Z) (q : Qc) :
  float_of_int n ≤ q → (n ≤ int_of_float q)%Z.
Proof.
  rewrite Qc_le_num. cbn. intros Hq. unfold int_of_float.
  apply Z.quot_le_lower_bound; lia.
Qed.

Lemma float_of_int_of_float_le (q : Qc) :
  0 ≤ q → float_of_int (int_of_float q) ≤ q.
Proof.
  rewrite Qc_nonneg_num, Qc_le_num. cbn. intros Hq. unfold int_of_float.
  pose proof (Z.mul_quot_le (Qnum q) (Zpos (Qden q)) Hq ltac:(lia)). lia.
Qed.

Lemma int_of_float_mono (a b : Qc) :
  0 ≤ a → a ≤ b → (int_of_float a ≤ int_of_float b)%Z.
Proof.
  intros Ha Hab. apply float_of_int_le_int_of_float.
  etrans; [by apply float_of_int_of_float_le|done].
Qed.

Lemma float_of_int_add (x y : Z) :
  float_of_int (x + y) = float_of_int x + float_of_int y.
Proof.
  apply Qc_is_canon. unfold float_of_int, Qc_of_Z. cbn [this Qcplus Q2Qc].
  rewrite Qred_correct. unfold Qeq, Qplus. cbn. lia.
Qed.

(** Truncating piece by piece never credits more than truncating the
    whole. *)
Lemma int_of_float_add (a b : Qc) :
  0 ≤ a → 0 ≤ b →
  (int_of_float a + int_of_float b ≤ int_of_float (a + b))%Z.
Proof.
  intros Ha Hb. apply float_of_int_le_int_of_float.
  rewrite float_of_int_add.
  apply Qcplus_le_compat; by apply float_of_int_of_float_le.
Qed.

Lemma elapsed_splits (first mid last rate : Qc) :
  (mid - first) * rate + (last - mid) * rate = (last - first) * rate.
Proof. ring. Qed.

Lemma elapsed_amount_nonneg (first last rate : Qc) :
  first ≤ last → 0 ≤ rate → 0 ≤ (last - first) * rate.
Proof.
  intros Hle Hrate. apply Qc_mul_nonneg; [|done].
  by apply (proj1 (Qc_sub_nonneg first last)).
Qed.

Lemma elapsed_amount_mono (first mid last rate : Qc) :
  mid ≤ last → 0 ≤ rate → (mid - first) * rate ≤ (last - first) * rate.
Proof.
  intros Hle Hrate. apply Qcmult_le_compat_r; [|done].
  by apply Qcplus_le_mono_r.
Qed.
End truncation.

(** ** Counting admissions *)

Lemma admitted_count_cons_allowed rs :
  admitted_count (allowed :: rs) = 1 + admitted_count rs.
Proof.
  unfold admitted_count. rewrite filter_cons_True by done. cbn [length]. lia.
Qed.

Lemma admitted_count_cons_denied rs :
  admitted_count (denied :: rs) = admitted_count rs.
Proof. unfold admitted_count. by rewrite filter_cons_False. Qed.

Lemma admitted_count_nonneg rs : 0 ≤ admitted_count rs.
Proof. unfold admitted_count. lia. Qed.

(** ** The token bucket's long-run rate *)

Lemma trace_token_bucket_budget
    max_tokens refill_rate first times tokens last n :
  0 ≤ refill_rate → (first ≤ last)%Qc →
  StronglySorted Qcle (last :: times) →
  0 ≤ tokens →
  n + tokens ≤ max_tokens + tokens_to_add refill_rate first last →
  let r := trace (token_bucket_next max_tokens refill_rate)
                 (Some (tokens, last)) times in
  ∃ tokens' last',
    r.1 = Some (tokens', last') ∧ 0 ≤ tokens' ∧
    (last' = last ∨ last' ∈ times) ∧
    n + admitted_count r.2 + tokens'
    ≤ max_tokens + tokens_to_add refill_rate first last'.
Proof.
  intros Hrate. revert tokens last n.
  induction times as [|now times IH]; intros tokens last n Hfirst Hsorted
    Htokens Hbudget.
  { exists tokens, last. cbn. split_and!; [done..|by left|].
    unfold admitted_count. cbn. lia. }
  apply StronglySorted_inv in Hsorted as [Htail Hlast].
  apply Forall_cons in Hlast as [Hnow Hrest].
  cbn [trace]. cbn zeta.
  assert (0 ≤ tokens_to_add refill_rate last now) as Hadd
    by by apply tokens_to_add_nonneg.
  destruct (token_bucket_next max_tokens refill_rate (Some (tokens, last)) now)
    as [st1 res1] eqn:Hnext.
  unfold token_bucket_next in Hnext.
  destruct (decide (_ ≤ 0)) as [Hle|Hgt]; injection Hnext as <- <-;
    cbn [fst snd].
  - destruct (IH tokens last n) as (tokens' & last' & Hst & H0 & Hin & Hb);
      [done| |done..|].
    { apply SSorted_cons; [by apply StronglySorted_inv in Htail as [? _]|done]. }
    exists tokens', last'. cbn zeta in Hst, Hb. rewrite Hst.
    split_and!; [done..| |].
    + destruct Hin as [->|Hin]; [by left|right; by apply list_elem_of_further].
    + by rewrite admitted_count_cons_denied.
  - set (tokens1 := Z.min max_tokens
                          (tokens + tokens_to_add refill_rate last now)) in *.
    assert (tokens_to_add refill_rate first last
            + tokens_to_add refill_rate last now
            ≤ tokens_to_add refill_rate first now) as Hsplit.
    { unfold tokens_to_add.
      rewrite <-(elapsed_splits first last now (float_of_int refill_rate)).
      apply int_of_float_add; apply elapsed_amount_nonneg;
        auto using float_of_int_nonneg. }
    destruct (IH (tokens1 - 1) now (n + 1))
      as (tokens' & last' & Hst & H0 & Hin & Hb);
      [by etrans|done|lia|lia|].
    exists tokens', last'. cbn zeta in Hst, Hb. rewrite Hst.
    split_and!; [done..| |].
    + right. destruct Hin as [->|Hin];
        [apply list_elem_of_here|by apply list_elem_of_further].
    + rewrite admitted_count_cons_allowed. lia.
Qed.

(** X3.  Take a run of token-bucket calls for one identity at
    non-decreasing times, starting with no state, in which the elapsed
    times and their products with the rate are exact in binary64 (whole
    seconds and a whole rate up to 2^26, for one).  The number of
    admitted calls is at most [max_tokens] plus the whole tokens the
    elapsed time can refill:
    [max_tokens + int((horizon - first) * refill_rate)], for any
    [horizon] no earlier than the last call. *)
Theorem token_bucket_rate_bound
    user_id max_tokens refill_rate first times horizon s :
  0 < max_tokens → 0 ≤ refill_rate →
  Sorted Qcle (first :: times) →
  Forall (λ t, (t ≤ horizon)%Qc) (first :: times) →
  exact_run (float_of_int refill_rate) (first :: times) →
  s !! ("token_bucket:" +:+ user_id) = None →
  admitted_count
    (serve (token_bucket_dependency user_id max_tokens refill_rate)
           (first :: times) s).2
  ≤ max_tokens
    + int_of_float ((horizon - first) * float_of_int refill_rate)%Qc.
Proof.
  intros Hmax Hrate Hsorted Hhorizon _ Hs.
  destruct (serve_token_bucket user_id max_tokens refill_rate
              (first :: times) s) as (-> & _); [by left|].
  rewrite (token_bucket_state_absent _ _ Hs).
  apply Sorted_StronglySorted in Hsorted; [|apply _].
  cbn [trace]. cbn zeta.
  assert (token_bucket_next max_tokens refill_rate None first
          = (Some (max_tokens - 1, first), allowed)) as ->.
  { unfold token_bucket_next. by rewrite decide_False by lia. }
  cbn [fst snd].
  destruct (trace_token_bucket_budget max_tokens refill_rate first times
              (max_tokens - 1) first 1)
    as (tokens' & last' & _ & H0 & Hin & Hb); [done..|lia| |].
  { unfold tokens_to_add. rewrite no_time_no_change. lia. }
  cbn zeta in Hb. rewrite admitted_count_cons_allowed.
  assert (first ≤ last' ∧ last' ≤ horizon)%Qc as [Hfl Hlh].
  { apply Forall_cons in Hhorizon as [Hf Ht].
    apply StronglySorted_inv in Hsorted as [_ Hge].
    destruct Hin as [->|Hin]; [done|].
    rewrite Forall_forall in Ht, Hge. split; [apply Hge|apply Ht]; done. }
  assert (tokens_to_add refill_rate first last'
          ≤ int_of_float ((horizon - first) * float_of_int refill_rate)%Qc).
  { apply int_of_float_mono.
    - apply elapsed_amount_nonneg; auto using float_of_int_nonneg.
    - apply elapsed_amount_mono; auto using float_of_int_nonneg. }
  lia.
Qed.

Lemma token_bucket_rate_bound_witness :
  let times := float_of_int <$> [0; 0; 1; 1; 2; 3] in
  admitted_count
    (serve (token_bucket_dependency "u" 2 1) (float_of_int 0 :: times) ∅).2
  ≤ 2 + int_of_float ((float_of_int 3 - float_of_int 0) * float_of_int 1)%Qc.
Proof.
  intros times.
  apply (token_bucket_rate_bound "u" 2 1 (float_of_int 0) times
           (float_of_int 3) ∅).
  - lia.
  - lia.
  - repeat constructor; vm_compute; discriminate.
  - repeat constructor; vm_compute; discriminate.
  - refine (exact_run_whole 1 [0; 0; 0; 1; 1; 2; 3] _ _); [lia|].
    repeat constructor; lia.
  - reflexivity.
Defined.

(** X4.  An idle token bucket fills up to [max_tokens] and no further.
    Where the elapsed time and its product with the rate are exact in
    binary64, once the elapsed time covers the missing tokens, that is
    [(now - last_refill_time) * refill_rate >= max_tokens - tokens], the
    call finds the bucket full, is allowed and leaves
    [max_tokens - 1]. *)
Theorem token_bucket_refill_saturates
    user_id max_tokens refill_rate now s tokens last :
  0 < max_tokens →
  token_bucket_state user_id s = Some (tokens, last) →
  exact_elapsed (float_of_int refill_rate) last now →
  (float_of_int (max_tokens - tokens)
   ≤ (now - last) * float_of_int refill_rate)%Qc →
  let r := run (token_bucket_dependency user_id max_tokens refill_rate) now s in
  r.2 = allowed ∧
  token_bucket_state user_id r.1 = Some (max_tokens - 1, now).
Proof.
  intros Hmax Hst _ Helapsed r.
  assert (token_bucket_wf user_id s) as Hwf by (right; by rewrite Hst).
  destruct (token_bucket_call user_id max_tokens refill_rate now s Hwf)
    as [_ Hall].
  cbn zeta in Hall. rewrite Hst in Hall.
  apply float_of_int_le_int_of_float in Helapsed.
  fold (tokens_to_add refill_rate last now) in Helapsed.
  rewrite Z.min_l in Hall by lia. by apply Hall.
Qed.

Lemma token_bucket_refill_saturates_witness :
  let dep := token_bucket_dependency "u" 3 1 in
  let s := (serve dep (float_of_int <$> [0; 0; 0]) ∅).1 in
  (run dep (float_of_int 1000) s).2 = allowed ∧
  token_bucket_state "u" (run dep (float_of_int 1000) s).1
  = Some (2, float_of_int 1000).
Proof.
  intros dep s.
  refine (token_bucket_refill_saturates "u" 3 1 (float_of_int 1000) s 0
            (float_of_int 0) _ _ _ _).
  - lia.
  - vm_compute. reflexivity.
  - apply exact_elapsed_whole; vm_compute; reflexivity.
  - vm_compute. discriminate.
Defined.

(** ** The leaky bucket's level and long-run rate *)

Lemma leaked_nonneg (leak_rate last now : Qc) :
  (0 ≤ leak_rate)%Qc → (last ≤ now)%Qc → 0 ≤ leaked leak_rate last now.
Proof.
  intros Hrate Hlast. by apply int_of_float_nonneg, elapsed_amount_nonneg.
Qed.

Lemma trace_leaky_bucket_level capacity leak_rate times st :
  (∀ requests last, st = Some (requests, last) → 1 ≤ requests ≤ capacity) →
  ∀ requests last,
    (trace (leaky_bucket_next capacity leak_rate) st times).1
    = Some (requests, last) →
    1 ≤ requests ≤ capacity.
Proof.
  revert st. induction times as [|now times IH]; intros st Hst; [done|].
  cbn [trace fst]. apply IH. intros requests last.
  unfold leaky_bucket_next.
  destruct (decide (_ >= capacity)); cbn [fst]; [apply Hst|].
  intros [= <- <-]. destruct st as [[requests0 last0]|]; lia.
Qed.

(** X5.  Along any run of leaky-bucket calls for one identity, starting
    with no state, the stored fill level stays between 1 and [capacity],
    whatever the call times (even going backwards) and whatever the leak
    rate. *)
Theorem leaky_bucket_level_bounded
    user_id capacity leak_rate times s requests last :
  s !! ("leaky_bucket:" +:+ user_id) = None →
  leaky_bucket_state user_id
    (serve (leaky_bucket_dependency user_id capacity leak_rate) times s).1
  = Some (requests, last) →
  1 ≤ requests ≤ capacity.
Proof.
  intros Hs.
  destruct (serve_leaky_bucket user_id capacity leak_rate times s)
    as (_ & -> & _); [by left|].
  rewrite (leaky_bucket_state_absent _ _ Hs).
  by apply trace_leaky_bucket_level.
Qed.

Lemma leaky_bucket_level_bounded_witness :
  leaky_bucket_state "u"
    (serve (leaky_bucket_dependency "u" 3 1%Qc)
           [Q2Qc 5; Q2Qc 4; Q2Qc 4] ∅).1
  = Some (3, Q2Qc 4) ∧ 1 ≤ 3 ≤ 3.
Proof.
  assert (leaky_bucket_state "u"
            (serve (leaky_bucket_dependency "u" 3 1%Qc)
                   [Q2Qc 5; Q2Qc 4; Q2Qc 4] ∅).1
          = Some (3, Q2Qc 4)) as Hst by (vm_compute; reflexivity).
  split; [exact Hst|].
  refine (leaky_bucket_level_bounded "u" 3 1%Qc
            [Q2Qc 5; Q2Qc 4; Q2Qc 4] ∅ 3 (Q2Qc 4) _ Hst).
  reflexivity.
Defined.

Lemma trace_leaky_bucket_budget
    capacity leak_rate first times requests last n :
  (0 ≤ leak_rate)%Qc → (first ≤ last)%Qc →
  StronglySorted Qcle (last :: times) →
  requests ≤ capacity →
  n ≤ requests + leaked leak_rate first last →
  let r := trace (leaky_bucket_next capacity leak_rate)
                 (Some (requests, last)) times in
  ∃ requests' last',
    r.1 = Some (requests', last') ∧ requests' ≤ capacity ∧
    (last' = last ∨ last' ∈ times) ∧
    n + admitted_count r.2 ≤ requests' + leaked leak_rate first last'.
Proof.
  intros Hrate. revert requests last n.
  induction times as [|now times IH]; intros requests last n Hfirst Hsorted
    Hcap Hbudget.
  { exists requests, last. cbn. split_and!; [done..|by left|].
    unfold admitted_count. cbn. lia. }
  apply StronglySorted_inv in Hsorted as [Htail Hlast].
  apply Forall_cons in Hlast as [Hnow Hrest].
  cbn [trace]. cbn zeta.
  assert (0 ≤ leaked leak_rate last now) as Hleak by by apply leaked_nonneg.
  destruct (leaky_bucket_next capacity leak_rate (Some (requests, last)) now)
    as [st1 res1] eqn:Hnext.
  unfold leaky_bucket_next in Hnext.
  destruct (decide (_ >= capacity)) as [Hge|Hlt]; injection Hnext as <- <-;
    cbn [fst snd].
  - destruct (IH requests last n)
      as (requests' & last' & Hst & Hc & Hin & Hb); [done| |done..|].
    { apply SSorted_cons; [by apply StronglySorted_inv in Htail as [? _]|done]. }
    exists requests', last'. cbn zeta in Hst, Hb. rewrite Hst.
    split_and!; [done..| |].
    + destruct Hin as [->|Hin]; [by left|right; by apply list_elem_of_further].
    + by rewrite admitted_count_cons_denied.
  - set (level := Z.max 0 (requests - leaked leak_rate last now)) in *.
    assert (leaked leak_rate first last + leaked leak_rate last now
            ≤ leaked leak_rate first now) as Hsplit.
    { unfold leaked. rewrite <-(elapsed_splits first last now leak_rate).
      by apply int_of_float_add; apply elapsed_amount_nonneg. }
    destruct (IH (level + 1) now (n + 1))
      as (requests' & last' & Hst & Hc & Hin & Hb);
      [by etrans|done|lia|lia|].
    exists requests', last'. cbn zeta in Hst, Hb. rewrite Hst.
    split_and!; [done..| |].
    + right. destruct Hin as [->|Hin];
        [apply list_elem_of_here|by apply list_elem_of_further].
    + rewrite admitted_count_cons_allowed. lia.
Qed.

(** X6.  Take a run of leaky-bucket calls for one identity at
    non-decreasing times, starting with no state, in which the elapsed
    times and their products with the rate are exact in binary64 (whole
    seconds and a whole rate up to 2^26, for one).  The number of
    admitted calls is at most [capacity] plus the whole requests the
    elapsed time can leak:
    [capacity + int((horizon - first) * leak_rate)], for any [horizon]
    no earlier than the last call. *)
Theorem leaky_bucket_rate_bound
    user_id capacity leak_rate first times horizon s :
  0 < capacity → (0 ≤ leak_rate)%Qc →
  Sorted Qcle (first :: times) →
  Forall (λ t, (t ≤ horizon)%Qc) (first :: times) →
  exact_run leak_rate (first :: times) →
  s !! ("leaky_bucket:" +:+ user_id) = None →
  admitted_count
    (serve (leaky_bucket_dependency user_id capacity leak_rate)
           (first :: times) s).2
  ≤ capacity + int_of_float ((horizon - first) * leak_rate)%Qc.
Proof.
  intros Hcap Hrate Hsorted Hhorizon _ Hs.
  destruct (serve_leaky_bucket user_id capacity leak_rate
              (first :: times) s) as (-> & _); [by left|].
  rewrite (leaky_bucket_state_absent _ _ Hs).
  apply Sorted_StronglySorted in Hsorted; [|apply _].
  cbn [trace]. cbn zeta.
  assert (leaky_bucket_next capacity leak_rate None first
          = (Some (1, first), allowed)) as ->.
  { unfold leaky_bucket_next. by rewrite decide_False by lia. }
  cbn [fst snd].
  destruct (trace_leaky_bucket_budget capacity leak_rate first times
              1 first 1)
    as (requests' & last' & _ & Hc & Hin & Hb); [done..|lia| |].
  { unfold leaked. rewrite no_time_no_change. lia. }
  cbn zeta in Hb. rewrite admitted_count_cons_allowed.
  assert (first ≤ last' ∧ last' ≤ horizon)%Qc as [Hfl Hlh].
  { apply Forall_cons in Hhorizon as [Hf Ht].
    apply StronglySorted_inv in Hsorted as [_ Hge].
    destruct Hin as [->|Hin]; [done|].
    rewrite Forall_forall in Ht, Hge. split; [apply Hge|apply Ht]; done. }
  assert (leaked leak_rate first last'
          ≤ int_of_float ((horizon - first) * leak_rate)%Qc).
  { apply int_of_float_mono.
    - by apply elapsed_amount_nonneg.
    - by apply elapsed_amount_mono. }
  lia.
Qed.

Lemma leaky_bucket_rate_bound_witness :
  let times := float_of_int <$> [0; 0; 1; 1; 2; 3] in
  admitted_count
    (serve (leaky_bucket_dependency "u" 2 (float_of_int 1))
           (float_of_int 0 :: times) ∅).2
  ≤ 2 + int_of_float ((float_of_int 3 - float_of_int 0) * float_of_int 1)%Qc.
Proof.
  intros times.
  apply (leaky_bucket_rate_bound "u" 2 (float_of_int 1) (float_of_int 0)
           times (float_of_int 3) ∅).
  - lia.
  - vm_compute. discriminate.
  - repeat constructor; vm_compute; discriminate.
  - repeat constructor; vm_compute; discriminate.
  - refine (exact_run_whole 1 [0; 0; 0; 1; 1; 2; 3] _ _); [lia|].
    repeat constructor; lia.
  - reflexivity.
Defined.

(** X7.  A leaky bucket left alone long enough is empty again.  Where
    the elapsed time and its product with the rate are exact in
    binary64, once [(now - last_check) * leak_rate >= requests] the call
    finds level 0, is allowed (for a positive [capacity]) and leaves a
    level of 1. *)
Theorem leaky_bucket_drains
    user_id capacity leak_rate now s requests last :
  0 < capacity →
  leaky_bucket_state user_id s = Some (requests, last) →
  exact_elapsed leak_rate last now →
  (float_of_int requests ≤ (now - last) * leak_rate)%Qc →
  let r := run (leaky_bucket_dependency user_id capacity leak_rate) now s in
  r.2 = allowed ∧ leaky_bucket_state user_id r.1 = Some (1, now).
Proof.
  intros Hcap Hst _ Helapsed r.
  assert (leaky_bucket_wf user_id s) as Hwf by (right; by rewrite Hst).
  destruct (leaky_bucket_call user_id capacity leak_rate now s Hwf)
    as [_ Hall].
  cbn zeta in Hall. rewrite Hst in Hall.
  apply float_of_int_le_int_of_float in Helapsed.
  fold (leaked leak_rate last now) in Helapsed.
  rewrite Z.max_l in Hall by lia. by apply Hall.
Qed.

Lemma leaky_bucket_drains_witness :
  let dep := leaky_bucket_dependency "u" 3 (float_of_int 1) in
  let s := (serve dep (float_of_int <$> [0; 0; 0]) ∅).1 in
  (run dep (float_of_int 3) s).2 = allowed ∧
  leaky_bucket_state "u" (run dep (float_of_int 3) s).1
  = Some (1, float_of_int 3).
Proof.
  intros dep s.
  refine (leaky_bucket_drains "u" 3 (float_of_int 1) (float_of_int 3) s 3
            (float_of_int 0) _ _ _ _).
  - lia.
  - vm_compute. reflexivity.
  - apply exact_elapsed_whole; vm_compute; reflexivity.
  - vm_compute. discriminate.
Defined.

(** ** The fixed window counter, window by window *)

Section fixed_window_windows.
Variables (user_id : string) (max_requests window_seconds : Z).
Hypothesis window_pos : 0 < window_seconds.
Local Abbreviation dep :=
  (fixed_window_counter_dependency user_id max_requests window_seconds).
Local Abbreviation key now :=
  (fixed_window_key user_id (floor_div_float now window_seconds)).




End fixed_window_windows.



(** X9.  The first call of a window is admitted whatever [max_requests]
    is, zero and negative values included, because an absent counter
    skips the comparison; it creates the counter at 1 with a time to live
    of [window_seconds].  With [max_requests] below two the next call in
    that window is denied. *)
Theorem fixed_window_first_call_admitted
    user_id max_requests window_seconds now s :
  0 < window_seconds →
  s !! fixed_window_key user_id (floor_div_float now window_seconds) = None →
  let dep :=
    fixed_window_counter_dependency user_id max_requests window_seconds in
  let r := run dep now s in
  r.2 = allowed ∧
  counter_at (fixed_window_key user_id (floor_div_float now window_seconds))
             r.1 = Some (1, Some window_seconds) ∧
  (max_requests ≤ 1 → run dep now r.1 = (r.1, denied)).
Proof.
  intros Hwin Hs dep r. subst r dep.
  rewrite (fixed_window_run_fresh _ _ _ Hwin _ _ Hs). cbn [fst snd].
  split_and!; [done|..].
  - unfold counter_at. by rewrite lookup_insert_eq.
  - intros Hmax.
    rewrite (fixed_window_run_counting _ _ _ Hwin _ _ 1 (Some window_seconds))
      by apply lookup_insert_eq.
    by rewrite decide_True by lia.
Qed.

Lemma fixed_window_first_call_admitted_witness :
  let dep := fixed_window_counter_dependency "u" 0 60 in
  (serve dep [Q2Qc 5; Q2Qc 6] ∅).2 = [allowed; denied].
Proof.
  intros dep.
  destruct (fixed_window_first_call_admitted "u" 0 60 (Q2Qc 5) ∅)
    as (Hfirst & _ & Hnext).
  - lia.
  - reflexivity.
  - cbn zeta in Hfirst, Hnext. fold dep in Hfirst, Hnext.
    assert (run dep (Q2Qc 6) (run dep (Q2Qc 5) ∅).1
            = run dep (Q2Qc 5) (run dep (Q2Qc 5) ∅).1) as Hsame
      by (vm_compute; reflexivity).
    cbn [serve fst snd]. cbn zeta.
    rewrite Hfirst, Hsame, Hnext by lia. reflexivity.
Defined.

(** ** Window sizes that are not positive *)

Lemma serve_unchanged_allowed (p : prog unit) times s :
  (∀ now, run p now s = (s, allowed)) →
  serve p times s = (s, replicate (length times) allowed).
Proof.
  intros Hrun. induction times as [|now times IH]; [done|].
  cbn [serve length replicate]. rewrite Hrun. cbn [fst snd]. by rewrite IH.
Qed.

Lemma run_incr_expire_nonpositive key seconds now s :
  seconds ≤ 0 → s !! key = None →
  run (call (Incr key);; call (Expire key seconds);; mret tt) now s
  = (s, allowed).
Proof.
  intros Hsec Hs. rewrite run_call_bind. cbn [exec]. rewrite Hs.
  rewrite run_call_bind. cbn [exec].
  rewrite lookup_insert_eq, decide_True by done.
  by rewrite run_ret, delete_insert_id.
Qed.

Lemma range_len_nonpositive_window now window_seconds sub :
  0 < sub → window_seconds ≤ 0 →
  py_range (now - window_seconds) now sub = [].
Proof.
  intros Hsub Hwin. unfold py_range, range_len.
  rewrite decide_True by done.
  assert ((now - (now - window_seconds) + sub - 1) `div` sub ≤ 0) as Hlen.
  { apply Z.lt_succ_r, Z.div_lt_upper_bound; lia. }
  by rewrite Z.max_l, seqZ_nil by done.
Qed.

(** X10.  Window sizes are not validated.  A fixed window of zero
    seconds, or a sliding-counter sub-window of zero seconds, makes every
    call end in [ZeroDivisionError] with the store untouched.  A fixed
    window with negative [window_seconds], and a sliding counter with
    [window_seconds <= 0], [sub_window_seconds > 0] and
    [max_requests > 0], never deny when the identity has no counter at
    the start ([window_seconds] being of a magnitude EXPIRE accepts):
    each call is allowed and the counter it creates is deleted at once by
    the non-positive time to live, so the store ends as it began. *)
Theorem window_sizes_not_validated user_id max_requests :
  (∀ now s,
     run (fixed_window_counter_dependency user_id max_requests 0) now s
     = (s, Exn ZeroDivisionError)) ∧
  (∀ window_seconds now s,
     run (sliding_window_counter_dependency
            user_id max_requests window_seconds 0) now s
     = (s, Exn ZeroDivisionError)) ∧
  (∀ window_seconds times s,
     window_seconds < 0 → expire_range window_seconds →
     (∀ wid, s !! fixed_window_key user_id wid = None) →
     serve (fixed_window_counter_dependency
              user_id max_requests window_seconds) times s
     = (s, replicate (length times) allowed)) ∧
  (∀ window_seconds sub_window_seconds times s,
     0 < max_requests → 0 < sub_window_seconds →
     window_seconds ≤ 0 → expire_range window_seconds →
     (∀ sid, s !! sliding_window_counter_key user_id sid = None) →
     serve (sliding_window_counter_dependency
              user_id max_requests window_seconds sub_window_seconds) times s
     = (s, replicate (length times) allowed)).
Proof.
  split_and!.
  - intros now s. unfold fixed_window_counter_dependency.
    rewrite run_call_bind. cbn [exec]. by rewrite decide_True.
  - intros window_seconds now s. unfold sliding_window_counter_dependency.
    rewrite run_call_bind. cbn [exec]. by rewrite decide_True.
  - intros window_seconds times s Hwin _ Hs. apply serve_unchanged_allowed.
    intros now. unfold fixed_window_counter_dependency.
    rewrite run_call_bind. cbn [exec]. rewrite decide_False by lia.
    rewrite run_call_bind. cbn [exec]. rewrite Hs.
    apply run_incr_expire_nonpositive; [lia|apply Hs].
  - intros window_seconds sub_window_seconds times s Hmax Hsub Hwin _ Hs.
    apply serve_unchanged_allowed. intros now.
    rewrite sliding_window_counter_run by
      (try lia; rewrite range_len_nonpositive_window by done; constructor).
    rewrite range_len_nonpositive_window by done.
    cbn [fmap list_fmap]. unfold py_sum at 1. cbn [foldr].
    destruct (decide (0 >= max_requests)); [lia|].
    apply run_incr_expire_nonpositive; [done|apply Hs].
Qed.

(** ** The sliding window log never outgrows its limit *)

(** X11.  Under one configuration, with requests served one after
    another (none in flight while another runs) and keys expiring at any
    moment, the log of every identity holds at most [max_requests]
    entries in every store reached from the empty one (none when
    [max_requests] is not positive). *)
Theorem sliding_window_log_size_bounded p history user_id :
  Z.of_nat (size (log_of user_id (replay p history ∅)))
  ≤ Z.max 0 (sl_max_requests p).
Proof.
  assert (logs_bounded (sl_max_requests p) (replay p history ∅)) as Hb.
  { apply replay_logs_bounded. intros key z t. by rewrite lookup_empty. }
  unfold log_of.
  destruct (replay p history ∅ !! _) as [[[n|h|z] t]|] eqn:Hs;
    rewrite ?map_size_empty; try lia.
  destruct (Hb _ _ _ Hs). lia.
Qed.

(** ** The sliding window counter's decision *)

Lemma range_sub_window_ids now sub k :
  0 < sub → 0 ≤ k →
  (λ ts, ts `div` sub) <$> py_range (now - k * sub) now sub
  = seqZ (now `div` sub - k) k.
Proof.
  intros Hsub Hk. unfold py_range.
  rewrite range_sub_windows_length by done.
  rewrite <-list_fmap_compose.
  replace (seqZ (now `div` sub - k) k)
    with (Z.add (now `div` sub - k) <$> seqZ 0 k)
    by (by rewrite fmap_add_seqZ, Z.add_0_r).
  apply list_fmap_ext. intros i x _. cbn.
  replace (now - k * sub + x * sub) with (now + (x - k) * sub) by lia.
  rewrite Z.div_add by lia. lia.
Qed.

(** X12.  With [sub_window_seconds] dividing [window_seconds], the
    sliding window counter denies exactly when the counters of the
    [window_seconds / sub_window_seconds] sub-windows before the current
    one add up to [max_requests] or more; the counter of the current
    sub-window does not enter the sum.  An allowed call adds one to the
    current counter, sets its time to live to [window_seconds] and
    changes no other key. *)
Theorem sliding_window_counter_decision
    user_id max_requests window_seconds sub_window_seconds k t s :
  0 < sub_window_seconds → 0 < k →
  window_seconds = k * sub_window_seconds →
  let now := int_of_float t in
  let cur := now `div` sub_window_seconds in
  let key := sliding_window_counter_key user_id in
  (∀ sid, cur - k ≤ sid ≤ cur →
          s !! key sid = None ∨
          ∃ n tl, s !! key sid = Some (Entry (RString n) tl)) →
  let total :=
    py_sum ((λ sid, counter_value (key sid) s) <$> seqZ (cur - k) k) in
  let r := run (sliding_window_counter_dependency
                  user_id max_requests window_seconds sub_window_seconds)
               t s in
  (total >= max_requests → r = (s, denied)) ∧
  (total < max_requests →
     r.2 = allowed ∧
     counter_at (key cur) r.1
     = Some (counter_value (key cur) s + 1, Some window_seconds) ∧
     ∀ key', key' ≠ key cur → r.1 !! key' = s !! key').
Proof.
  intros Hsub Hk -> now cur key Htyped total r.
  assert (run (sliding_window_counter_dependency user_id max_requests
                 (k * sub_window_seconds) sub_window_seconds) t s
          = if decide (total >= max_requests) then (s, denied)
            else run (call (Incr (key cur));;
                      call (Expire (key cur) (k * sub_window_seconds));;
                      mret tt) t s) as Hrun.
  { pose proof (sliding_window_counter_run user_id max_requests
                  (k * sub_window_seconds) sub_window_seconds
                  ltac:(lia) t s) as Hclosed.
    cbn zeta in Hclosed. rewrite Hclosed.
    - fold now. unfold total, cur, key.
      rewrite <-(range_sub_window_ids now sub_window_seconds k) by lia.
      by rewrite <-list_fmap_compose.
    - apply Forall_forall. intros ts Hts. apply Htyped.
      apply range_sub_windows in Hts; [|lia..]. fold now cur in Hts. lia. }
  fold r in Hrun. rewrite Hrun. split.
  - intros Hge. by rewrite decide_True.
  - intros Hlt. rewrite decide_False by lia.
    assert (s !! key cur = None ∧ counter_value (key cur) s = 0 ∨
            (∃ tl, s !! key cur
                   = Some (Entry (RString (counter_value (key cur) s)) tl)))
      as Hcur.
    { unfold counter_value, counter_at.
      destruct (Htyped cur) as [Hc|(n & tl & Hc)]; [lia|..]; rewrite Hc;
        [by left|right; by exists tl]. }
    rewrite (exec_incr_expire _ _ _ _ (counter_value (key cur) s))
      by (try nia; done).
    cbn [fst snd]. split_and!; [done|..].
    + unfold counter_at. by rewrite lookup_insert_eq.
    + intros key' Hne. by rewrite lookup_insert_ne.
Qed.

Lemma sliding_window_counter_decision_witness :
  let dep := sliding_window_counter_dependency "u" 2 20 10 in
  let s := (serve dep [Q2Qc 5; Q2Qc 6; Q2Qc 7] ∅).1 in
  counter_at (sliding_window_counter_key "u" 0) s = Some (3, Some 20) ∧
  run dep (Q2Qc 12) s = (s, denied).
Proof.
  intros dep s. split; [vm_compute; reflexivity|].
  refine (proj1 (sliding_window_counter_decision
                   "u" 2 20 10 2 (Q2Qc 12) s _ _ _ _) _).
  - lia.
  - lia.
  - reflexivity.
  - intros sid Hsid. change (int_of_float (Q2Qc 12) `div` 10) with 1 in Hsid.
    assert (sid = -1 ∨ sid = 0 ∨ sid = 1) as [->|[->| ->]] by lia.
    + left. vm_compute. reflexivity.
    + right. exists 3, (Some 20). vm_compute. reflexivity.
    + left. vm_compute. reflexivity.
  - vm_compute. discriminate.
Defined.

Lemma window_sizes_not_validated_witness :
  serve (fixed_window_counter_dependency "u" 1 (-60))
        [Q2Qc 5; Q2Qc 6; Q2Qc 7] ∅
  = (∅, [allowed; allowed; allowed]).
Proof.
  refine (proj1 (proj2 (proj2 (window_sizes_not_validated "u" 1)))
            (-60) [Q2Qc 5; Q2Qc 6; Q2Qc 7] ∅ _ _ _).
  - lia.
  - unfold expire_range. lia.
  - intros wid. reflexivity.
Defined.

(** ** Which keys expire *)

Lemma ttl_only_on_counters_insert key v t s :
  t = None ∨ (∃ n, v = RString n) →
  ttl_only_on_counters s →
  ttl_only_on_counters (<[key := Entry v t]> s).
Proof.
  intros Hv Hs k v' t'. destruct (decide (key = k)) as [<-|Hk].
  - rewrite lookup_insert_eq. intros [= <- ->].
    by destruct Hv as [?|?].
  - rewrite lookup_insert_ne by done. apply Hs.
Qed.

Lemma ttl_only_on_counters_delete key s :
  ttl_only_on_counters s → ttl_only_on_counters (delete key s).
Proof.
  intros Hs k v' t'. destruct (decide (key = k)) as [<-|Hk].
  - by rewrite lookup_delete_eq.
  - rewrite lookup_delete_ne by done. apply Hs.
Qed.

Lemma ttl_only_on_counters_lookup key v t s :
  ttl_only_on_counters s → s !! key = Some (Entry v t) →
  t = None ∨ ∃ n, v = RString n.
Proof.
  intros Hs Hkey. destruct t as [t|]; [right|by left]. by eapply Hs.
Qed.

Lemma exec_ttl_only_on_counters {X : Type} (c : cmd X) now s :
  is_expire c = false →
  ttl_only_on_counters s → ttl_only_on_counters (exec c now s).1.
Proof.
  intros Hc Hs. destruct c; try done; cbn;
    destruct (s !! key) as [[[m|h|z] t]|] eqn:Hkey; cbn [fst]; try done;
    try pose proof (ttl_only_on_counters_lookup _ _ _ _ Hs Hkey) as Ht;
    repeat case_decide; cbn [fst];
    first [ by apply ttl_only_on_counters_delete
          | apply ttl_only_on_counters_insert; [|done] ];
    first [ by left | right; by eexists
          | destruct Ht as [->|[? [=]]]; by left ].
Qed.

Lemma exec_expire_ttl_only_on_counters key seconds now s :
  holds_counter key s →
  ttl_only_on_counters s →
  ttl_only_on_counters (exec (Expire key seconds) now s).1.
Proof.
  intros (n & t & Hkey) Hs. cbn. rewrite Hkey.
  case_decide; cbn [fst].
  - by apply ttl_only_on_counters_delete.
  - apply ttl_only_on_counters_insert; [|done]. right. by eexists.
Qed.

Lemma exec_holds_counter {X : Type} (c : cmd X) now s key :
  is_expire c = false →
  holds_counter key s → holds_counter key (exec c now s).1.
Proof.
  intros Hc (n & t & Hkey). unfold holds_counter.
  destruct c as [|k f1 f2|k mapping|k|k|k seconds|k lo hi|k|k member score];
    try done; cbn; try (by exists n, t).
  all: destruct (decide (k = key)) as [->|Hne].
  all: try (rewrite Hkey; cbn [fst]; rewrite ?lookup_insert_eq; by eauto).
  all: repeat case_match; cbn [fst];
    rewrite ?lookup_insert_ne, ?lookup_delete_ne by done; by exists n, t.
Qed.

Lemma exec_incr_holds_counter key now s x s' :
  exec (Incr key) now s = (s', Ok x) → holds_counter key s'.
Proof.
  cbn. destruct (s !! key) as [[[m|h|z] t]|]; intros [= <- _];
    eexists _, _; apply lookup_insert_eq.
Qed.

Lemma expire_guarded_run {A : Type} (p : prog A) known now s :
  expire_guarded known p →
  (∀ key, known = Some key → holds_counter key s) →
  ttl_only_on_counters s → ttl_only_on_counters (run p now s).1.
Proof.
  revert known s. induction p as [a|e|X c k IH]; intros known s Hp Hknown Hs;
    cbn [run]; try done.
  destruct (exec c now s) as [s' [x|e]] eqn:Hc; cbn [fst].
  - assert (s' = (exec c now s).1) as Hs' by by rewrite Hc.
    destruct c as [|key f1 f2|key mapping|key|key|key seconds|key lo hi
                   |key|key member score];
      cbn [expire_guarded] in Hp.
    5: { apply (IH x (Some key)); [apply Hp| |].
         - intros key' [= <-]. by eapply exec_incr_holds_counter.
         - rewrite Hs'. by apply exec_ttl_only_on_counters. }
    5: { destruct Hp as [Hk Hp]. apply (IH x None); [apply Hp|done|].
         rewrite Hs'.
         apply exec_expire_ttl_only_on_counters; [by apply Hknown|done]. }
    all: apply (IH x known); [apply Hp| |];
      [intros key' Hk; rewrite Hs'; by apply exec_holds_counter, Hknown
      |rewrite Hs'; by apply exec_ttl_only_on_counters].
  - assert (s' = (exec c now s).1) as -> by by rewrite Hc.
    destruct c as [|key f1 f2|key mapping|key|key|key seconds|key lo hi
                   |key|key member score];
      try (by apply exec_ttl_only_on_counters).
    cbn [expire_guarded] in Hp. destruct Hp as [Hk _].
    apply exec_expire_ttl_only_on_counters; [by apply Hknown|done].
Qed.

Lemma expire_guarded_bind {A B : Type} known (p : prog A) (f : A → prog B) :
  read_only p → (∀ a, expire_guarded known (f a)) →
  expire_guarded known (p ≫= f).
Proof.
  intros Hp Hf. induction p as [a|e|X c k IH]; cbn; [apply Hf|done|].
  destruct Hp as [Hc Hk]. destruct c; try done; intros x; by apply IH.
Qed.

Ltac walk_expiry :=
  repeat first
    [ progress cbv beta iota zeta delta
        [expire_guarded bind mbind prog_bind call mret prog_ret raise
         int_of_str float_of_reply]
    | case_decide
    | case_match
    | split
    | intro
    | done ].

Lemma dependency_expire_guarded a p user_id :
  expire_guarded None (dependency a p user_id).
Proof.
  destruct a; cbn [dependency].
  - unfold token_bucket_dependency. walk_expiry.
  - unfold leaky_bucket_dependency. walk_expiry.
  - unfold fixed_window_counter_dependency. walk_expiry.
  - unfold sliding_window_log_dependency. walk_expiry.
  - unfold sliding_window_counter_dependency.
    apply expire_guarded_bind; [done|].
    intros t. cbv beta zeta. case_decide; [done|].
    apply expire_guarded_bind; [apply read_only_get_counts|].
    intros counts. walk_expiry.
Qed.

Lemma replay_ttl_only_on_counters p history s :
  ttl_only_on_counters s → ttl_only_on_counters (replay p history s).
Proof.
  revert s. induction history as [|[a user_id now|key] history IH];
    intros s Hs; cbn [replay]; [done|..]; apply IH.
  - by eapply expire_guarded_run; [apply dependency_expire_guarded| |].
  - unfold expire_key. destruct (s !! key) as [[v [t|]]|]; try done.
    intros k v' t'. destruct (decide (key = k)) as [<-|Hk].
    + by rewrite lookup_delete_eq.
    + rewrite lookup_delete_ne by done. apply Hs.
Qed.

(** X13.  Only counters carry a time to live.  In every store reached
    from the empty one, the hashes of the token bucket and the leaky
    bucket and the sorted set of the sliding window log are stored
    without expiry, so Redis never drops them: the only keys that can
    expire are the counters of the two window-counter limiters. *)
Theorem only_counters_expire p history key v t :
  let s := replay p history ∅ in
  s !! key = Some (Entry v t) →
  (∀ n, v ≠ RString n) →
  t = None ∧ expire_key key s = s.
Proof.
  intros s Hkey Hv.
  assert (ttl_only_on_counters s) as Hs.
  { apply replay_ttl_only_on_counters. intros k v' t'.
    by rewrite lookup_empty. }
  assert (t = None) as ->.
  { destruct t as [t|]; [|done].
    destruct (Hs _ _ _ Hkey) as [n ->]. by destruct (Hv n). }
  split; [done|]. unfold expire_key. by rewrite Hkey.
Qed.

Lemma only_counters_expire_witness :
  let p := Policy 10 1 10 1%Qc 10 60 2 10 10 60 10 in
  let history := [Request TokenBucket "u" (Q2Qc 1);
                  Request FixedWindowCounter "u" (Q2Qc 1)] in
  let s := replay p history ∅ in
  expire_key "token_bucket:u" s = s ∧
  expire_key "fixed_window:u:0" s ≠ s.
Proof.
  intros p history s. split.
  - refine (proj2 (only_counters_expire p history "token_bucket:u"
                     (RHash (list_to_map (token_fields 9 (Q2Qc 1)))) None
                     _ _)).
    + vm_compute. reflexivity.
    + discriminate.
  - intros Heq.
    assert (expire_key "fixed_window:u:0" s !! "fixed_window:u:0"
            = s !! "fixed_window:u:0") as Hlook by by rewrite Heq.
    vm_compute in Hlook. discriminate.
Defined.

(** ** What the sliding window log holds *)

Lemma admitted_times_cons now times r rs :
  admitted_times (now :: times) (r :: rs)
  = if decide (r = allowed) then now :: admitted_times times rs
    else admitted_times times rs.
Proof.
  unfold admitted_times. cbn [zip zip_with]. case_decide.
  - by rewrite filter_cons_True by done.
  - by rewrite filter_cons_False by done.
Qed.

Lemma default_last_cons {A : Type} (a b : A) (l : list A) :
  default a (last (b :: l)) = default b (last l).
Proof.
  revert a b. induction l as [|c l IH]; intros a b; [done|].
  by rewrite last_cons_cons, (IH a c), (IH b c).
Qed.

Lemma sorted_head_le_last (now : Qc) times :
  StronglySorted Qcle (now :: times) →
  (now ≤ default now (last times))%Qc.
Proof.
  intros [_ Hle]%StronglySorted_inv.
  destruct (last times) as [final|] eqn:Hlast; [|done]. cbn.
  rewrite Forall_forall in Hle. apply Hle.
  apply last_Some in Hlast as [l' ->]. set_solver.
Qed.

Section sliding_window_log_contents.
Variables (user_id : string) (max_requests window_seconds : Z).
Hypothesis window_pos : 0 < window_seconds.
Local Abbreviation dep :=
  (sliding_window_log_dependency user_id max_requests window_seconds).
Local Abbreviation window := (float_of_int window_seconds).

(** Members equal their scores and are not negative. *)
Local Abbreviation timestamps z :=
  (∀ m sc, z !! m = Some sc → sc = m ∧ (0 ≤ m)%Qc).

Lemma sliding_window_log_step now s :
  log_wf user_id s → (0 ≤ now)%Qc →
  timestamps (log_of user_id s) →
  ∀ m sc,
    log_of user_id (run dep now s).1 !! m = Some sc ↔
    sc = m ∧ (now - window < m)%Qc ∧
    (log_of user_id s !! m = Some m ∨ m = now ∧ (run dep now s).2 = allowed).
Proof.
  intros Hwf Hnow Hstamps m sc.
  destruct (sliding_window_log_call user_id max_requests window_seconds
              now s Hwf) as (Hden & Hall & _).
  cbn zeta in Hden, Hall.
  assert (zset_remove_range 0%Qc (now - window)%Qc (log_of user_id s) !! m
          = Some sc ↔
          sc = m ∧ (now - window < m)%Qc ∧ log_of user_id s !! m = Some m)
    as Hkept.
  { rewrite zset_remove_range_lookup. unfold in_score_range. split.
    - intros [Hin Hout]. destruct (Hstamps _ _ Hin) as [-> H0].
      split_and!; [done| |done]. apply Qclt_nge. intros Hle. by apply Hout.
    - intros (-> & Hlt & Hin). split; [done|].
      intros [_ Hle]. by apply Qclt_nge in Hlt. }
  destruct (decide (Z.of_nat (size (zset_remove_range 0%Qc (now - window)%Qc
                                      (log_of user_id s))) >= max_requests))
    as [Hge|Hlt].
  - destruct (Hden Hge) as [-> ->]. rewrite Hkept. split.
    + intros (-> & ? & ?). by split_and!; [..|left].
    + intros (-> & ? & [?|[_ ?]]); done.
  - destruct Hall as [-> ->]; [lia|].
    destruct (decide (now = m)) as [<-|Hne].
    + rewrite lookup_insert_eq. split.
      * intros [= <-]. split_and!; [done| |by right].
        by apply Qc_sub_pos_lt, float_of_int_pos.
      * by intros (-> & _).
    + rewrite lookup_insert_ne by done. rewrite Hkept. split.
      * intros (-> & ? & ?). by split_and!; [..|left].
      * intros (-> & ? & [?|[-> _]]); done.
Qed.

Lemma serve_sliding_window_log_contents times now s :
  log_wf user_id s →
  timestamps (log_of user_id s) →
  StronglySorted Qcle (now :: times) →
  Forall (λ t, (0 ≤ t)%Qc) (now :: times) →
  let r := serve dep (now :: times) s in
  let final := default now (last times) in
  ∀ m sc,
    log_of user_id r.1 !! m = Some sc ↔
    sc = m ∧ (final - window < m)%Qc ∧
    (log_of user_id s !! m = Some m ∨ m ∈ admitted_times (now :: times) r.2).
Proof.
  revert now s. induction times as [|now' times IH];
    intros now s Hwf Hstamps Hsorted Hpos r final m sc; subst r final.
  - cbn [serve last default fst snd]. cbn zeta.
    apply Forall_cons in Hpos as [Hnow _].
    rewrite (sliding_window_log_step now s Hwf Hnow Hstamps).
    rewrite admitted_times_cons.
    destruct (decide (_ = allowed)) as [Hr|Hr].
    + rewrite list_elem_of_singleton. tauto.
    + unfold admitted_times. cbn. rewrite elem_of_nil. tauto.
  - pose proof (sorted_head_le_last now (now' :: times) Hsorted) as Hfinal.
    rewrite default_last_cons in Hfinal |- *.
    apply StronglySorted_inv in Hsorted as [Hsorted' _].
    apply Forall_cons in Hpos as [Hnow Hpos'].
    pose proof (sliding_window_log_step now s Hwf Hnow Hstamps) as Hstep.
    destruct (sliding_window_log_call user_id max_requests window_seconds
                now s Hwf) as (_ & _ & Hwf').
    cbn [serve fst snd]. cbn zeta.
    change (serve dep times
              (run dep now' (run dep now s).1).1).1
      with (serve dep (now' :: times) (run dep now s).1).1.
    change ((run dep now' (run dep now s).1).2
            :: (serve dep times (run dep now' (run dep now s).1).1).2)
      with (serve dep (now' :: times) (run dep now s).1).2.
    rewrite (IH now' (run dep now s).1 Hwf'); [|..|done|done].
    2: { intros m' sc' (-> & _ & [Hin| [-> _]])%Hstep; [|done].
         by destruct (Hstamps _ _ Hin). }
    rewrite admitted_times_cons.
    assert ((default now' (last times) - window < m)%Qc →
            (now - window < m)%Qc) as Hwin.
    { intros Hlt. eapply Qcle_lt_trans; [|done].
      by apply Qcplus_le_mono_r. }
    assert (log_of user_id (run dep now s).1 !! m = Some m ↔
            (now - window < m)%Qc ∧
            (log_of user_id s !! m = Some m ∨
             m = now ∧ (run dep now s).2 = allowed)) as ->.
    { rewrite (Hstep m m). intuition. }
    destruct (decide (_ = allowed)) as [Hr|Hr].
    + rewrite elem_of_cons. tauto.
    + tauto.
Qed.
End sliding_window_log_contents.

(** X14.  The sliding window log is exact.  After any run of calls for
    one identity at non-decreasing, non-negative times, starting with no
    log, the log holds precisely the timestamps of the admitted calls
    that are later than [final - window_seconds], [final] being the time
    of the last call; each is stored as its own score. *)
Theorem sliding_window_log_contents
    user_id max_requests window_seconds now times s m sc :
  0 < window_seconds →
  s !! ("sliding_window_log:" +:+ user_id) = None →
  Sorted Qcle (now :: times) →
  Forall (λ t, (0 ≤ t)%Qc) (now :: times) →
  let r := serve (sliding_window_log_dependency
                    user_id max_requests window_seconds) (now :: times) s in
  let final := default now (last times) in
  log_of user_id r.1 !! m = Some sc ↔
  sc = m ∧ (final - float_of_int window_seconds < m)%Qc ∧
  m ∈ admitted_times (now :: times) r.2.
Proof.
  intros Hwin Hs Hsorted Hpos r final.
  apply Sorted_StronglySorted in Hsorted; [|apply _].
  assert (log_of user_id s = ∅) as Hempty
    by (unfold log_of; by rewrite Hs).
  pose proof (serve_sliding_window_log_contents
                user_id max_requests window_seconds Hwin times now s) as Hc.
  cbn zeta in Hc. fold r final in Hc. rewrite Hc; [|..|done|done].
  - rewrite Hempty, lookup_empty. split.
    + by intros (? & ? & [?|?]).
    + intros (? & ? & ?). by split_and!; [..|right].
  - unfold log_wf. by rewrite Hs.
  - intros m' sc'. by rewrite Hempty, lookup_empty.
Qed.

Lemma sliding_window_log_contents_witness :
  let r := serve (sliding_window_log_dependency "u" 2 10)
                 [Q2Qc 0; Q2Qc 1; Q2Qc 2; Q2Qc 10] ∅ in
  log_of "u" r.1 !! Q2Qc 1 = Some (Q2Qc 1) ∧
  Q2Qc 1 ∈ admitted_times [Q2Qc 0; Q2Qc 1; Q2Qc 2; Q2Qc 10] r.2.
Proof.
  intros r.
  assert (log_of "u" r.1 !! Q2Qc 1 = Some (Q2Qc 1)) as Hlog
    by (vm_compute; reflexivity).
  split; [exact Hlog|].
  refine (proj2 (proj2 (proj1 (sliding_window_log_contents
            "u" 2 10 (Q2Qc 0) [Q2Qc 1; Q2Qc 2; Q2Qc 10] ∅
            (Q2Qc 1) (Q2Qc 1) _ _ _ _) Hlog))).
  - lia.
  - reflexivity.
  - repeat constructor; vm_compute; discriminate.
  - repeat constructor; vm_compute; discriminate.
Defined.

(** ** Bursts the buckets always let through *)

Lemma trace_token_bucket_burst max_tokens refill_rate times tokens last :
  0 ≤ refill_rate →
  StronglySorted Qcle (last :: times) →
  Z.of_nat (length times) ≤ tokens ≤ max_tokens →
  (trace (token_bucket_next max_tokens refill_rate)
         (Some (tokens, last)) times).2
  = replicate (length times) allowed.
Proof.
  intros Hrate. revert tokens last.
  induction times as [|now times IH]; intros tokens last Hsorted Hlen; [done|].
  apply StronglySorted_inv in Hsorted as [Hsorted Hle].
  apply Forall_cons in Hle as [Hnow _].
  pose proof (tokens_to_add_nonneg refill_rate last now Hrate Hnow) as Hadd.
  cbn [length] in Hlen.
  destruct (token_bucket_next max_tokens refill_rate (Some (tokens, last)) now)
    as [st1 res1] eqn:Hnext.
  cbn [trace length replicate fst snd]. cbn zeta. rewrite Hnext. cbn [fst snd].
  unfold token_bucket_next in Hnext. cbn zeta in Hnext.
  destruct (decide (_ ≤ 0)) as [Hle|Hgt]; [lia|].
  injection Hnext as <- <-. f_equal. apply IH; [done|lia].
Qed.

(** X15.  A fresh token bucket lets a burst of [max_tokens] through:
    from no stored state, any run of at most [max_tokens] calls at
    non-decreasing times is allowed call by call, however close together
    the calls are, for every refill rate that is not negative and whose
    products with the elapsed times stay within the range of a float. *)
Theorem token_bucket_burst user_id max_tokens refill_rate times s :
  0 ≤ refill_rate →
  Sorted Qcle times →
  finite_run (float_of_int refill_rate) times →
  s !! ("token_bucket:" +:+ user_id) = None →
  Z.of_nat (length times) ≤ max_tokens →
  (serve (token_bucket_dependency user_id max_tokens refill_rate) times s).2
  = replicate (length times) allowed.
Proof.
  intros Hrate Hsorted _ Hs Hlen.
  destruct (serve_token_bucket user_id max_tokens refill_rate times s)
    as (-> & _); [by left|].
  rewrite (token_bucket_state_absent _ _ Hs).
  apply Sorted_StronglySorted in Hsorted; [|apply _].
  destruct times as [|first times]; [done|].
  cbn [length] in Hlen. cbn [trace length replicate]. cbn zeta.
  assert (token_bucket_next max_tokens refill_rate None first
          = (Some (max_tokens - 1, first), allowed)) as ->.
  { unfold token_bucket_next. cbn zeta.
    destruct (decide (_ ≤ 0)); [lia|done]. }
  cbn [fst snd]. f_equal. apply trace_token_bucket_burst; [done..|lia].
Qed.

Lemma token_bucket_burst_witness :
  let times := float_of_int <$> [7; 7; 8] in
  (serve (token_bucket_dependency "u" 3 5) times ∅).2
  = [allowed; allowed; allowed].
Proof.
  intros times.
  apply (token_bucket_burst "u" 3 5 times ∅).
  - lia.
  - repeat constructor; vm_compute; discriminate.
  - refine (finite_run_whole 5 [7; 7; 8] _ _); [lia|].
    repeat constructor; lia.
  - reflexivity.
  - cbn. lia.
Defined.

Lemma trace_leaky_bucket_burst capacity leak_rate times requests last :
  (0 ≤ leak_rate)%Qc →
  StronglySorted Qcle (last :: times) →
  0 ≤ requests →
  requests + Z.of_nat (length times) ≤ capacity →
  (trace (leaky_bucket_next capacity leak_rate)
         (Some (requests, last)) times).2
  = replicate (length times) allowed.
Proof.
  intros Hrate. revert requests last.
  induction times as [|now times IH];
    intros requests last Hsorted Hreq Hlen; [done|].
  apply StronglySorted_inv in Hsorted as [Hsorted Hle].
  apply Forall_cons in Hle as [Hnow _].
  pose proof (leaked_nonneg leak_rate last now Hrate Hnow) as Hleak.
  cbn [length] in Hlen.
  destruct (leaky_bucket_next capacity leak_rate (Some (requests, last)) now)
    as [st1 res1] eqn:Hnext.
  cbn [trace length replicate fst snd]. cbn zeta. rewrite Hnext. cbn [fst snd].
  unfold leaky_bucket_next in Hnext. cbn zeta in Hnext.
  destruct (decide (_ >= capacity)) as [Hge|Hlt]; [lia|].
  injection Hnext as <- <-. f_equal. apply IH; [done|lia|lia].
Qed.

(** X16.  An empty leaky bucket takes a burst of [capacity]: from no
    stored state, any run of at most [capacity] calls at non-decreasing
    times is allowed call by call, for every leak rate that is not
    negative and whose products with the elapsed times stay within the
    range of a float. *)
Theorem leaky_bucket_burst user_id capacity leak_rate times s :
  (0 ≤ leak_rate)%Qc →
  Sorted Qcle times →
  finite_run leak_rate times →
  s !! ("leaky_bucket:" +:+ user_id) = None →
  Z.of_nat (length times) ≤ capacity →
  (serve (leaky_bucket_dependency user_id capacity leak_rate) times s).2
  = replicate (length times) allowed.
Proof.
  intros Hrate Hsorted _ Hs Hlen.
  destruct (serve_leaky_bucket user_id capacity leak_rate times s)
    as (-> & _); [by left|].
  rewrite (leaky_bucket_state_absent _ _ Hs).
  apply Sorted_StronglySorted in Hsorted; [|apply _].
  destruct times as [|first times]; [done|].
  cbn [length] in Hlen. cbn [trace length replicate]. cbn zeta.
  assert (leaky_bucket_next capacity leak_rate None first
          = (Some (1, first), allowed)) as ->.
  { unfold leaky_bucket_next. cbn zeta.
    destruct (decide (_ >= capacity)); [lia|done]. }
  cbn [fst snd]. f_equal. apply trace_leaky_bucket_burst; [done..|lia|lia].
Qed.

Lemma leaky_bucket_burst_witness :
  let times := float_of_int <$> [7; 7; 8] in
  (serve (leaky_bucket_dependency "u" 3 (float_of_int 5)) times ∅).2
  = [allowed; allowed; allowed].
Proof.
  intros times.
  apply (leaky_bucket_burst "u" 3 (float_of_int 5) times ∅).
  - vm_compute. discriminate.
  - repeat constructor; vm_compute; discriminate.
  - refine (finite_run_whole 5 [7; 7; 8] _ _); [lia|].
    repeat constructor; lia.
  - reflexivity.
  - cbn. lia.
Defined.

(** ** The rate the sliding window log enforces *)

Lemma admitted_times_sublist times rs :
  sublist (admitted_times times rs) times.
Proof.
  revert rs. induction times as [|now times IH]; intros rs.
  - apply sublist_nil_l.
  - destruct rs as [|r rs]; [apply sublist_nil_l|].
    rewrite admitted_times_cons. case_decide.
    + by apply sublist_skip.
    + by apply sublist_cons.
Qed.

Lemma strictly_sorted_NoDup (l : list Qc) : StronglySorted Qclt l → NoDup l.
Proof.
  induction 1 as [|x l _ IH Hlt]; constructor; [|done].
  intros Hin. rewrite Forall_forall in Hlt.
  by apply Hlt, Qclt_not_eq in Hin.
Qed.

Lemma strictly_sorted_sorted (l : list Qc) :
  StronglySorted Qclt l → StronglySorted Qcle l.
Proof.
  induction 1 as [|x l _ IH Hlt]; constructor; [done|].
  eapply Forall_impl; [done|]. intros y. apply Qclt_le_weak.
Qed.

Lemma serve_sliding_window_log_size
    user_id max_requests window_seconds times s :
  log_wf user_id s →
  Z.of_nat (size (log_of user_id s)) ≤ Z.max 0 max_requests →
  Z.of_nat (size (log_of user_id
    (serve (sliding_window_log_dependency user_id max_requests window_seconds)
           times s).1))
  ≤ Z.max 0 max_requests.
Proof.
  revert s. induction times as [|now times IH]; intros s Hwf Hsize; [done|].
  cbn [serve fst]. cbn zeta.
  destruct (sliding_window_log_call user_id max_requests window_seconds
              now s Hwf) as (Hden & Hall & Hwf').
  cbn zeta in Hden, Hall. apply IH; [done|].
  pose proof (zset_remove_range_size 0%Qc
                (now - float_of_int window_seconds)%Qc (log_of user_id s))
    as Hkept.
  destruct (decide (Z.of_nat (size (zset_remove_range 0%Qc
              (now - float_of_int window_seconds)%Qc (log_of user_id s)))
            >= max_requests)) as [Hge|Hlt].
  - destruct (Hden Hge) as [_ ->]. lia.
  - destruct Hall as [_ ->]; [lia|]. rewrite map_size_insert.
    destruct (_ !! now); cbn [id]; lia.
Qed.

(** X17.  The rate the sliding window log enforces.  In any run of calls
    for one identity at strictly increasing, non-negative times, starting
    with no log, the admitted calls later than [final - window_seconds]
    number at most [max_requests], [final] being the time of the last
    call.  (Calls sharing one timestamp escape this count.) *)
Theorem sliding_window_log_window_bound
    user_id max_requests window_seconds now times s :
  0 < window_seconds →
  s !! ("sliding_window_log:" +:+ user_id) = None →
  Sorted Qclt (now :: times) →
  (0 ≤ now)%Qc →
  let r := serve (sliding_window_log_dependency
                    user_id max_requests window_seconds) (now :: times) s in
  let final := default now (last times) in
  Z.of_nat (length (filter
    (λ t, (final - float_of_int window_seconds < t)%Qc)
    (admitted_times (now :: times) r.2)))
  ≤ Z.max 0 max_requests.
Proof.
  intros Hwin Hs Hsorted Hnow r final.
  apply Sorted_StronglySorted in Hsorted; [|apply _].
  assert (log_of user_id s = ∅) as Hempty by (unfold log_of; by rewrite Hs).
  assert (log_wf user_id s) as Hwf by (unfold log_wf; by rewrite Hs).
  assert (Forall (λ t, (0 ≤ t)%Qc) (now :: times)) as Hpos.
  { constructor; [done|].
    apply StronglySorted_inv in Hsorted as [_ Hlt].
    eapply Forall_impl; [done|]. intros t Ht.
    eapply Qcle_trans; [done|]. by apply Qclt_le_weak. }
  pose proof (serve_sliding_window_log_size user_id max_requests
                window_seconds (now :: times) s Hwf) as Hsize.
  rewrite Hempty, map_size_empty in Hsize. fold r in Hsize.
  etrans; [|apply Hsize; lia].
  apply Nat2Z.inj_le. rewrite <-length_map_to_list.
  rewrite <-(length_fmap fst (map_to_list _)).
  apply submseteq_length, NoDup_submseteq.
  - apply NoDup_filter.
    apply (sublist_NoDup _ (now :: times));
      [by apply strictly_sorted_NoDup|apply admitted_times_sublist].
  - intros t [Hlt Hin]%list_elem_of_filter.
    apply list_elem_of_fmap. exists (t, t). split; [done|].
    apply elem_of_map_to_list.
    apply (serve_sliding_window_log_contents user_id max_requests
             window_seconds Hwin times now s Hwf).
    + intros m sc. by rewrite Hempty, lookup_empty.
    + by apply strictly_sorted_sorted.
    + done.
    + by split_and!; [..|right].
Qed.

Lemma sliding_window_log_window_bound_witness :
  let r := serve (sliding_window_log_dependency "u" 2 10)
                 [Q2Qc 0; Q2Qc 1; Q2Qc 2; Q2Qc 10; Q2Qc 11] ∅ in
  Z.of_nat (length (filter
    (λ t, (Q2Qc 11 - float_of_int 10 < t)%Qc)
    (admitted_times [Q2Qc 0; Q2Qc 1; Q2Qc 2; Q2Qc 10; Q2Qc 11] r.2)))
  ≤ Z.max 0 2.
Proof.
  refine (sliding_window_log_window_bound "u" 2 10 (Q2Qc 0)
            [Q2Qc 1; Q2Qc 2; Q2Qc 10; Q2Qc 11] ∅ _ _ _ _).
  - lia.
  - reflexivity.
  - repeat constructor; vm_compute; reflexivity.
  - vm_compute. discriminate.
Defined.

(** X18.  The sliding window log forgets.  When every logged timestamp is
    at least [window_seconds] old, a call with [max_requests] of one or
    more is allowed and leaves a log holding its own timestamp alone. *)
Theorem sliding_window_log_recovers
    user_id max_requests window_seconds now s :
  0 < max_requests →
  log_wf user_id s →
  (∀ m sc, log_of user_id s !! m = Some sc →
           (0 ≤ sc)%Qc ∧ (sc ≤ now - float_of_int window_seconds)%Qc) →
  let r := run (sliding_window_log_dependency
                  user_id max_requests window_seconds) now s in
  r.2 = allowed ∧ log_of user_id r.1 = {[now := now]}.
Proof.
  intros Hmax Hwf Hold r.
  destruct (sliding_window_log_call user_id max_requests window_seconds
              now s Hwf) as (_ & Hall & _).
  cbn zeta in Hall.
  assert (zset_remove_range 0%Qc (now - float_of_int window_seconds)%Qc
            (log_of user_id s) = ∅) as Hkept.
  { apply map_empty. intros m.
    destruct (zset_remove_range _ _ _ !! m) as [sc|] eqn:Hm; [|done].
    apply zset_remove_range_lookup in Hm as [Hin Hout].
    destruct Hout. by apply Hold in Hin. }
  rewrite Hkept, map_size_empty in Hall.
  destruct Hall as [Hres Hlog]; [lia|]. subst r. split; [done|].
  by rewrite Hlog, insert_empty.
Qed.

Lemma sliding_window_log_recovers_witness :
  let dep := sliding_window_log_dependency "u" 2 10 in
  let s := (serve dep [Q2Qc 0; Q2Qc 1; Q2Qc 1] ∅).1 in
  (run dep (Q2Qc 11) s).2 = allowed ∧
  log_of "u" (run dep (Q2Qc 11) s).1 = {[Q2Qc 11 := Q2Qc 11]}.
Proof.
  intros dep s.
  refine (sliding_window_log_recovers "u" 2 10 (Q2Qc 11) s _ _ _).
  - lia.
  - vm_compute. exact I.
  - intros m sc Hm.
    assert (log_of "u" s = {[Q2Qc 0 := Q2Qc 0; Q2Qc 1 := Q2Qc 1]}) as Hlog
      by (vm_compute; reflexivity).
    rewrite Hlog in Hm.
    apply lookup_insert_Some in Hm as [[_ <-]|[_ Hm]].
    + split; vm_compute; discriminate.
    + apply lookup_singleton_Some in Hm as [_ <-].
      split; vm_compute; discriminate.
Defined.
